(** * Mytherra: unit conversion (qt/mytherraunits) and the chainstate engine

    The first part embeds [src/qt/mytherraunits.cpp] (amount formatting and
    parsing, unit serialization).  The second part models the validation and
    chainstate engine of the specification (UTXO set, block index, chainstate
    manager). *)

From Stdlib Require Import ZArith List Bool Lia String Ascii.
From stdpp Require Import gmap list.
Import ListNotations.

Local Open Scope Z_scope.
#[local] Set Warnings "-clear-no-such-hyp".

(** ** Qt strings

    A [QString] is a sequence of UTF-16 code units ([QChar]).  Only the
    members used by [MytherraUnits] are modelled; they follow the Qt
    documentation of [QString]. *)
Module Qt.

Definition QChar := Z.
Definition QString := list QChar.

Definition size (s : QString) : Z := Z.of_nat (List.length s).
Definition isEmpty (s : QString) : bool := size s =? 0.

(** Literals: an ASCII Rocq string read as a QString. *)
Fixpoint qs (s : string) : QString :=
  match s with
  | EmptyString => []
  | String c r => Z.of_N (N_of_ascii c) :: qs r
  end.

Definition ch_space : QChar := 32.
Definition ch_plus : QChar := 43.
Definition ch_minus : QChar := 45.
Definition ch_dot : QChar := 46.
Definition ch_zero : QChar := 48.

(** [QString::number(qlonglong)], base 10: the digits of [n], most
    significant first, no leading zero, a minus sign for negatives.  A qint64
    has at most 19 decimal digits. *)
Fixpoint digits_aux (fuel : nat) (n : Z) (acc : QString) : QString :=
  match fuel with
  | O => acc
  | S fuel' =>
      let acc' := (ch_zero + n mod 10) :: acc in
      if n / 10 =? 0 then acc' else digits_aux fuel' (n / 10) acc'
  end.

Definition digits (n : Z) : QString := digits_aux 19 n [].

Definition number (n : Z) : QString :=
  if n <? 0 then ch_minus :: digits (- n) else digits n.

(** [QString::rightJustified(width, fill)] and [leftJustified], with the
    default [truncate = false]: a string already [width] long or longer is
    returned as it is. *)
Definition rightJustified (width : Z) (fill : QChar) (s : QString) : QString :=
  replicate (Z.to_nat (width - size s)) fill ++ s.

Definition leftJustified (width : Z) (fill : QChar) (s : QString) : QString :=
  s ++ replicate (Z.to_nat (width - size s)) fill.

(** [QString::insert(position, ch)].  A negative position counts from the
    end; a position past the end first extends the string with spaces. *)
Definition insert (position : Z) (c : QChar) (s : QString) : QString :=
  let i := if position <? 0 then position + size s else position in
  if i <? 0 then s
  else if size s <? i then s ++ replicate (Z.to_nat (i - size s)) ch_space ++ [c]
  else take (Z.to_nat i) s ++ c :: drop (Z.to_nat i) s.

(** [QString::remove(ch)]: every occurrence of [ch] is removed. *)
Definition remove (c : QChar) (s : QString) : QString :=
  List.filter (fun x => negb (x =? c)) s.

(** [QString::replace(before, after)] for single characters. *)
Definition replace (before after : QChar) (s : QString) : QString :=
  List.map (fun x => if x =? before then after else x) s.

(** [QString::split(sep)] with the default [Qt::KeepEmptyParts]: the list is
    never empty, and a string without [sep] (the empty string too) gives the
    one-element list holding it. *)
Fixpoint split (sep : QChar) (s : QString) : list QString :=
  match s with
  | [] => [[]]
  | c :: r =>
      if c =? sep then [] :: split sep r
      else match split sep r with
           | [] => [[c]]
           | p :: ps => (c :: p) :: ps
           end
  end.

(** [QChar::isSpace]: the characters 9 to 13, 0x85, 0xA0 and the Unicode
    separators. *)
Definition isSpace (c : QChar) : bool :=
  ((9 <=? c) && (c <=? 13)) || (c =? 32) || (c =? 133) || (c =? 160)
  || (c =? 5760) || ((8192 <=? c) && (c <=? 8202)) || (c =? 8232)
  || (c =? 8233) || (c =? 8239) || (c =? 8287) || (c =? 12288).

Fixpoint skipSpaces (s : QString) : QString :=
  match s with
  | c :: r => if isSpace c then skipSpaces r else s
  | [] => []
  end.

Definition trimmed (s : QString) : QString :=
  rev (skipSpaces (rev (skipSpaces s))).

Definition isDigit (c : QChar) : bool := (48 <=? c) && (c <=? 57).

(** The value of a string of decimal digits read from the left, starting
    from [acc]; [None] when a character is not a digit. *)
Fixpoint digitsValue (acc : Z) (s : QString) : option Z :=
  match s with
  | [] => Some acc
  | c :: r => if isDigit c then digitsValue (acc * 10 + (c - ch_zero)) r else None
  end.

Definition INT64_MIN : Z := - 2 ^ 63.
Definition INT64_MAX : Z := 2 ^ 63 - 1.

(** U+2212 MINUS SIGN, which the conversion of Qt to the C locale
    ([QLocaleData::digitToCLocale]) reads as the minus sign, like U+002D. *)
Definition ch_minus_sign : QChar := 8722.

(** [QString::toLongLong(&ok)], base 10, C locale: surrounding white space
    is skipped, an optional sign is followed by at least one digit, and the
    value fits a qint64.  On failure the value is 0 and [ok] is false.  The
    result is the pair (value, ok). *)
Definition toLongLong (s : QString) : Z * bool :=
  let t := trimmed s in
  let '(neg, body) :=
    match t with
    | c :: r => if (c =? ch_minus) || (c =? ch_minus_sign) then (true, r)
                else if c =? ch_plus then (false, r) else (false, t)
    | [] => (false, [])
    end in
  match body with
  | [] => (0, false)
  | _ =>
      match digitsValue 0 body with
      | None => (0, false)
      | Some v =>
          let r := if neg : bool then - v else v in
          if (INT64_MIN <=? r) && (r <=? INT64_MAX) then (r, true) else (0, false)
      end
  end.

(** [QString::replace(QChar before, const QString &after)]: every
    occurrence of the character is replaced by the string. *)
Definition replaceStr (before : QChar) (after : QString) (s : QString) : QString :=
  flat_map (fun x => if x =? before then after else [x]) s.

Definition ch_percent : QChar := 37.
Definition ch_one : QChar := 49.

(** [QString::arg(a)] on a template whose place markers are all [%1] and
    stand before a character that is not a digit: each marker is replaced
    by [a]. *)
Fixpoint arg (a : QString) (template : QString) : QString :=
  match template with
  | [] => []
  | c :: r =>
      match r with
      | c' :: r' =>
          if (c =? ch_percent) && (c' =? ch_one) then a ++ arg a r' else c :: arg a r
      | [] => [c]
      end
  end.

End Qt.

(** ** qt/mytherraunits.cpp *)
Module MytherraUnits.
Import Qt.

Inductive Unit := MYT | mMYT | uMYT | SAT.

Inductive SeparatorStyle := NEVER | STANDARD | ALWAYS.

Definition MAX_DIGITS_MYT : Z := 16.

(** U+2009 THIN SPACE, [THIN_SP_CP]. *)
Definition THIN_SP_CP : QChar := 8201.

Definition availableUnits : list Unit := [MYT; mMYT; uMYT; SAT].

Definition factor (unit : Unit) : Z :=
  match unit with
  | MYT => 100000000
  | mMYT => 100000
  | uMYT => 100
  | SAT => 1
  end.

Definition decimals (unit : Unit) : Z :=
  match unit with
  | MYT => 8
  | mMYT => 5
  | uMYT => 2
  | SAT => 0
  end.

Definition SeparatorStyle_eqb (a b : SeparatorStyle) : bool :=
  match a, b with
  | NEVER, NEVER | STANDARD, STANDARD | ALWAYS, ALWAYS => true
  | _, _ => false
  end.

(** The loop [for (int i = 3; i < q_size; i += 3)
    quotient_str.insert(q_size - i, thin_sp);] of [format].  [q_size] is the
    size before the loop; the loop runs fewer than [q_size] times. *)
Fixpoint insertSeparators (fuel : nat) (i q_size : Z) (quotient_str : QString) : QString :=
  match fuel with
  | O => quotient_str
  | S fuel' =>
      if i <? q_size
      then insertSeparators fuel' (i + 3) q_size (insert (q_size - i) THIN_SP_CP quotient_str)
      else quotient_str
  end.

(** [MytherraUnits::format].  [nIn] is a [CAmount] (qint64); the amounts the
    wallet handles are far from the ends of the qint64 range, where [-n]
    would overflow. *)
Definition format (unit : Unit) (nIn : Z) (fPlus : bool)
    (separators : SeparatorStyle) (justify : bool) : QString :=
  let n := nIn in
  let coin := factor unit in
  let num_decimals := decimals unit in
  let n_abs := if n >? 0 then n else - n in
  let quotient := n_abs / coin in
  let quotient_str := number quotient in
  let quotient_str :=
    if justify then rightJustified (MAX_DIGITS_MYT - num_decimals) ch_space quotient_str
    else quotient_str in
  let q_size := size quotient_str in
  let quotient_str :=
    if SeparatorStyle_eqb separators ALWAYS
       || (SeparatorStyle_eqb separators STANDARD && (q_size >? 4))
    then insertSeparators (Z.to_nat q_size) 3 q_size quotient_str
    else quotient_str in
  let quotient_str :=
    if n <? 0 then insert 0 ch_minus quotient_str
    else if fPlus && (n >? 0) then insert 0 ch_plus quotient_str
    else quotient_str in
  if num_decimals >? 0 then
    let remainder := n_abs mod coin in
    let remainder_str := rightJustified num_decimals ch_zero (number remainder) in
    quotient_str ++ qs "." ++ remainder_str
  else quotient_str.

(** [MytherraUnits::removeSpaces] (declared in the header). *)
Definition removeSpaces (text : QString) : QString :=
  remove THIN_SP_CP (remove ch_space text).

(** [MytherraUnits::parse].  The result pairs the returned [bool] with what
    is stored through [val_out]: [None] when the function returns before the
    store. *)
Definition parse (unit : Unit) (value : QString) : bool * option Z :=
  if isEmpty value then (false, None)
  else
    let num_decimals := decimals unit in
    let parts := split ch_dot (removeSpaces value) in
    if Z.of_nat (List.length parts) >? 2 then (false, None)
    else
      let whole := nth 0 parts [] in
      let decimals_ := if Z.of_nat (List.length parts) >? 1 then nth 1 parts [] else [] in
      if size decimals_ >? num_decimals then (false, None)
      else
        let str := whole ++ leftJustified num_decimals ch_zero decimals_ in
        if size str >? 18 then (false, None)
        else
          let '(retvalue, ok) := toLongLong str in
          (ok, Some retvalue).

(** The sign [format] puts in front of a negative amount. *)
Definition sign_str (n : Z) : QString := if n <? 0 then [ch_minus] else [].

(** [ToQint8] and [FromQint8].  [FromQint8] ends in [assert(false)] for any
    other byte: [None]. *)
Definition ToQint8 (unit : Unit) : Z :=
  match unit with
  | MYT => 0
  | mMYT => 1
  | uMYT => 2
  | SAT => 3
  end.

Definition FromQint8 (num : Z) : option Unit :=
  match num with
  | 0 => Some MYT
  | 1 => Some mMYT
  | 2 => Some uMYT
  | 3 => Some SAT
  | _ => None
  end.

(** A [QDataStream] over a byte device: the bytes still to be read, oldest
    first.  [operator<<] appends one qint8, [operator>>] takes one from the
    front (a read past the end yields 0, as QDataStream does). *)
Definition QDataStream := list Z.

Definition write_unit (out : QDataStream) (unit : Unit) : QDataStream :=
  out ++ [ToQint8 unit].

Definition read_unit (in_ : QDataStream) : option Unit * QDataStream :=
  match in_ with
  | input :: rest => (FromQint8 input, rest)
  | [] => (FromQint8 0, [])
  end.

(** [THIN_SP_HTML], the header's [HTML_HACK_SP]. *)
Definition THIN_SP_HTML : QString :=
  qs "<span style='white-space: nowrap; font-size: 6pt'> </span>".

(** [MytherraUnits::longName]; the micro sign of [fromUtf8] is U+00B5. *)
Definition longName (unit : Unit) : QString :=
  match unit with
  | MYT => qs "MYT"
  | mMYT => qs "mMYT"
  | uMYT => 181 :: qs "MYT (bits)"
  | SAT => qs "smyts"
  end.

Definition shortName (unit : Unit) : QString :=
  match unit with
  | MYT => longName unit
  | mMYT => longName unit
  | uMYT => qs "bits"
  | SAT => qs "sat"
  end.

(** [MytherraUnits::description]; [THIN_SP_UTF8] decodes to U+2009. *)
Definition description (unit : Unit) : QString :=
  match unit with
  | MYT => qs "Mytherras"
  | mMYT => qs "Milli-Mytherras (1 / 1" ++ THIN_SP_CP :: qs "000)"
  | uMYT => qs "Micro-Mytherras (bits) (1 / 1" ++ THIN_SP_CP :: qs "000"
            ++ THIN_SP_CP :: qs "000)"
  | SAT => qs "smyts (1 / 100" ++ THIN_SP_CP :: qs "000" ++ THIN_SP_CP :: qs "000)"
  end.

(** [MytherraUnits::formatWithUnit]; [format] is called with its default
    [justify = false]. *)
Definition formatWithUnit (unit : Unit) (amount : Z) (plussign : bool)
    (separators : SeparatorStyle) : QString :=
  format unit amount plussign separators false ++ qs " " ++ shortName unit.

(** [MytherraUnits::formatHtmlWithUnit]. *)
Definition formatHtmlWithUnit (unit : Unit) (amount : Z) (plussign : bool)
    (separators : SeparatorStyle) : QString :=
  let str := formatWithUnit unit amount plussign separators in
  let str := replaceStr THIN_SP_CP THIN_SP_HTML str in
  arg str (qs "<span style='white-space: nowrap;'>%1</span>").

Definition ch_hash : QChar := 35.

(** [MytherraUnits::formatWithPrivacy]; [None] stands for the failed
    [assert(amount >= 0)]. *)
Definition formatWithPrivacy (unit : Unit) (amount : Z) (separators : SeparatorStyle)
    (privacy : bool) : option QString :=
  if amount <? 0 then None
  else
    let value :=
      if privacy then replace ch_zero ch_hash (format unit 0 false separators true)
      else format unit amount false separators true in
    Some (value ++ qs " " ++ shortName unit).

(** The list model.  The constructor stores [availableUnits()] in
    [unitlist]; a [QVariant] is invalid, a string or a unit. *)
Inductive QVariant :=
  | QVInvalid
  | QVString (s : QString)
  | QVUnit (unit : Unit).

Definition unitlist : list Unit := availableUnits.

(** [Qt::DisplayRole], [Qt::EditRole], [Qt::ToolTipRole] and
    [UnitRole = Qt::UserRole]. *)
Definition DisplayRole : Z := 0.
Definition EditRole : Z := 2.
Definition ToolTipRole : Z := 3.
Definition UnitRole : Z := 256.

Definition rowCount : Z := Z.of_nat (List.length unitlist).

(** [MytherraUnits::data], on the row of the index and the role. *)
Definition data (row role : Z) : QVariant :=
  if (0 <=? row) && (row <? Z.of_nat (List.length unitlist)) then
    match nth_error unitlist (Z.to_nat row) with
    | Some unit =>
        if (role =? EditRole) || (role =? DisplayRole) then QVString (longName unit)
        else if role =? ToolTipRole then QVString (description unit)
        else if role =? UnitRole then QVUnit unit
        else QVInvalid
    | None => QVInvalid
    end
  else QVInvalid.

(** Units written to a stream one after the other with [operator<<], and
    [n] units read back with [operator>>]. *)
Definition write_units (out : QDataStream) (units : list Unit) : QDataStream :=
  fold_left write_unit units out.

Fixpoint read_units (n : nat) (in_ : QDataStream) : list (option Unit) * QDataStream :=
  match n with
  | O => ([], in_)
  | S n' =>
      let '(u, rest) := read_unit in_ in
      let '(us, rest') := read_units n' rest in
      (u :: us, rest')
  end.

(** The integer part of an amount as the thin separators leave it, read
    from its last character: after every three characters that have a
    fourth behind them stands a thin space. *)
Fixpoint groupsOfThree (reversed : QString) : QString :=
  match reversed with
  | a :: ((b :: (c :: ((_ :: _) as rest))) ) => a :: b :: c :: THIN_SP_CP :: groupsOfThree rest
  | _ => reversed
  end.

(** The sign [format] writes: a minus for a negative amount, a plus for a
    positive one when [fPlus] asks for it. *)
Definition sign_of (fPlus : bool) (n : Z) : QString :=
  if n <? 0 then [ch_minus] else if fPlus && (n >? 0) then [ch_plus] else [].

(** The digits [format] writes before the dot, and what it writes from the
    dot on: nothing for a unit without decimals. *)
Definition whole_of (unit : Unit) (n : Z) : QString := digits (Z.abs n / factor unit).

Definition fraction_of (unit : Unit) (n : Z) : QString :=
  if decimals unit >? 0
  then ch_dot :: rightJustified (decimals unit) ch_zero (digits (Z.abs n mod factor unit))
  else [].

(** The characters [toLongLong] can accept, and so [parse]: digits, the
    plus sign, the two minus signs (U+002D and U+2212), the dot, white
    space. *)
Definition isAmountChar (c : QChar) : bool :=
  isDigit c || (c =? ch_plus) || (c =? ch_minus) || (c =? ch_minus_sign) || (c =? ch_dot)
  || isSpace c.

End MytherraUnits.

(** ** The UTXO set: coins, the persistent store and the in-memory cache

    The validation and chainstate engine is not among the sources; this part
    follows sections 3 and 4 of the specification. *)
Module Coins.

Abbreviation Hash := N (only parsing).

(** (transaction identifier, output index): the key of the UTXO set. *)
Abbreviation OutputReference := (N * nat)%type (only parsing).

(** Locking conditions and unlocking proofs are byte strings. *)
Definition Script := list Z.

(** Modelled from the spec: the Coin of section 3 (value, locking condition,
    creation height, reward flag); the engine's Coin type is not among the
    sources. *)
Record Coin := {
  coin_value : Z;
  coin_script : Script;
  coin_height : nat;
  coin_isReward : bool
}.

(** Modelled from the spec: the error taxonomy of section 7. *)
Inductive RejectReason :=
  | Malformed
  | ConsensusViolation
  | ResourceExhausted
  | IoError
  | InternalInvariant.

Inductive Result (A : Type) :=
  | Ok (a : A)
  | Err (r : RejectReason).
Arguments Ok {A} a.
Arguments Err {A} r.

Definition bind {A B : Type} (x : Result A) (f : A -> Result B) : Result B :=
  match x with
  | Ok a => f a
  | Err r => Err r
  end.

Notation "'let*' x ':=' c1 'in' c2" := (bind c1 (fun x => c2))
  (at level 10, x pattern, c1 at level 100, c2 at level 200).

(** An entry of the in-memory layer: the coin ([None] is the marker of a
    spent coin), and the dirty and fresh flags. *)
Record CacheEntry := {
  entry_coin : option Coin;
  entry_dirty : bool;
  entry_fresh : bool
}.

(** Modelled from the spec: the persisted state of section 6, the UTXO
    entries keyed by output reference and the reserved best-block key. *)
Record Store := {
  store_coins : gmap OutputReference Coin;
  store_best : Hash
}.

(** One operation on a coin of a batched write: put the coin, or erase the
    key. *)
Definition CoinOp := option Coin.

(** A batch for [batchWrite]: the coin operations by key and the new value
    of the best-block key. *)
Record Batch := {
  batch_coins : gmap OutputReference CoinOp;
  batch_best : Hash
}.

Definition applyOp (op : option CoinOp) (old : option Coin) : option Coin :=
  match op with
  | Some o => o
  | None => old
  end.

Definition applyBatch (b : Batch) (s : Store) : Store :=
  {| store_coins := merge applyOp (batch_coins b) (store_coins s);
     store_best := batch_best b |}.

(** Modelled from the spec: [batchWrite(ops) -> Result<(), IoError>] of the
    external key-value store (section 6), as its caller sees it: the verdict
    and the store the call leaves behind. *)
Definition Device := Batch -> Store -> Result unit * Store.

(** The assumption of section 1 on the store: a batched write is atomic.
    Either the whole batch is applied, or the write is refused with IoError
    and the store is as it was. *)
Definition atomicDevice (write : Device) : Prop :=
  forall b s, write b s = (Ok tt, applyBatch b s) \/ write b s = (Err IoError, s).

(** Modelled from the spec: the store of sections 1 and 6, whose batched
    writes are atomic.  Whether the device accepts the write is not decided
    by the program: [device_ok] is the outcome the device gives. *)
Definition batchWrite (device_ok : bool) : Device :=
  fun b s => if device_ok then (Ok tt, applyBatch b s) else (Err IoError, s).

(** A store that is not atomic: the write is refused after the coin
    operations were applied and before the best-block key was written. *)
Definition tornWrite : Device :=
  fun b s => (Err IoError, {| store_coins := store_coins (applyBatch b s);
                              store_best := store_best s |}).

(** Modelled from the spec: the CoinsViewCache of sections 3 and 4.2, an
    in-memory layer over the parent view, here the persistent store, with
    the best-block hash the layer is consistent with. *)
Record CoinsViewCache := {
  cacheCoins : gmap OutputReference CacheEntry;
  hashBlock : Hash;
  parent : Store
}.

Definition newCache (s : Store) : CoinsViewCache :=
  {| cacheCoins := ∅; hashBlock := store_best s; parent := s |}.

Definition withCoins (c : CoinsViewCache) (m : gmap OutputReference CacheEntry)
    : CoinsViewCache :=
  {| cacheCoins := m; hashBlock := hashBlock c; parent := parent c |}.

(** Modelled from the spec: [getCoin], the local layer first, else the
    parent; a read changes nothing. *)
Definition getCoin (c : CoinsViewCache) (ref : OutputReference) : option Coin :=
  match cacheCoins c !! ref with
  | Some e => entry_coin e
  | None => store_coins (parent c) !! ref
  end.

(** Modelled from the spec: the explicit fetch-and-cache step that warms the
    layer with the parent's coin. *)
Definition fetchCoin (c : CoinsViewCache) (ref : OutputReference) : CoinsViewCache :=
  match cacheCoins c !! ref with
  | Some _ => c
  | None =>
      match store_coins (parent c) !! ref with
      | Some coin =>
          withCoins c (<[ref := {| entry_coin := Some coin; entry_dirty := false;
                                   entry_fresh := false |}]> (cacheCoins c))
      | None => c
      end
  end.

(** Modelled from the spec: [addCoin(ref, coin, isFresh)].  Overwriting an
    existing coin that is not fresh and was not spent first is the fatal
    consistency error: a coin the parent knows, or an entry of the layer
    that is not fresh.  A fresh coin of the layer is overwritten, and the
    entry stays fresh.  Over a spent marker the new entry is not fresh: the
    parent may still know the old coin. *)
Definition addCoin (c : CoinsViewCache) (ref : OutputReference) (coin : Coin)
    (isFresh : bool) : Result CoinsViewCache :=
  let put fresh :=
    Ok (withCoins c (<[ref := {| entry_coin := Some coin; entry_dirty := true;
                                 entry_fresh := fresh |}]> (cacheCoins c))) in
  match cacheCoins c !! ref with
  | Some e =>
      match entry_coin e with
      | Some _ => if entry_fresh e then put true else Err InternalInvariant
      | None => put false
      end
  | None =>
      match store_coins (parent c) !! ref with
      | Some _ => Err InternalInvariant
      | None => put isFresh
      end
  end.

Definition spentMarker : CacheEntry :=
  {| entry_coin := None; entry_dirty := true; entry_fresh := false |}.

(** Modelled from the spec: [spendCoin(ref)], returning the coin removed.  A
    fresh coin is deleted in place; otherwise a spent marker stays in the
    layer until the flush. *)
Definition spendCoin (c : CoinsViewCache) (ref : OutputReference)
    : option Coin * CoinsViewCache :=
  match cacheCoins c !! ref with
  | Some e =>
      match entry_coin e with
      | Some coin =>
          if entry_fresh e
          then (Some coin, withCoins c (delete ref (cacheCoins c)))
          else (Some coin, withCoins c (<[ref := spentMarker]> (cacheCoins c)))
      | None => (None, c)
      end
  | None =>
      match store_coins (parent c) !! ref with
      | Some coin => (Some coin, withCoins c (<[ref := spentMarker]> (cacheCoins c)))
      | None => (None, c)
      end
  end.


Definition setBestBlock (c : CoinsViewCache) (h : Hash) : CoinsViewCache :=
  {| cacheCoins := cacheCoins c; hashBlock := h; parent := parent c |}.

(** The batch of a flush: one operation per dirty entry and the best-block
    hash of the layer. *)
Definition flushBatch (c : CoinsViewCache) : Batch :=
  {| batch_coins := entry_coin <$> filter (fun kv => entry_dirty kv.2 = true) (cacheCoins c);
     batch_best := hashBlock c |}.

Definition withParent (c : CoinsViewCache) (s : Store) : CoinsViewCache :=
  {| cacheCoins := cacheCoins c; hashBlock := hashBlock c; parent := s |}.

(** Modelled from the spec: [flush() -> Result<(), IoError>] over a store
    [write].  One batch goes to the store.  When the write is refused the
    layer keeps its entries, over the store as the write left it; otherwise
    the layer is cleared. *)
Definition flushTo (write : Device) (c : CoinsViewCache) : Result unit * CoinsViewCache :=
  match write (flushBatch c) (parent c) with
  | (Ok _, s) => (Ok tt, {| cacheCoins := ∅; hashBlock := hashBlock c; parent := s |})
  | (Err r, s) => (Err r, withParent c s)
  end.

(** Modelled from the spec: the flush of the UTXO set of the manager, over
    the atomic store. *)
Definition flush (device_ok : bool) (c : CoinsViewCache) : Result unit * CoinsViewCache :=
  flushTo (batchWrite device_ok) c.

Definition overlay (e : option CacheEntry) (p : option Coin) : option Coin :=
  match e with
  | Some e => entry_coin e
  | None => p
  end.

(** The UTXO set a cache stands for: the mapping read by [getCoin]. *)
Definition utxo (c : CoinsViewCache) : gmap OutputReference Coin :=
  merge overlay (cacheCoins c) (store_coins (parent c)).

(** Consistency of a layer with its parent: a fresh entry is unknown to the
    parent, and an entry that is not dirty repeats the parent. *)
Definition cache_wf (c : CoinsViewCache) : Prop :=
  forall ref e, cacheCoins c !! ref = Some e ->
    (entry_fresh e = true -> store_coins (parent c) !! ref = None)
    /\ (entry_dirty e = false -> entry_coin e = store_coins (parent c) !! ref).


End Coins.

(** ** Transactions, blocks, and connecting a block to the UTXO set *)
Module Validation.
Import Coins.

Record TxIn := {
  prevout : OutputReference;
  unlockingProof : Script
}.

Record TxOut := {
  out_value : Z;
  lockingCondition : Script
}.

(** Modelled from the spec: the Transaction of section 3.  [txid] stands for
    the identifier derived from the serialized content. *)
Record Transaction := {
  txid : Hash;
  inputs : list TxIn;
  outputs : list TxOut
}.

Record Header := {
  hdr_hash : Hash;
  hdr_prev : Hash;
  hdr_commitment : Hash;
  hdr_time : Z;
  hdr_target : Z;
  hdr_proof : Z
}.

(** Modelled from the spec: the Block of section 3. *)
Record Block := {
  header : Header;
  txs : list Transaction
}.

Definition Flags := N.
Definition ScriptError := N.

(** What the engine takes from its collaborators and from the consensus
    constants: the script verifier of section 4.1 ([None] is acceptance, a
    pure function by its type), the rule flags active at a height, the
    reward schedule, the maturity of reward outputs, the work a target
    stands for, the commitment over a transaction sequence, the check of the
    proof field against the target, and the limit on the transaction
    count. *)
Record ConsensusParams := {
  verify : Script -> Script -> Transaction -> nat -> Flags -> Z -> option ScriptError;
  flagsAt : nat -> Flags;
  subsidy : nat -> Z;
  maturity : nat;
  workOf : Z -> Z;
  commit : list Transaction -> Hash;
  checkProof : Header -> bool;
  maxBlockTxs : nat
}.

(** The reward transaction is the one without inputs. *)
Definition isReward (tx : Transaction) : bool :=
  match inputs tx with
  | [] => true
  | _ => false
  end.

Definition valueOut (tx : Transaction) : Z :=
  fold_right (fun o acc => out_value o + acc) 0 (outputs tx).

Definition valueIn (spent : list (OutputReference * Coin)) : Z :=
  fold_right (fun rc acc => coin_value rc.2 + acc) 0 spent.

(** Modelled from the spec: the undo log of the glossary, per transaction
    the coins deleted (with their content) and the references created. *)
Record TxUndo := {
  undo_spent : list (OutputReference * Coin);
  undo_created : list OutputReference
}.

Definition BlockUndo := list TxUndo.

Section Connect.
Variable P : ConsensusParams.
Variable height : nat.

(** Spending the inputs of a transaction in order.  [seen] holds the
    references consumed earlier in the same block.  An input fails the block
    when its reference was consumed earlier in the block, when its coin is
    missing, or when it spends a reward output before its maturity. *)
Fixpoint spendInputs (ins : list TxIn) (c : CoinsViewCache) (seen : gset OutputReference)
    : Result (CoinsViewCache * gset OutputReference * list (OutputReference * Coin)) :=
  match ins with
  | [] => Ok (c, seen, [])
  | i :: rest =>
      if bool_decide (prevout i ∈ seen) then Err ConsensusViolation
      else
        match spendCoin c (prevout i) with
        | (None, _) => Err ConsensusViolation
        | (Some coin, c') =>
            if coin_isReward coin && (height <? coin_height coin + maturity P)%nat
            then Err ConsensusViolation
            else
              let* (c'', seen', sp) := spendInputs rest c' ({[prevout i]} ∪ seen) in
              Ok (c'', seen', (prevout i, coin) :: sp)
        end
  end.

(** Script verification of every input against the coin it spent. *)
Fixpoint verifyInputs (tx : Transaction) (idx : nat) (ins : list TxIn)
    (spent : list (OutputReference * Coin)) : bool :=
  match ins, spent with
  | i :: ins', (_, coin) :: spent' =>
      match verify P (coin_script coin) (unlockingProof i) tx idx (flagsAt P height)
                   (coin_value coin) with
      | None => verifyInputs tx (S idx) ins' spent'
      | Some _ => false
      end
  | _, _ => true
  end.

Definition newCoin (o : TxOut) (reward : bool) : Coin :=
  {| coin_value := out_value o; coin_script := lockingCondition o;
     coin_height := height; coin_isReward := reward |}.

(** Creating the outputs of a transaction as fresh coins, in order. *)
Fixpoint addOutputs (id : Hash) (reward : bool) (idx : nat) (outs : list TxOut)
    (c : CoinsViewCache) : Result (CoinsViewCache * list OutputReference) :=
  match outs with
  | [] => Ok (c, [])
  | o :: rest =>
      let* c' := addCoin c (id, idx) (newCoin o reward) true in
      let* (c'', created) := addOutputs id reward (S idx) rest c' in
      Ok (c'', (id, idx) :: created)
  end.

(** One transaction: spend the inputs, verify the scripts, check that a
    transaction other than the reward spends at least what it creates, create
    the outputs. *)
Definition connectTx (tx : Transaction) (c : CoinsViewCache) (seen : gset OutputReference)
    : Result (CoinsViewCache * gset OutputReference * TxUndo) :=
  let* (c1, seen1, sp) := spendInputs (inputs tx) c seen in
  if negb (verifyInputs tx 0 (inputs tx) sp) then Err ConsensusViolation
  else if negb (isReward tx) && (valueIn sp <? valueOut tx) then Err ConsensusViolation
  else
    let* (c2, created) := addOutputs (txid tx) (isReward tx) 0 (outputs tx) c1 in
    Ok (c2, seen1, {| undo_spent := sp; undo_created := created |}).

(** The transactions of a block in block order. *)
Fixpoint connectTxs (l : list Transaction) (c : CoinsViewCache) (seen : gset OutputReference)
    : Result (CoinsViewCache * BlockUndo) :=
  match l with
  | [] => Ok (c, [])
  | tx :: rest =>
      let* (c1, seen1, u) := connectTx tx c seen in
      let* (c2, us) := connectTxs rest c1 seen1 in
      Ok (c2, u :: us)
  end.

End Connect.

(** The fees a block collects: for every transaction other than the reward,
    the value of the coins spent minus the value created. *)
Fixpoint totalFees (l : list Transaction) (us : BlockUndo) : Z :=
  match l, us with
  | tx :: l', u :: us' =>
      (if isReward tx then 0 else valueIn (undo_spent u) - valueOut tx) + totalFees l' us'
  | _, _ => 0
  end.

Definition rewardValue (l : list Transaction) : Z :=
  fold_right (fun tx acc => (if isReward tx then valueOut tx else 0) + acc) 0 l.

(** Modelled from the spec: connecting a block (section 4.4), one atomic
    operation.  The transactions run on the cache in block order and the
    reward is checked last against the schedule and the fees; the cache that
    results replaces the caller's only when the whole block is accepted. *)
Definition connectBlock (P : ConsensusParams) (c : CoinsViewCache) (b : Block) (height : nat)
    : Result BlockUndo * CoinsViewCache :=
  match connectTxs P height (txs b) c ∅ with
  | Ok (c', us) =>
      if subsidy P height + totalFees (txs b) us <? rewardValue (txs b)
      then (Err ConsensusViolation, c)
      else (Ok us, c')
  | Err r => (Err r, c)
  end.

(** Deleting the outputs a transaction created, last created first. *)
Fixpoint removeOutputs (created : list OutputReference) (c : CoinsViewCache)
    : Result CoinsViewCache :=
  match created with
  | [] => Ok c
  | ref :: rest =>
      let* c' := removeOutputs rest c in
      match spendCoin c' ref with
      | (Some _, c'') => Ok c''
      | (None, _) => Err InternalInvariant
      end
  end.

(** Resurrecting the coins a transaction spent, last spent first. *)
Fixpoint restoreInputs (spent : list (OutputReference * Coin)) (c : CoinsViewCache)
    : Result CoinsViewCache :=
  match spent with
  | [] => Ok c
  | (ref, coin) :: rest =>
      let* c' := restoreInputs rest c in
      addCoin c' ref coin false
  end.

Definition disconnectTx (u : TxUndo) (c : CoinsViewCache) : Result CoinsViewCache :=
  let* c' := removeOutputs (undo_created u) c in
  restoreInputs (undo_spent u) c'.

Fixpoint disconnectTxs (us : BlockUndo) (c : CoinsViewCache) : Result CoinsViewCache :=
  match us with
  | [] => Ok c
  | u :: rest =>
      let* c' := disconnectTxs rest c in
      disconnectTx u c'
  end.

(** Modelled from the spec: disconnecting a block from its undo log (section
    4.5, step 4), the transactions in reverse order, for each its outputs
    deleted and the coins it spent resurrected. *)
Definition disconnectBlock (c : CoinsViewCache) (us : BlockUndo)
    : Result unit * CoinsViewCache :=
  match disconnectTxs us c with
  | Ok c' => (Ok tt, c')
  | Err r => (Err r, c)
  end.

(** All the references the inputs of a block name, in block order. *)
Definition blockInputs (b : Block) : list OutputReference :=
  concat (List.map (fun tx => List.map prevout (inputs tx)) (txs b)).

(** All the references the outputs of a block create, in block order. *)
Definition txOutputRefs (tx : Transaction) : list OutputReference :=
  List.map (fun i => (txid tx, i)) (seq 0 (List.length (outputs tx))).

Definition blockOutputs (b : Block) : list OutputReference :=
  concat (List.map txOutputRefs (txs b)).

(** A transaction creates its outputs where no coin is: once its inputs
    are spent, none of its output references holds an unspent coin. *)
Definition txCreatesNew (P : ConsensusParams) (height : nat) (tx : Transaction)
    (c : CoinsViewCache) (seen : gset OutputReference) : bool :=
  match spendInputs P height (inputs tx) c seen with
  | Ok (c1, _, _) =>
      forallb (fun ref => bool_decide (getCoin c1 ref = None)) (txOutputRefs tx)
  | Err _ => true
  end.

Fixpoint txsCreateNew (P : ConsensusParams) (height : nat) (l : list Transaction)
    (c : CoinsViewCache) (seen : gset OutputReference) : bool :=
  match l with
  | [] => true
  | tx :: rest =>
      txCreatesNew P height tx c seen
      && match connectTx P height tx c seen with
         | Ok (c1, seen1, _) => txsCreateNew P height rest c1 seen1
         | Err _ => true
         end
  end.

(** Connecting [b] to [c] overwrites no unspent coin: every output is
    created at a reference that holds no coin when the output is created. *)
Definition createsNew (P : ConsensusParams) (c : CoinsViewCache) (b : Block) (height : nat)
    : bool :=
  txsCreateNew P height (txs b) c ∅.

(** The effect of a transaction on the UTXO set as a mapping: the coins at
    its inputs deleted, then its outputs put at their references. *)
Fixpoint spendAll (ins : list TxIn) (U : gmap OutputReference Coin)
    : gmap OutputReference Coin :=
  match ins with
  | [] => U
  | i :: rest => spendAll rest (delete (prevout i) U)
  end.

Fixpoint createAll (height : nat) (id : Hash) (reward : bool) (idx : nat) (outs : list TxOut)
    (U : gmap OutputReference Coin) : gmap OutputReference Coin :=
  match outs with
  | [] => U
  | o :: rest =>
      createAll height id reward (S idx) rest (<[(id, idx) := newCoin height o reward]> U)
  end.

Definition applyTx (height : nat) (tx : Transaction) (U : gmap OutputReference Coin)
    : gmap OutputReference Coin :=
  createAll height (txid tx) (isReward tx) 0 (outputs tx) (spendAll (inputs tx) U).

Fixpoint applyTxs (height : nat) (l : list Transaction) (U : gmap OutputReference Coin)
    : gmap OutputReference Coin :=
  match l with
  | [] => U
  | tx :: rest => applyTxs height rest (applyTx height tx U)
  end.






(** Value conservation along a block.  [U] is the UTXO set when the first
    transaction of [l] is reached.  For each transaction the undo record
    holds, input by input, the coin [U] held at the reference of the input,
    and with the inputs spent the set holds none of these coins; a
    transaction other than the reward creates no more value than these coins
    hold; and the next transaction meets the set with these coins deleted
    and the outputs created. *)
Fixpoint conserves (height : nat) (l : list Transaction) (us : BlockUndo)
    (U : gmap OutputReference Coin) : Prop :=
  match l, us with
  | [], [] => True
  | tx :: l', u :: us' =>
      Forall2 (fun i rc => rc.1 = prevout i /\ U !! prevout i = Some rc.2)
              (inputs tx) (undo_spent u)
      /\ (forall i, i ∈ inputs tx -> spendAll (inputs tx) U !! prevout i = None)
      /\ (isReward tx = false -> valueOut tx <= valueIn (undo_spent u))
      /\ conserves height l' us' (applyTx height tx U)
  | _, _ => False
  end.

(** Modelled from the spec: the context-free checks of section 4.4, on the
    block alone. *)
Definition checkBlock (P : ConsensusParams) (b : Block) : Result unit :=
  match txs b with
  | [] => Err Malformed
  | first :: others =>
      if (maxBlockTxs P <? List.length (txs b))%nat then Err ResourceExhausted
      else if negb (isReward first) || existsb isReward others then Err Malformed
      else if negb (hdr_commitment (header b) =? commit P (txs b))%N then Err Malformed
      else if negb (checkProof P (header b)) then Err ConsensusViolation
      else if negb (bool_decide (NoDup (blockInputs b))) then Err ConsensusViolation
      else if existsb (fun tx => existsb (fun o => out_value o <? 0) (outputs tx)) (txs b)
      then Err Malformed
      else Ok tt
  end.

(** The structural checks of [checkBlock], which come before the test for
    an output reference named by two inputs: the block is not empty and
    within the limit, the reward transaction is first and the only one, the
    commitment matches. *)
Definition wellFormed (P : ConsensusParams) (b : Block) : bool :=
  match txs b with
  | [] => false
  | first :: others =>
      negb (maxBlockTxs P <? List.length (txs b))%nat
      && isReward first && negb (existsb isReward others)
      && (hdr_commitment (header b) =? commit P (txs b))%N
  end.

(** [undoes f c c']: from any consistent cache standing for the UTXO set of
    [c'], the step [f] succeeds and gives a consistent cache standing for the
    UTXO set of [c], over the same parent and best block. *)
Definition undoes (f : CoinsViewCache -> Result CoinsViewCache) (c c' : CoinsViewCache) : Prop :=
  forall d, cache_wf d -> utxo d = utxo c' ->
    exists d', f d = Ok d' /\ utxo d' = utxo c /\ cache_wf d'
      /\ hashBlock d' = hashBlock d /\ parent d' = parent d.

(** Two consistent caches that stand for the same UTXO set. *)
Definition sameView (c1 c2 : CoinsViewCache) : Prop :=
  cache_wf c1 /\ cache_wf c2 /\ utxo c1 = utxo c2.

(** Two results that fail alike or succeed with related values. *)
Definition relResult {A : Type} (R : A -> A -> Prop) (x y : Result A) : Prop :=
  match x, y with
  | Ok a, Ok b => R a b
  | Err r1, Err r2 => r1 = r2
  | _, _ => False
  end.

(** [c'] is a consistent cache over the parent and best block of [c]. *)
Definition sameBase (c c' : CoinsViewCache) : Prop :=
  cache_wf c' /\ hashBlock c' = hashBlock c /\ parent c' = parent c.

End Validation.

(** ** The block index: the tree of known headers *)
Module BlockIndex.
Import Coins Validation.

Inductive Validity :=
  | Unknown
  | HeaderValid
  | TreeValid
  | ScriptsValid
  | Invalid
  | InvalidAncestor.

(** Modelled from the spec: the BlockIndexNode of section 3, a header with
    the cumulative work, the height, the validity status and the reference
    to the parent ([None] for the genesis block), a hash looked up in the
    arena. *)
Record BlockIndexNode := {
  node_header : Header;
  node_parent : option Hash;
  node_height : nat;
  node_work : Z;
  node_status : Validity
}.

Definition node_hash (n : BlockIndexNode) : Hash := hdr_hash (node_header n).

(** The arena of nodes, in the order the headers were first seen. *)
Abbreviation BlockIndex := (list BlockIndexNode) (only parsing).

Definition lookupNode (idx : BlockIndex) (h : Hash) : option BlockIndexNode :=
  List.find (fun n => (node_hash n =? h)%N) idx.

Definition setStatus (n : BlockIndexNode) (st : Validity) : BlockIndexNode :=
  {| node_header := node_header n; node_parent := node_parent n;
     node_height := node_height n; node_work := node_work n; node_status := st |}.

Definition isFailed (st : Validity) : bool :=
  match st with
  | Invalid | InvalidAncestor => true
  | _ => false
  end.

(** At least TreeValid and neither Invalid nor InvalidAncestor. *)
Definition isCandidate (st : Validity) : bool :=
  match st with
  | TreeValid | ScriptsValid => true
  | _ => false
  end.

(** Modelled from the spec: [addHeader] of section 4.3.  The first header
    is the genesis block; any other needs its parent in the index, and its
    cumulative work is the parent's plus the work of its own target.  A
    header already known gives its node back; a header on a failed parent is
    recorded as InvalidAncestor. *)
Definition addHeader (P : ConsensusParams) (idx : BlockIndex) (hdr : Header)
    : BlockIndex * option BlockIndexNode :=
  match lookupNode idx (hdr_hash hdr) with
  | Some n => (idx, Some n)
  | None =>
      match idx with
      | [] =>
          let n := {| node_header := hdr; node_parent := None; node_height := 0;
                      node_work := workOf P (hdr_target hdr); node_status := HeaderValid |} in
          ([n], Some n)
      | _ =>
          match lookupNode idx (hdr_prev hdr) with
          | None => (idx, None)
          | Some p =>
              let n := {| node_header := hdr; node_parent := Some (node_hash p);
                          node_height := S (node_height p);
                          node_work := node_work p + workOf P (hdr_target hdr);
                          node_status := if isFailed (node_status p) then InvalidAncestor
                                         else HeaderValid |} in
              (idx ++ [n], Some n)
          end
      end
  end.

(** Recording the validity a node has reached; a failed node stays failed,
    and failure is recorded by [markInvalid] only. *)
Definition raiseNode (h : Hash) (st : Validity) (n : BlockIndexNode) : BlockIndexNode :=
  if (node_hash n =? h)%N && negb (isFailed (node_status n)) && negb (isFailed st)
  then setStatus n st else n.

Definition raiseValidity (idx : BlockIndex) (h : Hash) (st : Validity) : BlockIndex :=
  List.map (raiseNode h st) idx.

Definition better (best : option BlockIndexNode) (n : BlockIndexNode) : option BlockIndexNode :=
  if isCandidate (node_status n) then
    match best with
    | None => Some n
    | Some b => if node_work b <? node_work n then Some n else Some b
    end
  else best.

(** Modelled from the spec: [findBestCandidate] of section 4.3, the
    candidate of greatest cumulative work, the first seen among equals. *)
Definition findBestCandidate (idx : BlockIndex) : option BlockIndexNode :=
  fold_left better idx None.

(** The walk along the parent references from [h]: is [a] met within [fuel]
    steps? *)
Fixpoint hasAncestor (fuel : nat) (idx : BlockIndex) (a h : Hash) : bool :=
  match fuel with
  | O => false
  | S fuel' =>
      match lookupNode idx h with
      | Some n =>
          match node_parent n with
          | Some p => (p =? a)%N || hasAncestor fuel' idx a p
          | None => false
          end
      | None => false
      end
  end.

Definition invalidateNode (idx : BlockIndex) (h : Hash) (n : BlockIndexNode) : BlockIndexNode :=
  if (node_hash n =? h)%N then setStatus n Invalid
  else if hasAncestor (List.length idx) idx h (node_hash n)
       then setStatus n InvalidAncestor
       else n.

Definition invalidate (idx : BlockIndex) (h : Hash) : BlockIndex :=
  List.map (invalidateNode idx h) idx.

(** Modelled from the spec: marking a node Invalid (section 4.3): the node
    becomes Invalid, every node that reaches it along the parent references
    becomes InvalidAncestor, and the best candidate is computed again. *)
Definition markInvalid (idx : BlockIndex) (h : Hash) : BlockIndex * option BlockIndexNode :=
  let idx' := invalidate idx h in
  (idx', findBestCandidate idx').

(** What a best candidate is: [None] when the index has no candidate, else
    a candidate of the index that no candidate exceeds in cumulative work and
    that no candidate seen before it equals. *)
Definition isBest (idx : BlockIndex) (r : option BlockIndexNode) : Prop :=
  match r with
  | None => forall i m, idx !! i = Some m -> isCandidate (node_status m) = false
  | Some b =>
      exists i, idx !! i = Some b /\ isCandidate (node_status b) = true
        /\ forall j m, idx !! j = Some m -> isCandidate (node_status m) = true ->
             node_work m <= node_work b /\ ((j < i)%nat -> node_work m < node_work b)
  end.

(** [descends idx a d]: [d] is a proper descendant of [a] in the tree. *)
Inductive descends (idx : BlockIndex) (a : Hash) : Hash -> Prop :=
  | descends_child d n :
      lookupNode idx d = Some n -> node_parent n = Some a -> descends idx a d
  | descends_step d n p :
      lookupNode idx d = Some n -> node_parent n = Some p -> descends idx a p ->
      descends idx a d.

(** The shape every index built by [addHeader] has: hashes are unique, and
    the parent of a node stands earlier in the arena, one lower. *)
Definition index_wf (idx : BlockIndex) : Prop :=
  (forall i j n m, idx !! i = Some n -> idx !! j = Some m ->
     node_hash n = node_hash m -> i = j)
  /\ (forall i n p, idx !! i = Some n -> node_parent n = Some p ->
        exists j m, (j < i)%nat /\ idx !! j = Some m /\ node_hash m = p
                    /\ node_height n = S (node_height m)).

(** A map over the arena that changes statuses only. *)
Definition keepsShape (f : BlockIndexNode -> BlockIndexNode) : Prop :=
  forall n, node_hash (f n) = node_hash n /\ node_parent (f n) = node_parent n
            /\ node_height (f n) = node_height n /\ node_work (f n) = node_work n.

(** Failure is closed under descent: the child of a failed node is
    failed. *)
Definition failed_closed (idx : BlockIndex) : Prop :=
  forall d n p np, lookupNode idx d = Some n -> node_parent n = Some p ->
    lookupNode idx p = Some np -> isFailed (node_status np) = true ->
    isFailed (node_status n) = true.

Definition index_inv (idx : BlockIndex) : Prop := index_wf idx /\ failed_closed idx.

(** The tree has one root: the node without a parent is the first of the
    arena, at height 0. *)
Definition index_rooted (idx : BlockIndex) : Prop :=
  forall i n, idx !! i = Some n -> node_parent n = None -> i = 0%nat /\ node_height n = 0%nat.

(** [upto idx a d]: [a] is [d] or an ancestor of [d]. *)
Definition upto (idx : BlockIndex) (a d : Hash) : Prop := a = d \/ descends idx a d.

(** The nodes that are not failed. *)
Definition liveCount (idx : BlockIndex) : nat :=
  List.length (List.filter (fun n => negb (isFailed (node_status n))) idx).

(** The operations on the index, as steps. *)
Inductive index_step (P : ConsensusParams) (idx : BlockIndex) : BlockIndex -> Prop :=
  | step_addHeader hdr : index_step P idx (addHeader P idx hdr).1
  | step_raiseValidity h st : index_step P idx (raiseValidity idx h st)
  | step_markInvalid h : index_step P idx (markInvalid idx h).1.

Inductive index_steps (P : ConsensusParams) (idx : BlockIndex) : BlockIndex -> Prop :=
  | steps_refl : index_steps P idx idx
  | steps_step idx1 idx2 :
      index_steps P idx idx1 -> index_step P idx1 idx2 -> index_steps P idx idx2.

End BlockIndex.

(** ** The chainstate manager: activating the best chain *)
Module Chainstate.
Import Coins Validation BlockIndex.

(** The events sent to the notification sink of section 6. *)
Inductive Notification :=
  | BlockConnected (h : Hash)
  | BlockDisconnected (h : Hash)
  | TipChanged (h : Hash).

(** Modelled from the spec: the manager object of sections 4.5 and 9, with
    the arena of the block index, the block bodies and undo logs by block
    hash, the active UTXO set, the hash of the active tip and the
    notifications emitted so far, oldest first. *)
Record Manager := {
  mgr_index : BlockIndex;
  mgr_bodies : gmap Hash Block;
  mgr_undos : gmap Hash BlockUndo;
  mgr_coins : CoinsViewCache;
  mgr_tip : Hash;
  mgr_events : list Notification
}.

(** The cumulative work of the active tip. *)
Definition chainWork (m : Manager) : Z :=
  match lookupNode (mgr_index m) (mgr_tip m) with
  | Some n => node_work n
  | None => 0
  end.

(** Rejections that mark a block invalid, as opposed to the errors that halt
    (section 7). *)
Definition isRejection (r : RejectReason) : bool :=
  match r with
  | Malformed | ConsensusViolation | ResourceExhausted => true
  | IoError | InternalInvariant => false
  end.

(** Step 4 for one block: undo the UTXO effects of the tip with its undo
    log, move the tip to the parent, notify. *)
Definition disconnectTip (m : Manager) : Result Manager :=
  match lookupNode (mgr_index m) (mgr_tip m) with
  | Some n =>
      match node_parent n, mgr_undos m !! mgr_tip m with
      | Some p, Some us =>
          match disconnectBlock (mgr_coins m) us with
          | (Ok _, c') =>
              Ok {| mgr_index := mgr_index m; mgr_bodies := mgr_bodies m;
                    mgr_undos := mgr_undos m; mgr_coins := setBestBlock c' p;
                    mgr_tip := p;
                    mgr_events := mgr_events m ++ [BlockDisconnected (mgr_tip m); TipChanged p] |}
          | (Err r, _) => Err r
          end
      | _, _ => Err InternalInvariant
      end
  | None => Err InternalInvariant
  end.

Fixpoint disconnectTo (fuel : nat) (fork : Hash) (m : Manager) : Result Manager :=
  if (mgr_tip m =? fork)%N then Ok m
  else
    match fuel with
    | O => Err InternalInvariant
    | S fuel' =>
        let* m' := disconnectTip m in
        disconnectTo fuel' fork m'
    end.

Inductive ConnectResult :=
  | Connected (m : Manager)
  | Rejected (m : Manager)
  | Halted (r : RejectReason) (m : Manager).

(** Step 5 for one block: full contextual validation of the block on top of
    the tip.  Success records the undo log, marks the node ScriptsValid,
    moves the tip and notifies; a rejection marks the node Invalid and its
    descendants InvalidAncestor and leaves the UTXO set as it was. *)
Definition connectTip (P : ConsensusParams) (h : Hash) (m : Manager) : ConnectResult :=
  match lookupNode (mgr_index m) h, mgr_bodies m !! h with
  | Some n, Some b =>
      if negb (bool_decide (node_parent n = Some (mgr_tip m))) || isFailed (node_status n)
      then Halted InternalInvariant m
      else
        match connectBlock P (mgr_coins m) b (node_height n) with
        | (Ok us, c') =>
            Connected
              {| mgr_index := raiseValidity (mgr_index m) h ScriptsValid;
                 mgr_bodies := mgr_bodies m;
                 mgr_undos := <[h := us]> (mgr_undos m);
                 mgr_coins := setBestBlock c' h;
                 mgr_tip := h;
                 mgr_events := mgr_events m ++ [BlockConnected h; TipChanged h] |}
        | (Err r, _) =>
            if isRejection r
            then Rejected
                   {| mgr_index := (markInvalid (mgr_index m) h).1;
                      mgr_bodies := mgr_bodies m; mgr_undos := mgr_undos m;
                      mgr_coins := mgr_coins m; mgr_tip := mgr_tip m;
                      mgr_events := mgr_events m |}
            else Halted r m
        end
  | _, _ => Halted InternalInvariant m
  end.

Fixpoint connectPath (P : ConsensusParams) (path : list Hash) (m : Manager) : ConnectResult :=
  match path with
  | [] => Connected m
  | h :: rest =>
      match connectTip P h m with
      | Connected m' => connectPath P rest m'
      | other => other
      end
  end.

(** Step 3: the lowest common ancestor of two nodes, walking the higher one
    up, then both. *)
Fixpoint findFork (fuel : nat) (idx : BlockIndex) (a b : Hash) : option Hash :=
  match fuel with
  | O => None
  | S fuel' =>
      if (a =? b)%N then Some a
      else
        match lookupNode idx a, lookupNode idx b with
        | Some na, Some nb =>
            if (node_height nb <? node_height na)%nat then
              match node_parent na with
              | Some pa => findFork fuel' idx pa b
              | None => None
              end
            else if (node_height na <? node_height nb)%nat then
              match node_parent nb with
              | Some pb => findFork fuel' idx a pb
              | None => None
              end
            else
              match node_parent na, node_parent nb with
              | Some pa, Some pb => findFork fuel' idx pa pb
              | _, _ => None
              end
        | _, _ => None
        end
  end.

(** The blocks from the fork point (not included) up to [h], in forward
    order. *)
Fixpoint pathUp (fuel : nat) (idx : BlockIndex) (fork h : Hash) (acc : list Hash)
    : option (list Hash) :=
  match fuel with
  | O => None
  | S fuel' =>
      if (h =? fork)%N then Some acc
      else
        match lookupNode idx h with
        | Some n =>
            match node_parent n with
            | Some p => pathUp fuel' idx fork p (h :: acc)
            | None => None
            end
        | None => None
        end
  end.

Inductive StepResult :=
  | Settled (m : Manager)
  | Switched (m : Manager)
  | Retry (m : Manager)
  | Failed (r : RejectReason) (m : Manager).

(** Steps 1 to 5, once: the best candidate, the fork point, the disconnects
    down to it and the connects up to the candidate. *)
Definition activateStep (P : ConsensusParams) (m : Manager) : StepResult :=
  match findBestCandidate (mgr_index m) with
  | None => Settled m
  | Some c =>
      if (node_hash c =? mgr_tip m)%N then Settled m
      else
        let idx := mgr_index m in
        match findFork (S (2 * List.length idx)) idx (mgr_tip m) (node_hash c) with
        | None => Failed InternalInvariant m
        | Some fork =>
            match disconnectTo (List.length idx) fork m with
            | Err r => Failed r m
            | Ok m1 =>
                match pathUp (S (List.length idx)) idx fork (node_hash c) [] with
                | None => Failed InternalInvariant m1
                | Some path =>
                    match connectPath P path m1 with
                    | Connected m2 => Switched m2
                    | Rejected m2 => Retry m2
                    | Halted r m2 => Failed r m2
                    end
                end
            end
        end
  end.

(** The loop of the algorithm: after an abandoned switch the best candidate
    is computed again.  Every abandoned switch marks one more node invalid,
    so the loop runs at most once more than the index has nodes.  The
    boolean tells whether the tip was switched to a candidate. *)
Fixpoint activateLoop (P : ConsensusParams) (fuel : nat) (m : Manager)
    : Result bool * Manager :=
  match fuel with
  | O => (Err InternalInvariant, m)
  | S fuel' =>
      match activateStep P m with
      | Settled m' => (Ok false, m')
      | Switched m' => (Ok true, m')
      | Retry m' => activateLoop P fuel' m'
      | Failed r m' => (Err r, m')
      end
  end.

Definition withCoinsOf (m : Manager) (c : CoinsViewCache) : Manager :=
  {| mgr_index := mgr_index m; mgr_bodies := mgr_bodies m; mgr_undos := mgr_undos m;
     mgr_coins := c; mgr_tip := mgr_tip m; mgr_events := mgr_events m |}.

(** Modelled from the spec: [activateBestChain] of section 4.5.  A switch
    that went through is followed by the flush of the UTXO set (step 6),
    whose outcome [device_ok] the device decides; an IoError of the flush
    is reported and leaves the cache unflushed. *)
Definition activateBestChain (P : ConsensusParams) (device_ok : bool) (m : Manager)
    : Result unit * Manager :=
  match activateLoop P (S (List.length (mgr_index m))) m with
  | (Ok true, m') =>
      let (r, c') := flush device_ok (mgr_coins m') in
      (r, withCoinsOf m' c')
  | (Ok false, m') => (Ok tt, m')
  | (Err r, m') => (Err r, m')
  end.

(** A block arrives: context-free checks, the header into the index, the
    body into the store, the node TreeValid.  A block known to be invalid is
    rejected again without validation; a block already known is left as it
    is. *)
Definition acceptBlock (P : ConsensusParams) (b : Block) (m : Manager) : Result Manager :=
  let h := hdr_hash (header b) in
  match lookupNode (mgr_index m) h with
  | Some n => if isFailed (node_status n) then Err ConsensusViolation else Ok m
  | None =>
      let* _ := checkBlock P b in
      match addHeader P (mgr_index m) (header b) with
      | (idx', Some n) =>
          if isFailed (node_status n) then Err ConsensusViolation
          else
            Ok {| mgr_index := raiseValidity idx' h TreeValid;
                  mgr_bodies := <[h := b]> (mgr_bodies m);
                  mgr_undos := mgr_undos m; mgr_coins := mgr_coins m;
                  mgr_tip := mgr_tip m; mgr_events := mgr_events m |}
      | (_, None) => Err Malformed
      end
  end.

(** Modelled from the spec: [submitBlock] of section 6. *)
Definition submitBlock (P : ConsensusParams) (device_ok : bool) (b : Block) (m : Manager)
    : Result unit * Manager :=
  match acceptBlock P b m with
  | Ok m' => activateBestChain P device_ok m'
  | Err r => (Err r, m)
  end.

(** The manager started on a genesis block, connected to the empty store. *)
Definition initManager (P : ConsensusParams) (genesis : Block) : Result Manager :=
  let h := hdr_hash (header genesis) in
  let store := {| store_coins := ∅; store_best := h |} in
  match connectBlock P (newCache store) genesis 0 with
  | (Ok us, c') =>
      Ok {| mgr_index := raiseValidity (addHeader P [] (header genesis)).1 h ScriptsValid;
            mgr_bodies := {[h := genesis]};
            mgr_undos := {[h := us]};
            mgr_coins := setBestBlock c' h;
            mgr_tip := h;
            mgr_events := [] |}
  | (Err r, _) => Err r
  end.


(** The blocks a node is expected to receive: a block that creates its
    outputs at references of its own, none twice and none that a block of
    its own branch creates, its parent or an ancestor of its parent.  Blocks
    of competing branches may hold the same transactions. *)
Definition distinctOutputs (m : Manager) (b : Block) : Prop :=
  NoDup (blockOutputs b)
  /\ forall k bk ref, upto (mgr_index m) k (hdr_prev (header b)) ->
       mgr_bodies m !! k = Some bk -> ref ∈ blockOutputs b -> ref ∉ blockOutputs bk.

(** [distinctOutputs], computed: the stored blocks of the branch are found
    by the walk along the parent references. *)
Definition distinctOutputsb (m : Manager) (b : Block) : bool :=
  let idx := mgr_index m in
  let prev := hdr_prev (header b) in
  bool_decide (NoDup (blockOutputs b))
  && forallb (fun kb : Hash * Block =>
                negb ((kb.1 =? prev)%N || hasAncestor (List.length idx) idx kb.1 prev)
                || forallb (fun ref => negb (bool_decide (ref ∈ blockOutputs kb.2)))
                           (blockOutputs b))
             (map_to_list (mgr_bodies m)).

(** The states a manager goes through when every block it receives creates
    its outputs at references that no block of its branch creates, whatever
    the activations return. *)
Inductive reachableDistinct (P : ConsensusParams) : Manager -> Prop :=
  | distinct_init genesis m :
      NoDup (blockOutputs genesis) -> initManager P genesis = Ok m ->
      reachableDistinct P m
  | distinct_accept b m m' :
      reachableDistinct P m -> distinctOutputs m b -> acceptBlock P b m = Ok m' ->
      reachableDistinct P m'
  | distinct_activate device_ok m r m' :
      reachableDistinct P m -> activateBestChain P device_ok m = (r, m') ->
      reachableDistinct P m'.

(** Every coin of the UTXO set [Un] as of block [h] was created by a stored
    block of the branch of [h]: by [h] or by an ancestor of [h]. *)
Definition coinsFrom (m : Manager) (h : Hash) (Un : gmap OutputReference Coin) : Prop :=
  forall ref, is_Some (Un !! ref) ->
    exists k bk, upto (mgr_index m) k h /\ mgr_bodies m !! k = Some bk
      /\ ref ∈ blockOutputs bk.

(** The record of how each ScriptsValid block was connected.  [U h] is the
    UTXO set as of block [h], and its coins come from the blocks of the
    branch of [h].  A ScriptsValid node other than the genesis block has a
    ScriptsValid parent, its body and undo log are stored, and connecting
    the body to the UTXO set of the parent overwrote no coin and gave that
    undo log and the UTXO set of the node. *)
Definition connected (P : ConsensusParams) (m : Manager)
    (U : Hash -> option (gmap OutputReference Coin)) : Prop :=
  forall h n, lookupNode (mgr_index m) h = Some n -> node_status n = ScriptsValid ->
    exists Un, U h = Some Un /\ coinsFrom m h Un
      /\ match node_parent n with
         | None => True
         | Some p =>
             exists np b us c0 c0',
               lookupNode (mgr_index m) p = Some np /\ node_status np = ScriptsValid
               /\ mgr_bodies m !! h = Some b /\ mgr_undos m !! h = Some us
               /\ cache_wf c0 /\ U p = Some (utxo c0)
               /\ createsNew P c0 b (node_height n) = true
               /\ connectBlock P c0 b (node_height n) = (Ok us, c0')
               /\ utxo c0' = Un
         end.

(** The stored blocks create their outputs at references of their own: no
    block creates a reference twice, and no block creates a reference that
    one of its ancestors creates. *)
Definition outputs_distinct (m : Manager) : Prop :=
  forall h b, mgr_bodies m !! h = Some b ->
    NoDup (blockOutputs b)
    /\ forall k bk ref, descends (mgr_index m) k h -> mgr_bodies m !! k = Some bk ->
         ref ∈ blockOutputs b -> ref ∉ blockOutputs bk.

(** The invariant of the manager: the index is well formed, the cache is
    consistent, the stored blocks create outputs of their own, the tip is a
    ScriptsValid node, and the UTXO set is the one as of the tip. *)
Definition manager_inv (P : ConsensusParams) (m : Manager) : Prop :=
  index_inv (mgr_index m) /\ cache_wf (mgr_coins m) /\ outputs_distinct m
  /\ exists U,
       (exists nt, lookupNode (mgr_index m) (mgr_tip m) = Some nt
                   /\ node_status nt = ScriptsValid)
       /\ U (mgr_tip m) = Some (utxo (mgr_coins m))
       /\ connected P m U.

(** From [m] to [m'] the ScriptsValid nodes stay ScriptsValid, and every
    node keeps its cumulative work. *)
Definition keepsValid (m m' : Manager) : Prop :=
  forall h n, lookupNode (mgr_index m) h = Some n ->
    exists n', lookupNode (mgr_index m') h = Some n' /\ node_work n' = node_work n
      /\ (node_status n = ScriptsValid -> node_status n' = ScriptsValid).

(** Every node of the index has its body in the store. *)
Definition bodies_known (m : Manager) : Prop :=
  forall h n, lookupNode (mgr_index m) h = Some n -> is_Some (mgr_bodies m !! h).

(** The invariant together with what progress needs: one root, and the
    bodies of all nodes. *)
Definition manager_live (P : ConsensusParams) (m : Manager) : Prop :=
  manager_inv P m /\ index_rooted (mgr_index m) /\ bodies_known m.

(** From [m] to [m'] the bodies are the same and the index changed in
    statuses only. *)
Definition sameTree (m m' : Manager) : Prop :=
  mgr_bodies m' = mgr_bodies m
  /\ exists f, keepsShape f /\ mgr_index m' = List.map f (mgr_index m).

(** [chain idx from path]: each block of [path] is a node that is not
    failed, the first a child of [from], each next a child of the one
    before. *)
Fixpoint chain (idx : BlockIndex) (from : Hash) (path : list Hash) : Prop :=
  match path with
  | [] => True
  | h :: rest =>
      (exists n, lookupNode idx h = Some n /\ node_parent n = Some from
                 /\ isFailed (node_status n) = false)
      /\ chain idx h rest
  end.

End Chainstate.

(** ** Concrete parameters, blocks and caches for the examples *)
Module Examples.
Import Coins Validation BlockIndex Chainstate.

(** A verifier that accepts an unlocking proof equal to the locking
    condition, a reward of 50 at every height, maturity after 2 blocks. *)
Definition exParams : ConsensusParams :=
  {| verify := fun lock unlock _ _ _ _ =>
                 if bool_decide (lock = unlock) then None else Some 1%N;
     flagsAt := fun _ => 0%N;
     subsidy := fun _ => 50;
     maturity := 2;
     workOf := fun target => target;
     commit := fun _ => 0%N;
     checkProof := fun _ => true;
     maxBlockTxs := 100 |}.

Definition exHeader (h prev : N) (work : Z) : Header :=
  {| hdr_hash := h; hdr_prev := prev; hdr_commitment := 0%N; hdr_time := 0;
     hdr_target := work; hdr_proof := 0 |}.

Definition exOut (v : Z) (lock : Script) : TxOut :=
  {| out_value := v; lockingCondition := lock |}.

Definition exIn (id : N) (i : nat) (proof : Script) : TxIn :=
  {| prevout := (id, i); unlockingProof := proof |}.

Definition exTx (id : N) (ins : list TxIn) (outs : list TxOut) : Transaction :=
  {| txid := id; inputs := ins; outputs := outs |}.

(** The scenario of section 8: B1 creates the coin C of value 50; B2 spends
    C and creates an output of value 49, a fee of 1. *)
Definition exB1 : Block :=
  {| header := exHeader 1 0 10; txs := [exTx 11 [] [exOut 50 [7]]] |}.

Definition exB2 : Block :=
  {| header := exHeader 2 1 10;
     txs := [exTx 20 [] []; exTx 21 [exIn 11 0 [7]] [exOut 49 [8]]] |}.

Definition exEmpty : CoinsViewCache :=
  newCache {| store_coins := ∅; store_best := 0%N |}.

Definition exAfterB1 : CoinsViewCache := (connectBlock exParams exEmpty exB1 1).2.




(** A store holding two coins, at (11, 0) and at (30, 0), and a block
    whose second transaction spends (11, 0) and creates (30, 0), where the
    store holds a coin, and whose third transaction spends (11, 0) again. *)
Definition exStore : Store :=
  {| store_coins :=
       <[(11%N, 0%nat) := {| coin_value := 50; coin_script := [7]; coin_height := 1%nat;
                             coin_isReward := false |}]>
       (<[(30%N, 0%nat) := {| coin_value := 5; coin_script := [9]; coin_height := 1%nat;
                              coin_isReward := false |}]> ∅);
     store_best := 1%N |}.

Definition exCollide : Block :=
  {| header := exHeader 3 1 10;
     txs := [exTx 31 [] [];
             exTx 30 [exIn 11 0 [7]] [exOut 40 [8]];
             exTx 32 [exIn 11 0 [7]] [exOut 1 [8]]] |}.

(** A block whose second transaction names (11, 0) twice. *)
Definition exTwice : Block :=
  {| header := exHeader 4 1 10;
     txs := [exTx 41 [] []; exTx 42 [exIn 11 0 [7]; exIn 11 0 [7]] [exOut 60 [8]]] |}.


(** The second scenario of section 8: on the genesis block, C1 and D1 of
    work 10 compete at height 1, and D2 of work 15 extends D1.  D2bad is D2
    with a reward above the schedule. *)
Definition exG : Block := {| header := exHeader 100 0 0; txs := [exTx 1000 [] []] |}.
Definition exC1 : Block := {| header := exHeader 101 100 10; txs := [exTx 1001 [] [exOut 50 [7]]] |}.
Definition exD1 : Block := {| header := exHeader 201 100 10; txs := [exTx 2001 [] [exOut 50 [7]]] |}.
Definition exD2 : Block := {| header := exHeader 202 201 15; txs := [exTx 2002 [] [exOut 50 [7]]] |}.
Definition exD2bad : Block :=
  {| header := exHeader 203 201 15; txs := [exTx 2003 [] [exOut 51 [7]]] |}.

Definition noManager : Manager :=
  {| mgr_index := []; mgr_bodies := ∅; mgr_undos := ∅; mgr_coins := exEmpty;
     mgr_tip := 0%N; mgr_events := [] |}.

Definition orElse {A : Type} (r : Result A) (d : A) : A :=
  match r with
  | Ok a => a
  | Err _ => d
  end.

(** The manager on the genesis block; then C1 submitted and active; then D1
    accepted; then D2, or D2bad, accepted and not yet activated. *)
Definition exM0 : Manager := orElse (initManager exParams exG) noManager.
Definition exM1 : Manager :=
  (activateBestChain exParams true (orElse (acceptBlock exParams exC1 exM0) noManager)).2.
Definition exM2 : Manager :=
  (activateBestChain exParams true (orElse (acceptBlock exParams exD1 exM1) noManager)).2.
Definition exM3 : Manager := orElse (acceptBlock exParams exD2 exM2) noManager.
Definition exM3bad : Manager := orElse (acceptBlock exParams exD2bad exM2) noManager.

(** A genesis block whose reward transaction has an output, and a block on
    it, of more work than C1, that repeats this reward transaction.  The
    manager on this genesis block; then C1 submitted, active and flushed;
    then the repeating block accepted and not yet activated. *)
Definition exGen : Block :=
  {| header := exHeader 100 0 0; txs := [exTx 1000 [] [exOut 50 [7]]] |}.
Definition exAgain : Block :=
  {| header := exHeader 301 100 15; txs := [exTx 1000 [] [exOut 50 [7]]] |}.
Definition exN0 : Manager := orElse (initManager exParams exGen) noManager.

(** The repeating block submitted to the manager on the genesis block,
    whose coin is still a fresh entry of the layer; then a block of more
    work on the genesis block submitted. *)
Definition exF1 : Block :=
  {| header := exHeader 401 100 20; txs := [exTx 4001 [] [exOut 50 [7]]] |}.
Definition exL1 : Manager :=
  (activateBestChain exParams true (orElse (acceptBlock exParams exAgain exN0) noManager)).2.
Definition exL2 : Manager :=
  (activateBestChain exParams true (orElse (acceptBlock exParams exF1 exL1) noManager)).2.

(** Two competing blocks that hold the same transaction.  C2 extends C1;
    C3 and E3, of more work, both extend C2, and both hold the transaction
    that spends the reward of C1.  The manager with C3 active, then E3
    accepted and not yet activated. *)
Definition exC2 : Block :=
  {| header := exHeader 102 101 10; txs := [exTx 1002 [] [exOut 50 [7]]] |}.
Definition exC3 : Block :=
  {| header := exHeader 103 102 10;
     txs := [exTx 1003 [] [exOut 50 [7]]; exTx 5000 [exIn 1001 0 [7]] [exOut 49 [8]]] |}.
Definition exE3 : Block :=
  {| header := exHeader 113 102 15;
     txs := [exTx 1013 [] [exOut 50 [7]]; exTx 5000 [exIn 1001 0 [7]] [exOut 49 [8]]] |}.
Definition exS1 : Manager :=
  (activateBestChain exParams true (orElse (acceptBlock exParams exC2 exM1) noManager)).2.
Definition exS2 : Manager :=
  (activateBestChain exParams true (orElse (acceptBlock exParams exC3 exS1) noManager)).2.
Definition exS3 : Manager := orElse (acceptBlock exParams exE3 exS2) noManager.

End Examples.

(** ** Facts about the Qt string operations *)
Module QtFacts.
Import Qt.

Lemma size_nonneg (s : QString) : 0 <= size s.
Proof. unfold size. lia. Qed.

Lemma size_app (s t : QString) : size (s ++ t) = size s + size t.
Proof. unfold size. rewrite List.length_app. lia. Qed.

Lemma size_cons (c : QChar) (s : QString) : size (c :: s) = 1 + size s.
Proof. unfold size. simpl List.length. lia. Qed.

Lemma size_replicate (n : nat) (c : QChar) : size (replicate n c) = Z.of_nat n.
Proof. unfold size. now rewrite length_replicate. Qed.

Lemma digitsValue_app (s t : QString) : forall acc,
  digitsValue acc (s ++ t) =
  match digitsValue acc s with Some v => digitsValue v t | None => None end.
Proof.
  induction s as [|c s IH]; intros acc; simpl; [reflexivity|].
  destruct (isDigit c); [apply IH | reflexivity].
Qed.

Lemma digitsValue_zeros (n : nat) : forall acc,
  digitsValue acc (replicate n ch_zero) = Some (acc * 10 ^ Z.of_nat n).
Proof.
  induction n as [|n IH]; intros acc.
  - simpl. f_equal. lia.
  - cbn [replicate digitsValue]. change (isDigit ch_zero) with true. cbv iota.
    rewrite IH. f_equal. rewrite Nat2Z.inj_succ, Z.pow_succ_r by lia.
    unfold ch_zero. lia.
Qed.

Lemma isDigit_digit (d : Z) : 0 <= d < 10 -> isDigit (ch_zero + d) = true.
Proof. intros H. unfold isDigit, ch_zero. lia. Qed.

(** What [digits_aux] computes: a block [D] of decimal digits put in front
    of the accumulator, of value [n], without a leading zero. *)
Lemma digits_aux_spec (fuel : nat) : forall n acc,
  0 <= n < 10 ^ Z.of_nat fuel -> (0 < fuel)%nat ->
  exists D, digits_aux fuel n acc = D ++ acc
    /\ Forall (fun c => isDigit c = true) D
    /\ (forall a, digitsValue a D = Some (a * 10 ^ size D + n))
    /\ 1 <= size D <= Z.of_nat fuel
    /\ (size D = 1 \/ 10 ^ (size D - 1) <= n).
Proof.
  induction fuel as [|fuel IH]; intros n acc Hn Hf; [lia|].
  cbn [digits_aux].
  assert (Hm : 0 <= n mod 10 < 10) by (apply Z.mod_pos_bound; lia).
  destruct (Z.eqb_spec (n / 10) 0) as [Hq|Hq].
  - exists [ch_zero + n mod 10]. split; [reflexivity|].
    split; [constructor; [now apply isDigit_digit | constructor]|].
    split.
    + intros a. cbn [digitsValue]. rewrite isDigit_digit by assumption.
      f_equal. change (size [ch_zero + n mod 10]) with 1.
      pose proof (Z.div_mod n 10). lia.
    + change (size [ch_zero + n mod 10]) with 1. lia.
  - assert (Hq' : 0 < n / 10).
    { assert (0 <= n / 10) by (apply Z.div_pos; lia). lia. }
    assert (Hlt : n / 10 < 10 ^ Z.of_nat fuel).
    { apply Z.div_lt_upper_bound; [lia|].
      rewrite Nat2Z.inj_succ, Z.pow_succ_r in Hn by lia. lia. }
    assert (Hfuel : (0 < fuel)%nat).
    { destruct fuel; [simpl in Hlt; lia | lia]. }
    destruct (IH (n / 10) ((ch_zero + n mod 10) :: acc) ltac:(lia) Hfuel)
      as (D & HD & Hdig & Hval & Hsz & Hlow).
    exists (D ++ [ch_zero + n mod 10]). split.
    { rewrite HD. now rewrite <- List.app_assoc. }
    split.
    { apply Forall_app. split; [assumption|].
      constructor; [now apply isDigit_digit | constructor]. }
    assert (Hs : size (D ++ [ch_zero + n mod 10]) = size D + 1).
    { rewrite size_app. reflexivity. }
    split.
    { intros a. rewrite digitsValue_app, Hval. cbn [digitsValue].
      rewrite isDigit_digit by assumption. f_equal. rewrite Hs.
      rewrite Z.pow_add_r by lia. pose proof (Z.div_mod n 10). lia. }
    split; [rewrite Hs; lia|].
    right. rewrite Hs. replace (size D + 1 - 1) with (Z.succ (size D - 1)) by lia.
    rewrite Z.pow_succ_r by lia.
    pose proof (Z.div_mod n 10).
    destruct Hlow as [H1|Hlow]; [rewrite H1; simpl; lia | lia].
Qed.

Lemma digits_spec (n : Z) : 0 <= n < 10 ^ 19 ->
  Forall (fun c => isDigit c = true) (digits n)
  /\ (forall a, digitsValue a (digits n) = Some (a * 10 ^ size (digits n) + n))
  /\ 1 <= size (digits n)
  /\ (size (digits n) = 1 \/ 10 ^ (size (digits n) - 1) <= n).
Proof.
  intros Hn. unfold digits.
  destruct (digits_aux_spec 19 n [] Hn ltac:(lia)) as (D & HD & H1 & H2 & H3 & H4).
  rewrite HD, List.app_nil_r. repeat split; try assumption; lia.
Qed.

Lemma number_nonneg (n : Z) : 0 <= n -> number n = digits n.
Proof. intros H. unfold number. destruct (Z.ltb_spec n 0); [lia | reflexivity]. Qed.

(** A bound on the number of digits from a bound on the number. *)
Lemma digits_size_le (n k : Z) :
  0 <= n < 10 ^ 19 -> 1 <= k -> n < 10 ^ k -> size (digits n) <= k.
Proof.
  intros Hn Hk Hlt. destruct (digits_spec n Hn) as (_ & _ & H1 & [H2|H2]); [lia|].
  destruct (Z_le_gt_dec (size (digits n)) k) as [|Hgt]; [assumption|exfalso].
  assert (10 ^ k <= 10 ^ (size (digits n) - 1)) by (apply Z.pow_le_mono_r; lia).
  lia.
Qed.

Lemma remove_app (c : QChar) (s t : QString) :
  remove c (s ++ t) = remove c s ++ remove c t.
Proof. unfold remove. apply List.filter_app. Qed.

Lemma remove_absent (c : QChar) (s : QString) :
  Forall (fun x => x <> c) s -> remove c s = s.
Proof.
  induction 1 as [|x s Hx _ IH]; [reflexivity|].
  unfold remove in *. simpl. destruct (Z.eqb_spec x c); [contradiction|].
  simpl. now rewrite IH.
Qed.

Lemma remove_replicate (c : QChar) (n : nat) : remove c (replicate n c) = [].
Proof.
  induction n as [|n IH]; [reflexivity|].
  unfold remove in *. simpl. now rewrite Z.eqb_refl.
Qed.

Lemma split_absent (sep : QChar) (s : QString) :
  Forall (fun x => x <> sep) s -> split sep s = [s].
Proof.
  induction 1 as [|x s Hx _ IH]; [reflexivity|].
  simpl. destruct (Z.eqb_spec x sep); [contradiction|]. now rewrite IH.
Qed.

Lemma split_one (sep : QChar) (s t : QString) :
  Forall (fun x => x <> sep) s -> Forall (fun x => x <> sep) t ->
  split sep (s ++ sep :: t) = [s; t].
Proof.
  intros Hs Ht. induction Hs as [|x s Hx _ IH].
  - simpl. rewrite Z.eqb_refl. now rewrite split_absent.
  - simpl. destruct (Z.eqb_spec x sep); [contradiction|]. now rewrite IH.
Qed.

(** The number of parts is one more than the number of separators. *)
Lemma split_length (sep : QChar) (s : QString) :
  List.length (split sep s) = S (List.length (List.filter (fun x => x =? sep) s)).
Proof.
  induction s as [|c s IH]; [reflexivity|].
  simpl. destruct (c =? sep); simpl.
  - now rewrite IH.
  - destruct (split sep s); simpl in *; lia.
Qed.

Lemma skipSpaces_head (c : QChar) (s : QString) :
  isSpace c = false -> skipSpaces (c :: s) = c :: s.
Proof. intros H. simpl. now rewrite H. Qed.

(** A string that neither starts nor ends with white space is its own
    trimming. *)
Lemma trimmed_id (c e : QChar) (s t : QString) :
  isSpace c = false -> isSpace e = false -> c :: s = t ++ [e] ->
  trimmed (c :: s) = c :: s.
Proof.
  intros Hc He Heq. unfold trimmed. rewrite skipSpaces_head by assumption.
  rewrite Heq, List.rev_app_distr. simpl.
  rewrite He. simpl. now rewrite List.rev_involutive.
Qed.

Lemma isDigit_not_space (c : QChar) : isDigit c = true -> isSpace c = false.
Proof. unfold isDigit, isSpace. intros H. lia. Qed.

End QtFacts.

Module MytherraUnitsFacts.
Import Qt QtFacts MytherraUnits.

Example format_ex1 :
  format MYT 123456789012 false STANDARD false = qs "1234.56789012".
Proof. vm_compute. reflexivity. Qed.

Example format_ex2 :
  format MYT (-1234567890123) false STANDARD false
  = qs "-12" ++ [THIN_SP_CP] ++ qs "345.67890123".
Proof. vm_compute. reflexivity. Qed.

Example format_ex3 :
  format SAT 1234567 true ALWAYS false
  = qs "+1" ++ [THIN_SP_CP] ++ qs "234" ++ [THIN_SP_CP] ++ qs "567".
Proof. vm_compute. reflexivity. Qed.

Example format_ex4 : format uMYT (-5) false STANDARD false = qs "-0.05".
Proof. vm_compute. reflexivity. Qed.

Example parse_ex1 : parse MYT (qs "1 234.5") = (true, Some 123450000000).
Proof. vm_compute. reflexivity. Qed.

Example parse_ex2 : parse MYT (qs "1.2.3") = (false, None).
Proof. vm_compute. reflexivity. Qed.

Example parse_ex3 : parse MYT (qs "abc") = (false, Some 0).
Proof. vm_compute. reflexivity. Qed.


Lemma removeSpaces_app (s t : QString) :
  removeSpaces (s ++ t) = removeSpaces s ++ removeSpaces t.
Proof. unfold removeSpaces. now rewrite !remove_app. Qed.

Lemma removeSpaces_clean (s : QString) :
  Forall (fun x => x <> ch_space /\ x <> THIN_SP_CP) s -> removeSpaces s = s.
Proof.
  intros H. unfold removeSpaces.
  rewrite (remove_absent ch_space), (remove_absent THIN_SP_CP); try reflexivity.
  - eapply List.Forall_impl; [|exact H]. simpl. tauto.
  - eapply List.Forall_impl; [|exact H]. simpl. tauto.
Qed.

Lemma removeSpaces_digits (s : QString) :
  Forall (fun c => isDigit c = true) s -> removeSpaces s = s.
Proof.
  intros H. apply removeSpaces_clean. eapply List.Forall_impl; [|exact H].
  simpl. intros c Hc. unfold isDigit, ch_space, THIN_SP_CP in *. lia.
Qed.

Lemma removeSpaces_insert_thin (p : Z) (s : QString) :
  removeSpaces (insert p THIN_SP_CP s) = removeSpaces s.
Proof.
  unfold insert.
  destruct ((if p <? 0 then p + size s else p) <? 0); [reflexivity|].
  destruct (size s <? (if p <? 0 then p + size s else p)).
  - rewrite !removeSpaces_app. unfold removeSpaces at 2 3.
    rewrite remove_replicate. simpl. now rewrite List.app_nil_r.
  - set (i := Z.to_nat _). rewrite <- (take_drop i s) at 3.
    rewrite !removeSpaces_app. f_equal.
  Qed.

Lemma removeSpaces_insertSeparators (fuel : nat) : forall i q_size s,
  removeSpaces (insertSeparators fuel i q_size s) = removeSpaces s.
Proof.
  induction fuel as [|fuel IH]; intros i q_size s; [reflexivity|].
  simpl. destruct (i <? q_size); [|reflexivity].
  now rewrite IH, removeSpaces_insert_thin.
Qed.

Lemma insert_front (c : QChar) (s : QString) : insert 0 c s = c :: s.
Proof.
  unfold insert. simpl.
  destruct (Z.ltb_spec (size s) 0) as [H|H]; [pose proof (size_nonneg s); lia|].
  reflexivity.
Qed.

Lemma factor_pow (unit : Unit) : factor unit = 10 ^ decimals unit.
Proof. destruct unit; reflexivity. Qed.

Lemma decimals_range (unit : Unit) : 0 <= decimals unit <= 8.
Proof. destruct unit; simpl; lia. Qed.

(** What [parse] sees of a formatted amount once the separators are gone:
    the sign, the digits of the quotient and, for a unit with decimals, the
    dot and the zero-padded remainder. *)
Lemma removeSpaces_format (unit : Unit) (n : Z) :
  Z.abs n < 10 ^ 17 ->
  removeSpaces (format unit n false STANDARD false)
  = sign_str n ++ digits (Z.abs n / factor unit)
    ++ (if decimals unit >? 0
        then ch_dot :: rightJustified (decimals unit) ch_zero (digits (Z.abs n mod factor unit))
        else []).
Proof.
  intros Hn. unfold format.
  assert (Habs : (if n >? 0 then n else - n) = Z.abs n).
  { destruct (Z.gtb_spec n 0); lia. }
  rewrite Habs.
  assert (Hf : 0 < factor unit) by (destruct unit; simpl; lia).
  assert (Hq : 0 <= Z.abs n / factor unit < 10 ^ 19).
  { split; [apply Z.div_pos; lia|].
    apply Z.le_lt_trans with (Z.abs n); [|lia].
    apply Z.div_le_upper_bound; nia. }
  assert (Hr : 0 <= Z.abs n mod factor unit < 10 ^ 19).
  { pose proof (Z.mod_pos_bound (Z.abs n) (factor unit) Hf).
    pose proof (decimals_range unit). rewrite factor_pow in *.
    assert (10 ^ decimals unit <= 10 ^ 19) by (apply Z.pow_le_mono_r; lia). lia. }
  rewrite !number_nonneg by lia.
  destruct (digits_spec _ Hq) as (HDq & _).
  destruct (digits_spec _ Hr) as (HDr & _).
  set (D := digits (Z.abs n / factor unit)) in *.
  set (R := digits (Z.abs n mod factor unit)) in *.
  cbn [andb]. 
  set (Q := if _ || _ then _ else D).
  assert (HQ : removeSpaces Q = D).
  { subst Q. destruct (_ || _).
    - now rewrite removeSpaces_insertSeparators, removeSpaces_digits.
    - now apply removeSpaces_digits. }
  assert (HS : removeSpaces (if n <? 0 then insert 0 ch_minus Q else Q) = sign_str n ++ D).
  { unfold sign_str. destruct (n <? 0).
    - rewrite insert_front. change (ch_minus :: Q) with ([ch_minus] ++ Q).
      rewrite removeSpaces_app, HQ. reflexivity.
    - exact HQ. }
  destruct (decimals unit >? 0).
  - rewrite !removeSpaces_app, HS, <- List.app_assoc. f_equal. f_equal.
    change (qs ".") with [ch_dot].
    change (removeSpaces [ch_dot]) with [ch_dot]. simpl. f_equal.
    apply removeSpaces_digits. unfold rightJustified.
    apply Forall_app. split; [|assumption].
    apply Forall_forall. intros x Hx. apply elem_of_replicate in Hx.
    destruct Hx as [-> _]. reflexivity.
  - now rewrite HS, List.app_nil_r.
Qed.

(** The remainder, right-justified with zeros to the unit's decimals. *)
Lemma padded_spec (d r : Z) :
  1 <= d <= 18 -> 0 <= r < 10 ^ d ->
  let R := rightJustified d ch_zero (digits r) in
  Forall (fun c => isDigit c = true) R /\ size R = d
  /\ forall a, digitsValue a R = Some (a * 10 ^ d + r).
Proof.
  intros Hd Hr R.
  assert (Hr19 : 0 <= r < 10 ^ 19).
  { assert (10 ^ d <= 10 ^ 19) by (apply Z.pow_le_mono_r; lia). lia. }
  destruct (digits_spec r Hr19) as (Hdig & Hval & Hsz & _).
  pose proof (digits_size_le r d Hr19 ltac:(lia) ltac:(lia)) as Hle.
  subst R. unfold rightJustified. split; [|split].
  - apply Forall_app. split; [|assumption].
    apply Forall_forall. intros x Hx. apply elem_of_replicate in Hx.
    destruct Hx as [-> _]. reflexivity.
  - rewrite size_app, size_replicate. lia.
  - intros a. rewrite digitsValue_app, digitsValue_zeros, Hval. f_equal.
    rewrite Z2Nat.id by lia.
    replace (10 ^ d) with (10 ^ (d - size (digits r)) * 10 ^ size (digits r)).
    + lia.
    + rewrite <- Z.pow_add_r by lia. f_equal. lia.
Qed.

Lemma digits_not_dot (s : QString) :
  Forall (fun c => isDigit c = true) s -> Forall (fun x => x <> ch_dot) s.
Proof.
  intros H. eapply List.Forall_impl; [|exact H]. simpl.
  intros c Hc. unfold isDigit, ch_dot in *. lia.
Qed.

Lemma sign_digits_not_dot (n : Z) (s : QString) :
  Forall (fun c => isDigit c = true) s ->
  Forall (fun x => x <> ch_dot) (sign_str n ++ s).
Proof.
  intros H. apply Forall_app. split; [|now apply digits_not_dot].
  unfold sign_str. destruct (n <? 0); constructor; [discriminate | constructor].
Qed.

(** [toLongLong] on an optional minus sign followed by digits. *)
Lemma toLongLong_signed (n v : Z) (B : QString) :
  Forall (fun c => isDigit c = true) B -> 1 <= size B ->
  digitsValue 0 B = Some v -> 0 <= v <= INT64_MAX ->
  toLongLong (sign_str n ++ B) = ((if n <? 0 then - v else v), true).
Proof.
  intros Hdig Hsz Hval Hv.
  destruct (exists_last (l := B)) as (B' & e & HB).
  { intros ->. unfold size in Hsz. simpl in Hsz. lia. }
  assert (He : isDigit e = true).
  { rewrite HB in Hdig. apply Forall_app in Hdig as [_ Hdig]. now inversion Hdig. }
  destruct B as [|b B0]; [unfold size in Hsz; simpl in Hsz; lia|].
  assert (Hb : isDigit b = true) by now inversion Hdig.
  unfold toLongLong, sign_str. destruct (n <? 0).
  - cbn [List.app]. rewrite (trimmed_id ch_minus e _ (ch_minus :: B'));
      [| reflexivity | now apply isDigit_not_space | now rewrite HB].
    rewrite Z.eqb_refl. cbn [orb]. rewrite Hval.
    unfold INT64_MIN, INT64_MAX in *.
    destruct (Z.leb_spec (- 2 ^ 63) (- v)); [|lia].
    destruct (Z.leb_spec (- v) (2 ^ 63 - 1)); [|lia]. reflexivity.
  - cbn [List.app]. rewrite (trimmed_id b e _ B');
      [| now apply isDigit_not_space | now apply isDigit_not_space | assumption].
    assert ((b =? ch_minus) = false) as -> by (unfold isDigit, ch_minus in *; lia).
    assert ((b =? ch_minus_sign) = false) as ->
      by (unfold isDigit, ch_minus_sign in *; lia).
    assert ((b =? ch_plus) = false) as -> by (unfold isDigit, ch_plus in *; lia).
    cbn [orb].
    rewrite Hval. unfold INT64_MIN, INT64_MAX in *.
    destruct (Z.leb_spec (- 2 ^ 63) v); [|lia].
    destruct (Z.leb_spec v (2 ^ 63 - 1)); [|lia]. reflexivity.
Qed.

Lemma removeSpaces_nonempty (s : QString) : removeSpaces s <> [] -> isEmpty s = false.
Proof. destruct s; [intros H; now contradiction H | reflexivity]. Qed.

(** Formatting then parsing, for every amount below 10^17 in absolute
    value. *)
Lemma parse_format (unit : Unit) (n : Z) :
  Z.abs n < 10 ^ 17 ->
  parse unit (format unit n false STANDARD false) = (true, Some n).
Proof.
  intros Hn. unfold parse. rewrite (removeSpaces_format unit n Hn).
  assert (Hf : 0 < factor unit) by (destruct unit; simpl; lia).
  pose proof (decimals_range unit) as Hd.
  set (q := Z.abs n / factor unit). set (r := Z.abs n mod factor unit).
  assert (Hq : 0 <= q < 10 ^ 19).
  { split; [apply Z.div_pos; lia|].
    apply Z.le_lt_trans with (Z.abs n); [|lia].
    apply Z.div_le_upper_bound; nia. }
  assert (Hqd : q < 10 ^ (17 - decimals unit)).
  { apply Z.div_lt_upper_bound; [lia|]. rewrite factor_pow, <- Z.pow_add_r by lia.
    replace (decimals unit + (17 - decimals unit)) with 17 by lia. lia. }
  assert (Hr : 0 <= r < 10 ^ decimals unit).
  { rewrite <- factor_pow. apply Z.mod_pos_bound. lia. }
  assert (Hqr : q * 10 ^ decimals unit + r = Z.abs n).
  { rewrite <- factor_pow. pose proof (Z.div_mod (Z.abs n) (factor unit)). subst q r. lia. }
  destruct (digits_spec q Hq) as (HDq & HvalD & HszD & _).
  pose proof (digits_size_le q (17 - decimals unit) Hq ltac:(lia) Hqd) as HszD'.
  set (D := digits q) in *.
  assert (Hne : isEmpty (format unit n false STANDARD false) = false).
  { apply removeSpaces_nonempty. rewrite (removeSpaces_format unit n Hn).
    fold q D. destruct D; [unfold size in HszD; simpl in HszD; lia|].
    unfold sign_str. destruct (n <? 0); discriminate. }
  rewrite Hne.
  assert (Hsign : Z.abs n = if n <? 0 then - n else n).
  { destruct (Z.ltb_spec n 0); lia. }
  assert (Hres : forall v, v = Z.abs n -> (if n <? 0 then - v else v) = n).
  { intros v ->. destruct (Z.ltb_spec n 0); lia. }
  assert (Hsg : size (sign_str n) <= 1).
  { unfold sign_str. destruct (n <? 0); unfold size; simpl; lia. }
  destruct (Z.gtb_spec (decimals unit) 0) as [Hpos|Hzero].
  - destruct (padded_spec (decimals unit) r ltac:(lia) Hr) as (HR & HszR & HvalR).
    set (R := rightJustified (decimals unit) ch_zero (digits r)) in *.
    rewrite List.app_assoc, split_one;
      [| now apply sign_digits_not_dot | now apply digits_not_dot].
    cbn [List.length nth]. change (Z.of_nat 2 >? 2) with false.
    change (Z.of_nat 2 >? 1) with true. cbv iota.
    destruct (Z.gtb_spec (size R) (decimals unit)); [lia|].
    unfold leftJustified. rewrite HszR, Z.sub_diag. cbn [Z.to_nat replicate].
    rewrite List.app_nil_r.
    destruct (Z.gtb_spec (size ((sign_str n ++ D) ++ R)) 18) as [Hbig|_].
    { rewrite !size_app in Hbig. lia. }
    rewrite <- List.app_assoc.
    rewrite (toLongLong_signed n (Z.abs n)).
    + now rewrite Hres.
    + apply Forall_app. now split.
    + rewrite size_app. lia.
    + rewrite digitsValue_app, HvalD, HvalR. f_equal.
      rewrite Z.mul_0_l, Z.add_0_l. exact Hqr.
    + unfold INT64_MAX. lia.
  - assert (Hd0 : decimals unit = 0) by lia.
    rewrite List.app_nil_r, split_absent by now apply sign_digits_not_dot.
    cbn [List.length nth]. change (Z.of_nat 1 >? 2) with false.
    change (Z.of_nat 1 >? 1) with false. cbv iota.
    change (size []) with 0.
    destruct (Z.gtb_spec 0 (decimals unit)); [lia|].
    unfold leftJustified. change (size []) with 0. rewrite Hd0. cbn [Z.sub Z.to_nat replicate Z.opp].
    simpl (Z.to_nat _). cbn [replicate]. rewrite !List.app_nil_r.
    destruct (Z.gtb_spec (size (sign_str n ++ D)) 18) as [Hbig|_].
    { rewrite size_app in Hbig. lia. }
    rewrite (toLongLong_signed n (Z.abs n)); try assumption.
    + now rewrite Hres.
    + rewrite HvalD. f_equal. rewrite Hd0 in Hqr, Hr.
      change (10 ^ 0) with 1 in Hqr, Hr. lia.
    + unfold INT64_MAX. lia.
Qed.

(** The bound 10^17 cannot be raised: the string of -10^17 smyts has 19
    characters, one more than [parse] takes. *)
Example parse_format_limit :
  parse SAT (format SAT (- 10 ^ 17) false STANDARD false) = (false, None).
Proof. vm_compute. reflexivity. Qed.

Section RoundTrip.

(** [MAX_MONEY] comes from [consensus/amount.h]; all that is used of it is
    that it stays below 10^17 (upstream it is 21000000 * 100000000). *)
Variable MAX_MONEY : Z.
Hypothesis MAX_MONEY_small : MAX_MONEY < 10 ^ 17.

(** C8: for every unit and every amount [n] with [|n| <= MAX_MONEY],
    parsing the standard formatting of [n] (no plus sign, standard
    separators) returns true and stores [n]. *)
Theorem format_parse_roundtrip (unit : Unit) (n : Z) :
  Z.abs n <= MAX_MONEY ->
  parse unit (format unit n false STANDARD false) = (true, Some n).
Proof. intros Hn. apply parse_format. lia. Qed.

End RoundTrip.

Lemma format_parse_roundtrip_witness :
  parse mMYT (format mMYT (-2099999999999999) false STANDARD false)
  = (true, Some (-2099999999999999)).
Proof.
  apply (format_parse_roundtrip 2100000000000000); [reflexivity | simpl; lia].
Defined.

(** *** Rejections of [parse] *)

Lemma remove_filter_dots (c : QChar) (s : QString) :
  c <> ch_dot ->
  List.filter (fun x => x =? ch_dot) (remove c s) = List.filter (fun x => x =? ch_dot) s.
Proof.
  intros Hc. induction s as [|x s IH]; [reflexivity|].
  unfold remove in *. simpl. destruct (Z.eqb_spec x c) as [->|Hx]; simpl.
  - destruct (Z.eqb_spec c ch_dot); [contradiction | assumption].
  - destruct (x =? ch_dot); simpl; now rewrite IH.
Qed.

(** More than one dot: rejected, nothing stored. *)
Lemma parse_two_dots (unit : Unit) (value : QString) :
  (1 < List.length (List.filter (fun x => Z.eqb x ch_dot) value))%nat ->
  parse unit value = (false, None).
Proof.
  intros H. unfold parse.
  destruct (isEmpty value); [reflexivity|].
  rewrite split_length. unfold removeSpaces.
  rewrite !remove_filter_dots by discriminate.
  destruct (Z.gtb_spec (Z.of_nat (S (List.length (List.filter (fun x => x =? ch_dot) value)))) 2);
    [reflexivity | lia].
Qed.

(** One dot and a fraction longer than the unit's decimals, or a padded
    string longer than 18 characters: rejected, nothing stored. *)
Lemma parse_fraction (unit : Unit) (value w f : QString) :
  removeSpaces value = w ++ ch_dot :: f ->
  Forall (fun x => x <> ch_dot) w -> Forall (fun x => x <> ch_dot) f ->
  decimals unit < size f \/ 18 < size w + Z.max (size f) (decimals unit) ->
  parse unit value = (false, None).
Proof.
  intros Hv Hw Hf Hlong. unfold parse.
  destruct (isEmpty value); [reflexivity|].
  rewrite Hv, split_one by assumption.
  cbn [List.length nth]. change (Z.of_nat 2 >? 2) with false.
  change (Z.of_nat 2 >? 1) with true. cbv iota.
  destruct (Z.gtb_spec (size f) (decimals unit)) as [|Hle]; [reflexivity|].
  destruct Hlong as [|Hlong]; [lia|].
  unfold leftJustified. rewrite !size_app, size_replicate.
  destruct (Z.gtb_spec (size w + (size f + Z.of_nat (Z.to_nat (decimals unit - size f)))) 18);
    [reflexivity | lia].
Qed.

(** No dot and a padded string longer than 18 characters: rejected. *)
Lemma parse_whole_too_long (unit : Unit) (value : QString) :
  Forall (fun x => x <> ch_dot) (removeSpaces value) ->
  18 < size (removeSpaces value) + decimals unit ->
  parse unit value = (false, None).
Proof.
  intros Hw Hlong. unfold parse.
  destruct (isEmpty value); [reflexivity|].
  rewrite split_absent by assumption.
  cbn [List.length nth]. change (Z.of_nat 1 >? 2) with false.
  change (Z.of_nat 1 >? 1) with false. cbv iota. change (size []) with 0.
  pose proof (decimals_range unit).
  destruct (Z.gtb_spec 0 (decimals unit)); [lia|].
  unfold leftJustified. rewrite !size_app, size_replicate. change (size []) with 0.
  destruct (Z.gtb_spec (size (removeSpaces value) + (0 + Z.of_nat (Z.to_nat (decimals unit - 0)))) 18);
    [reflexivity | lia].
Qed.

(** The empty string is refused, and so is a blank one for the unit without
    decimals. *)
Lemma parse_empty (unit : Unit) : parse unit [] = (false, None).
Proof. reflexivity. Qed.

Lemma parse_blank_SAT (value : QString) :
  removeSpaces value = [] -> fst (parse SAT value) = false.
Proof.
  intros Hv. unfold parse. destruct (isEmpty value); [reflexivity|].
  rewrite Hv. reflexivity.
Qed.

(** C9, at the input where the code departs from it: a string of one space
    is not empty, so the first test of [parse] lets it through; with the
    space removed and the fraction padded it reads as eight zeros, and
    [parse] returns true and stores 0. *)
Theorem parse_blank_accepted : parse MYT (qs " ") = (true, Some 0).
Proof. vm_compute. reflexivity. Qed.

(** Every unit with decimals accepts a string of spaces and thin spaces. *)
Lemma parse_blank_decimals (unit : Unit) (value : QString) :
  value <> [] -> removeSpaces value = [] -> unit <> SAT ->
  parse unit value = (true, Some 0).
Proof.
  intros Hne Hv Hu. unfold parse.
  destruct value as [|c value]; [contradiction|].
  change (isEmpty (c :: value)) with false. cbv iota.
  rewrite Hv. destruct unit; try contradiction; vm_compute; reflexivity.
Qed.

(** C10: the byte written for a unit reads back as that unit, and a unit
    written to a stream with [operator<<] is restored by [operator>>]. *)
Theorem FromQint8_ToQint8 (u : Unit) :
  FromQint8 (ToQint8 u) = Some u /\ read_unit (write_unit [] u) = (Some u, []).
Proof. destruct u; split; reflexivity. Qed.

(** Reading takes the oldest byte and leaves the rest of the stream. *)
Lemma read_unit_next (u : Unit) (rest : QDataStream) :
  read_unit (ToQint8 u :: rest) = (Some u, rest).
Proof. destruct u; reflexivity. Qed.

End MytherraUnitsFacts.

(** ** The rest of qt/mytherraunits.cpp: what [format] writes, what [parse]
    accepts, the names, the list model and the stream operators *)
Module UnitsFacts.
Import Qt QtFacts MytherraUnits MytherraUnitsFacts.

(** *** Strings *)

Lemma size_insert (p : Z) (c : QChar) (s s' : QString) :
  size s = size s' -> size (insert p c s) = size (insert p c s').
Proof.
  intros H. unfold insert. rewrite <- H.
  set (i := if p <? 0 then p + size s else p).
  destruct (Z.ltb_spec i 0); [assumption|].
  destruct (Z.ltb_spec (size s) i).
  - rewrite !size_app, !size_replicate. lia.
  - rewrite !size_app, !size_cons. unfold size in *.
    rewrite !length_take, !length_drop. lia.
Qed.

Lemma Forall_insert (P : QChar -> Prop) (p : Z) (c : QChar) (s : QString) :
  P c -> P ch_space -> Forall P s -> Forall P (insert p c s).
Proof.
  intros Hc Hsp Hs. unfold insert.
  destruct (_ <? 0); [assumption|]. destruct (_ <? _).
  - apply Forall_app. split; [assumption|]. apply Forall_app. split.
    + apply Forall_forall. intros x Hx. apply elem_of_replicate in Hx. now destruct Hx as [-> _].
    + now constructor.
  - apply Forall_app. split; [now apply Forall_take|].
    constructor; [assumption | now apply Forall_drop].
Qed.

(** An insert inside the string puts the character between the two
    parts. *)
Lemma insert_middle (c : QChar) (s t : QString) :
  insert (size s) c (s ++ t) = s ++ c :: t.
Proof.
  unfold insert. pose proof (size_nonneg s) as Hs. pose proof (size_nonneg t) as Ht.
  assert (E1 : (size s <? 0) = false) by lia.
  assert (E2 : (size (s ++ t) <? size s) = false) by (rewrite size_app; lia).
  rewrite !E1, E2. unfold size. rewrite Nat2Z.id.
  now rewrite take_app_length, drop_app_length.
Qed.

Lemma skipSpaces_split (s : QString) :
  exists sp, s = sp ++ skipSpaces s /\ Forall (fun c => isSpace c = true) sp.
Proof.
  induction s as [|c s (sp & Heq & Hsp)]; [now exists []|].
  cbn [skipSpaces]. destruct (isSpace c) eqn:Hc.
  - exists (c :: sp). split; [cbn; now f_equal | now constructor].
  - now exists [].
Qed.

(** A string is its trimming between two runs of white space. *)
Lemma trimmed_split (s : QString) :
  exists l r, s = l ++ trimmed s ++ r
    /\ Forall (fun c => isSpace c = true) l /\ Forall (fun c => isSpace c = true) r.
Proof.
  destruct (skipSpaces_split s) as (l & Hl & Hsl).
  destruct (skipSpaces_split (rev (skipSpaces s))) as (r & Hr & Hsr).
  exists l, (rev r). split; [|split; [assumption | now apply Forall_rev]].
  unfold trimmed. rewrite <- List.rev_app_distr, <- Hr, List.rev_involutive. exact Hl.
Qed.

Lemma trimmed_size (s : QString) : size (trimmed s) <= size s.
Proof.
  destruct (trimmed_split s) as (l & r & Heq & _). rewrite Heq at 2.
  rewrite !size_app. pose proof (size_nonneg l). pose proof (size_nonneg r). lia.
Qed.

Lemma digitsValue_digits (s : QString) : forall acc v,
  digitsValue acc s = Some v -> Forall (fun c => isDigit c = true) s.
Proof.
  induction s as [|c s IH]; intros acc v H; [constructor|].
  cbn [digitsValue] in H. destruct (isDigit c) eqn:Hc; [|discriminate].
  constructor; [assumption | eauto].
Qed.

(** A string of [k] digits read after [acc] gives a value between
    [acc * 10^k] and [(acc + 1) * 10^k]. *)
Lemma digitsValue_bound (s : QString) : forall acc v,
  0 <= acc -> digitsValue acc s = Some v ->
  acc * 10 ^ size s <= v < (acc + 1) * 10 ^ size s.
Proof.
  induction s as [|c s IH]; intros acc v Hacc H.
  - cbn in H. injection H as <-. change (size []) with 0. lia.
  - cbn [digitsValue] in H. destruct (isDigit c) eqn:Hc; [|discriminate].
    assert (Hd : 0 <= c - ch_zero <= 9) by (unfold isDigit, ch_zero in *; lia).
    apply IH in H; [|lia]. rewrite size_cons.
    pose proof (size_nonneg s) as Hs.
    rewrite Z.pow_add_r, Z.pow_1_r by lia.
    assert (0 < 10 ^ size s) by (apply Z.pow_pos_nonneg; lia). nia.
Qed.

Lemma Forall_isAmountChar_digits (s : QString) :
  Forall (fun c => isDigit c = true) s -> Forall (fun c => isAmountChar c = true) s.
Proof.
  apply List.Forall_impl. intros c Hc. unfold isAmountChar. now rewrite Hc.
Qed.

Lemma Forall_isAmountChar_spaces (s : QString) :
  Forall (fun c => isSpace c = true) s -> Forall (fun c => isAmountChar c = true) s.
Proof.
  apply List.Forall_impl. intros c Hc. unfold isAmountChar. rewrite Hc.
  now rewrite !orb_true_r.
Qed.

(** When [toLongLong] succeeds the string holds digits, a sign and white
    space only, and the value has no more digits than the string has
    characters. *)
Lemma toLongLong_ok (s : QString) (v : Z) :
  toLongLong s = (v, true) ->
  Forall (fun c => isAmountChar c = true) s /\ Z.abs v < 10 ^ size s.
Proof.
  intros H. destruct (trimmed_split s) as (l & r & Heq & Hl & Hr).
  pose proof (trimmed_size s) as Hsz. unfold toLongLong in H.
  set (t := trimmed s) in *.
  assert (Hpow : forall k, 0 <= k <= size t -> 10 ^ k <= 10 ^ size s)
    by (intros k Hk; apply Z.pow_le_mono_r; lia).
  assert (Hbody : forall neg body, (size body <= size t) ->
            match body with
            | [] => (0, false)
            | _ :: _ =>
                match digitsValue 0 body with
                | Some v0 =>
                    let r0 := if neg : bool then - v0 else v0 in
                    if (INT64_MIN <=? r0) && (r0 <=? INT64_MAX) then (r0, true) else (0, false)
                | None => (0, false)
                end
            end = (v, true) ->
            Forall (fun c => isDigit c = true) body /\ Z.abs v < 10 ^ size s).
  { intros neg body Hle Hb. destruct body as [|b body]; [discriminate|].
    destruct (digitsValue 0 (b :: body)) as [v0|] eqn:Hv; [|discriminate].
    pose proof (digitsValue_digits _ _ _ Hv) as Hd.
    pose proof (digitsValue_bound _ 0 _ ltac:(lia) Hv) as Hbd.
    cbv zeta in Hb. destruct (_ && _); [|discriminate]. injection Hb as <-.
    split; [assumption|].
    pose proof (Hpow (size (b :: body)) ltac:(pose proof (size_nonneg (b :: body)); lia)).
    destruct neg; lia. }
  assert (Hall : Forall (fun c => isAmountChar c = true) t /\ Z.abs v < 10 ^ size s).
  { destruct t as [|c t'] eqn:Ht; [discriminate|].
    destruct (Z.eqb_spec c ch_minus) as [->|Hm].
    - destruct (Hbody true t' ltac:(rewrite size_cons; lia) H) as (Hd & Hv).
      split; [|assumption]. constructor; [reflexivity | now apply Forall_isAmountChar_digits].
    - destruct (Z.eqb_spec c ch_minus_sign) as [->|Hms].
      + destruct (Hbody true t' ltac:(rewrite size_cons; lia) H) as (Hd & Hv).
        split; [|assumption].
        constructor; [reflexivity | now apply Forall_isAmountChar_digits].
      + destruct (Z.eqb_spec c ch_plus) as [->|Hp].
        * destruct (Hbody false t' ltac:(rewrite size_cons; lia) H) as (Hd & Hv).
          split; [|assumption].
          constructor; [reflexivity | now apply Forall_isAmountChar_digits].
        * destruct (Hbody false (c :: t') ltac:(lia) H) as (Hd & Hv).
          split; [now apply Forall_isAmountChar_digits | assumption]. }
  destruct Hall as (Ht & Hv). split; [|assumption].
  rewrite Heq. apply Forall_app. split; [now apply Forall_isAmountChar_spaces|].
  apply Forall_app. split; [assumption | now apply Forall_isAmountChar_spaces].
Qed.

(** When [toLongLong] fails the value is 0. *)
Lemma toLongLong_failed (s : QString) (v : Z) : toLongLong s = (v, false) -> v = 0.
Proof.
  unfold toLongLong.
  destruct (trimmed s) as [|c t]; [now intros [= <-]|].
  assert (Hb : forall neg body,
            match body with
            | [] => (0, false)
            | _ :: _ =>
                match digitsValue 0 body with
                | Some v0 =>
                    let r0 := if neg : bool then - v0 else v0 in
                    if (INT64_MIN <=? r0) && (r0 <=? INT64_MAX) then (r0, true) else (0, false)
                | None => (0, false)
                end
            end = (v, false) -> v = 0).
  { intros neg body. destruct body as [|b body]; [now intros [= <-]|].
    destruct (digitsValue 0 (b :: body)); [|now intros [= <-]].
    cbv zeta. destruct (_ && _); [discriminate | now intros [= <-]]. }
  destruct ((c =? ch_minus) || (c =? ch_minus_sign)); [exact (Hb true t)|].
  destruct (c =? ch_plus); [exact (Hb false t) | exact (Hb false (c :: t))].
Qed.

(** *** What [format] writes *)

Lemma sign_of_chars (fPlus : bool) (n : Z) :
  Forall (fun x => x <> ch_space /\ x <> THIN_SP_CP /\ x <> ch_dot) (sign_of fPlus n).
Proof.
  unfold sign_of. destruct (n <? 0); [|destruct (fPlus && _)];
    repeat constructor; discriminate.
Qed.

Lemma removeSpaces_sign_of (fPlus : bool) (n : Z) :
  removeSpaces (sign_of fPlus n) = sign_of fPlus n.
Proof.
  apply removeSpaces_clean. eapply List.Forall_impl; [|apply sign_of_chars].
  cbn. tauto.
Qed.

Lemma removeSpaces_spaces (k : nat) : removeSpaces (replicate k ch_space) = [].
Proof. unfold removeSpaces. now rewrite remove_replicate. Qed.

Lemma abs_branch (n : Z) : (if n >? 0 then n else - n) = Z.abs n.
Proof. destruct (Z.gtb_spec n 0); lia. Qed.

Lemma whole_of_digits (unit : Unit) (n : Z) :
  Z.abs n < 2 ^ 63 ->
  Forall (fun c => isDigit c = true) (whole_of unit n) /\ 1 <= size (whole_of unit n).
Proof.
  intros Hn. assert (Hf : 0 < factor unit) by (destruct unit; simpl; lia).
  assert (Hq : 0 <= Z.abs n / factor unit < 10 ^ 19).
  { split; [apply Z.div_pos; lia|].
    apply Z.le_lt_trans with (Z.abs n); [|lia].
    apply Z.div_le_upper_bound; nia. }
  destruct (digits_spec _ Hq) as (H1 & _ & H2 & _). now split.
Qed.

Lemma fraction_of_digits (unit : Unit) (n : Z) :
  fraction_of unit n = []
  \/ exists R, fraction_of unit n = ch_dot :: R
       /\ Forall (fun c => isDigit c = true) R /\ size R = decimals unit.
Proof.
  unfold fraction_of. destruct (Z.gtb_spec (decimals unit) 0) as [Hd|Hd]; [right | now left].
  assert (Hf : 0 < factor unit) by (destruct unit; simpl; lia).
  pose proof (decimals_range unit) as Hr.
  assert (Hm : 0 <= Z.abs n mod factor unit < 10 ^ decimals unit).
  { rewrite <- factor_pow. now apply Z.mod_pos_bound. }
  destruct (padded_spec (decimals unit) _ ltac:(lia) Hm) as (H1 & H2 & _).
  eexists. split; [reflexivity|]. now split.
Qed.

Lemma removeSpaces_fraction_of (unit : Unit) (n : Z) :
  removeSpaces (fraction_of unit n) = fraction_of unit n.
Proof.
  destruct (fraction_of_digits unit n) as [->|(R & -> & HR & _)]; [reflexivity|].
  change (ch_dot :: R) with ([ch_dot] ++ R). rewrite removeSpaces_app.
  now rewrite (removeSpaces_digits R).
Qed.

(** [format] without separators and without padding: the sign, the digits
    of the quotient, and the fraction. *)
Lemma format_NEVER (unit : Unit) (n : Z) (fPlus : bool) :
  format unit n fPlus NEVER false = sign_of fPlus n ++ whole_of unit n ++ fraction_of unit n.
Proof.
  unfold format, sign_of, whole_of, fraction_of. rewrite abs_branch.
  assert (Hf : 0 < factor unit) by (destruct unit; simpl; lia).
  rewrite !number_nonneg
    by (try (apply Z.div_pos; lia); apply Z.mod_pos_bound; lia).
  cbn [SeparatorStyle_eqb orb andb]. rewrite !insert_front.
  destruct (n <? 0); [|destruct (fPlus && (n >? 0))];
    destruct (decimals unit >? 0); cbn [List.app qs];
    rewrite ?List.app_nil_r; reflexivity.
Qed.

(** The quotient of [format] before the sign is put in front: the digits,
    after white space and between thin spaces. *)
Lemma format_split (unit : Unit) (n : Z) (fPlus : bool) (separators : SeparatorStyle)
    (justify : bool) :
  exists Q, format unit n fPlus separators justify = sign_of fPlus n ++ Q ++ fraction_of unit n
    /\ Q = (let Q0 := if justify
                      then rightJustified (MAX_DIGITS_MYT - decimals unit) ch_space
                             (whole_of unit n)
                      else whole_of unit n in
            if SeparatorStyle_eqb separators ALWAYS
               || (SeparatorStyle_eqb separators STANDARD && (size Q0 >? 4))
            then insertSeparators (Z.to_nat (size Q0)) 3 (size Q0) Q0
            else Q0).
Proof.
  eexists. split; [|reflexivity].
  unfold format, sign_of, whole_of, fraction_of. rewrite abs_branch.
  assert (Hf : 0 < factor unit) by (destruct unit; simpl; lia).
  rewrite !number_nonneg
    by (try (apply Z.div_pos; lia); apply Z.mod_pos_bound; lia).
  cbv zeta. rewrite !insert_front.
  destruct (n <? 0); [|destruct (fPlus && (n >? 0))];
    destruct (decimals unit >? 0); cbn [List.app qs];
    rewrite ?List.app_nil_r; reflexivity.
Qed.

Lemma removeSpaces_quotient (unit : Unit) (n : Z) (separators : SeparatorStyle)
    (justify : bool) (Q0 Q : QString) :
  Z.abs n < 2 ^ 63 ->
  Q0 = (if justify
        then rightJustified (MAX_DIGITS_MYT - decimals unit) ch_space (whole_of unit n)
        else whole_of unit n) ->
  Q = (if SeparatorStyle_eqb separators ALWAYS
          || (SeparatorStyle_eqb separators STANDARD && (size Q0 >? 4))
       then insertSeparators (Z.to_nat (size Q0)) 3 (size Q0) Q0
       else Q0) ->
  removeSpaces Q = whole_of unit n.
Proof.
  intros Hn HQ0 HQ. destruct (whole_of_digits unit n Hn) as (Hd & _).
  assert (H0 : removeSpaces Q0 = whole_of unit n).
  { rewrite HQ0. destruct justify; [|now apply removeSpaces_digits].
    unfold rightJustified. rewrite removeSpaces_app, removeSpaces_spaces.
    now apply removeSpaces_digits. }
  rewrite HQ. destruct (_ || _); [now rewrite removeSpaces_insertSeparators | assumption].
Qed.

Lemma removeSpaces_format_any (unit : Unit) (n : Z) (fPlus : bool)
    (separators : SeparatorStyle) (justify : bool) :
  Z.abs n < 2 ^ 63 ->
  removeSpaces (format unit n fPlus separators justify)
  = sign_of fPlus n ++ whole_of unit n ++ fraction_of unit n.
Proof.
  intros Hn. destruct (format_split unit n fPlus separators justify) as (Q & -> & HQ).
  rewrite !removeSpaces_app, removeSpaces_sign_of, removeSpaces_fraction_of.
  now rewrite (removeSpaces_quotient unit n separators justify _ Q Hn eq_refl HQ).
Qed.

(** X1: separators and padding are for the eye only.  With the spaces and
    thin spaces removed, whatever the separator style and the padding,
    [format] gives what it gives without them. *)
Theorem format_separators_cosmetic (unit : Unit) (n : Z) (fPlus : bool)
    (separators : SeparatorStyle) (justify : bool) :
  Z.abs n < 2 ^ 63 ->
  removeSpaces (format unit n fPlus separators justify) = format unit n fPlus NEVER false.
Proof. intros Hn. rewrite format_NEVER. now apply removeSpaces_format_any. Qed.

Lemma format_separators_cosmetic_witness :
  removeSpaces (format MYT (-123456789012345) true ALWAYS true)
  = format MYT (-123456789012345) true NEVER false.
Proof. apply format_separators_cosmetic. reflexivity. Defined.

Lemma Forall_insertSeparators (P : QChar -> Prop) (fuel : nat) : forall i q s,
  P THIN_SP_CP -> P ch_space -> Forall P s -> Forall P (insertSeparators fuel i q s).
Proof.
  induction fuel as [|fuel IH]; intros i q s Ht Hsp Hs; [assumption|].
  cbn [insertSeparators]. destruct (i <? q); [|assumption].
  apply IH; try assumption. now apply Forall_insert.
Qed.

(** X2: the shape of a formatted amount.  For a unit with decimals the
    string has one dot, and after it exactly [decimals(unit)] digits; for
    the unit without decimals it has no dot at all. *)
Theorem format_shape (unit : Unit) (n : Z) (fPlus : bool) (separators : SeparatorStyle)
    (justify : bool) :
  Z.abs n < 2 ^ 63 ->
  if decimals unit >? 0
  then exists w f, format unit n fPlus separators justify = w ++ ch_dot :: f
         /\ split ch_dot (format unit n fPlus separators justify) = [w; f]
         /\ Forall (fun c => isDigit c = true) f /\ size f = decimals unit
  else split ch_dot (format unit n fPlus separators justify)
       = [format unit n fPlus separators justify].
Proof.
  intros Hn. destruct (format_split unit n fPlus separators justify) as (Q & -> & HQ).
  destruct (whole_of_digits unit n Hn) as (Hd & _).
  assert (Hw : Forall (fun x => x <> ch_dot) (sign_of fPlus n ++ Q)).
  { apply Forall_app. split.
    - eapply List.Forall_impl; [|apply sign_of_chars]. cbn. tauto.
    - assert (H0 : forall Q0, Q0 = (if justify
                 then rightJustified (MAX_DIGITS_MYT - decimals unit) ch_space (whole_of unit n)
                 else whole_of unit n) -> Forall (fun x => x <> ch_dot) Q0).
      { intros Q0 ->. destruct justify; [|now apply digits_not_dot].
        apply Forall_app. split; [|now apply digits_not_dot].
        apply Forall_forall. intros x Hx. apply elem_of_replicate in Hx.
        destruct Hx as [-> _]. discriminate. }
      rewrite HQ. cbv zeta. destruct (_ || _); [|now apply H0].
      apply Forall_insertSeparators; [discriminate | discriminate | now apply H0]. }
  destruct (fraction_of_digits unit n) as [Hfr|(R & Hfr & HR & HszR)].
  - unfold fraction_of in Hfr. destruct (decimals unit >? 0) eqn:Hdec; [discriminate|].
    unfold fraction_of. rewrite Hdec, List.app_nil_r. now apply split_absent.
  - unfold fraction_of in Hfr |- *. destruct (decimals unit >? 0) eqn:Hdec; [|discriminate].
    injection Hfr as HfrR. rewrite HfrR.
    exists (sign_of fPlus n ++ Q), R. rewrite List.app_assoc.
    split; [reflexivity|]. split; [|now split].
    apply split_one; [assumption | now apply digits_not_dot].
Qed.

Lemma format_shape_witness :
  exists w f, format uMYT (-1234567) true STANDARD true = w ++ ch_dot :: f
    /\ split ch_dot (format uMYT (-1234567) true STANDARD true) = [w; f]
    /\ Forall (fun c => isDigit c = true) f /\ size f = decimals uMYT.
Proof. apply (format_shape uMYT (-1234567) true STANDARD true). reflexivity. Defined.

(** X3: the sign.  A negative amount is written as a minus sign and the
    amount without its sign; a positive amount with [fPlus] as a plus sign
    and the amount written without [fPlus]; zero has no sign. *)
Theorem format_sign (unit : Unit) (n : Z) (fPlus : bool) (separators : SeparatorStyle)
    (justify : bool) :
  Z.abs n < 2 ^ 63 ->
  (n < 0 -> format unit n fPlus separators justify
            = ch_minus :: format unit (- n) false separators justify)
  /\ (0 < n -> format unit n true separators justify
               = ch_plus :: format unit n false separators justify)
  /\ format unit 0 fPlus separators justify = format unit 0 false separators justify.
Proof.
  intros _. split; [|split].
  - intros Hn.
    destruct (format_split unit n fPlus separators justify) as (Q & -> & HQ).
    destruct (format_split unit (- n) false separators justify) as (Q' & -> & HQ').
    assert (Hw : whole_of unit (- n) = whole_of unit n)
      by (unfold whole_of; now rewrite Z.abs_opp).
    assert (Hf : fraction_of unit (- n) = fraction_of unit n)
      by (unfold fraction_of; now rewrite Z.abs_opp).
    rewrite Hw in HQ'. rewrite Hf, HQ, HQ'. unfold sign_of.
    destruct (Z.ltb_spec n 0); [|lia]. destruct (Z.ltb_spec (- n) 0); [lia|].
    reflexivity.
  - intros Hn.
    destruct (format_split unit n true separators justify) as (Q & -> & HQ).
    destruct (format_split unit n false separators justify) as (Q' & -> & HQ').
    rewrite HQ, HQ'. unfold sign_of.
    destruct (Z.ltb_spec n 0); [lia|]. destruct (Z.gtb_spec n 0); [|lia]. reflexivity.
  - destruct (format_split unit 0 fPlus separators justify) as (Q & -> & HQ).
    destruct (format_split unit 0 false separators justify) as (Q' & -> & HQ').
    rewrite HQ, HQ'. unfold sign_of. cbn. now rewrite andb_false_r.
Qed.

Lemma format_sign_witness :
  format mMYT (-4200000) true ALWAYS false
  = ch_minus :: format mMYT (- (-4200000)) false ALWAYS false.
Proof. apply (format_sign mMYT (-4200000) true ALWAYS false); reflexivity. Defined.

(** *** Thin separators *)

Lemma groupsOfThree_short (l : QString) : (List.length l <= 3)%nat -> groupsOfThree l = l.
Proof.
  destruct l as [|a [|b [|c [|d l]]]]; cbn [List.length]; try reflexivity. lia.
Qed.

Lemma groupsOfThree_next (x y z : QChar) (P : QString) :
  P <> [] ->
  rev (groupsOfThree (rev (P ++ [x; y; z])))
  = rev (groupsOfThree (rev P)) ++ [THIN_SP_CP; x; y; z].
Proof.
  intros HP. rewrite List.rev_app_distr. cbn [rev List.app].
  destruct (rev P) as [|d rest] eqn:Hr.
  - exfalso. apply HP. apply (f_equal (@rev QChar)) in Hr.
    now rewrite List.rev_involutive in Hr.
  - cbn [groupsOfThree rev]. now rewrite <- !List.app_assoc.
Qed.

Lemma last_three (P : QString) :
  3 < size P -> exists P' x y z, P = P' ++ [x; y; z] /\ P' <> [] /\ size P' = size P - 3.
Proof.
  intros H. unfold size in *.
  destruct (rev P) as [|z [|y [|x [|d rest]]]] eqn:Hr;
    apply (f_equal (@rev QChar)) in Hr; rewrite List.rev_involutive in Hr; subst P;
    cbn [rev List.app List.length] in H; try lia.
  exists (rev rest ++ [d]), x, y, z. cbn [rev]. rewrite <- !List.app_assoc. cbn [List.app].
  split; [reflexivity|]. split; [now destruct (rev rest)|].
  rewrite !List.length_app. cbn [List.length]. lia.
Qed.

(** The loop of [format] on the part [P] of the string not yet visited. *)
Lemma insertSeparators_groups (q : Z) (fuel : nat) : forall i P T,
  size P = q - i + 3 -> size P <= 3 * Z.of_nat fuel + 3 ->
  insertSeparators fuel i q (P ++ T) = rev (groupsOfThree (rev P)) ++ T.
Proof.
  assert (Hshort : forall P, size P <= 3 -> rev (groupsOfThree (rev P)) = P).
  { intros P HP. rewrite groupsOfThree_short, List.rev_involutive; [reflexivity|].
    rewrite List.length_rev. unfold size in HP. lia. }
  induction fuel as [|fuel IH]; intros i P T Hsz Hfuel.
  - cbn [insertSeparators]. rewrite Hshort; [reflexivity | lia].
  - cbn [insertSeparators]. destruct (Z.ltb_spec i q) as [Hlt|Hge].
    + destruct (last_three P ltac:(lia)) as (P' & x & y & z & -> & HP' & Hsz').
      rewrite groupsOfThree_next by assumption.
      replace (q - i) with (size P') by lia.
      rewrite <- !List.app_assoc. rewrite insert_middle.
      rewrite (IH (i + 3) P'); [reflexivity | lia | lia].
    + rewrite Hshort; [reflexivity | lia].
Qed.

(** X4: thin separators group the digits before the dot in threes, counted
    from the dot.  With ALWAYS every amount is grouped; with STANDARD an
    amount is grouped when it has more than four digits before the dot, and
    written plainly otherwise. *)
Theorem format_groups (unit : Unit) (n : Z) (fPlus : bool) :
  Z.abs n < 2 ^ 63 ->
  format unit n fPlus ALWAYS false
  = sign_of fPlus n ++ rev (groupsOfThree (rev (whole_of unit n))) ++ fraction_of unit n
  /\ format unit n fPlus STANDARD false
     = (if size (whole_of unit n) >? 4 then format unit n fPlus ALWAYS false
        else format unit n fPlus NEVER false).
Proof.
  intros _.
  destruct (format_split unit n fPlus ALWAYS false) as (Q & HA & HQ).
  destruct (format_split unit n fPlus STANDARD false) as (Q' & HS & HQ').
  destruct (format_split unit n fPlus NEVER false) as (Q'' & HN & HQ'').
  cbv zeta in HQ, HQ', HQ''. cbn [SeparatorStyle_eqb orb andb] in HQ, HQ', HQ''.
  split.
  - rewrite HA, HQ. f_equal. f_equal.
    rewrite <- (List.app_nil_r (whole_of unit n)) at 3.
    rewrite (insertSeparators_groups (size (whole_of unit n)));
      [now rewrite List.app_nil_r | lia |].
    pose proof (size_nonneg (whole_of unit n)). lia.
  - rewrite HS, HA, HN, HQ, HQ', HQ''. now destruct (size (whole_of unit n) >? 4).
Qed.

Lemma format_groups_witness :
  format MYT 123456789012345 false ALWAYS false
  = sign_of false 123456789012345
    ++ rev (groupsOfThree (rev (whole_of MYT 123456789012345)))
    ++ fraction_of MYT 123456789012345.
Proof. apply (format_groups MYT 123456789012345 false). reflexivity. Defined.

Example format_groups_ex :
  format MYT 123456789012345 false ALWAYS false
  = qs "1" ++ THIN_SP_CP :: qs "234" ++ THIN_SP_CP :: qs "567.89012345".
Proof. vm_compute. reflexivity. Qed.

(** *** What [parse] accepts *)

Lemma remove_idem (c : QChar) (s : QString) : remove c (remove c s) = remove c s.
Proof.
  unfold remove. induction s as [|x s IH]; [reflexivity|].
  cbn [List.filter]. destruct (negb (x =? c)) eqn:Hx; [|assumption].
  cbn [List.filter]. now rewrite Hx, IH.
Qed.

Lemma remove_comm (a b : QChar) (s : QString) : remove a (remove b s) = remove b (remove a s).
Proof.
  unfold remove. induction s as [|x s IH]; [reflexivity|].
  cbn [List.filter].
  destruct (negb (x =? b)) eqn:Hb; destruct (negb (x =? a)) eqn:Ha; cbn [List.filter];
    rewrite ?Ha, ?Hb, ?IH; reflexivity.
Qed.

Lemma removeSpaces_idem (s : QString) : removeSpaces (removeSpaces s) = removeSpaces s.
Proof.
  unfold removeSpaces.
  rewrite (remove_comm ch_space THIN_SP_CP (remove ch_space s)).
  now rewrite (remove_idem THIN_SP_CP), (remove_idem ch_space).
Qed.

Lemma parse_removeSpaces (unit : Unit) (value : QString) :
  removeSpaces value <> [] -> parse unit value = parse unit (removeSpaces value).
Proof.
  intros Hne. unfold parse. rewrite removeSpaces_idem.
  rewrite (removeSpaces_nonempty value Hne).
  destruct (removeSpaces value); [contradiction | reflexivity].
Qed.

Lemma toLongLong_plus (v : Z) (B : QString) :
  Forall (fun c => isDigit c = true) B -> 1 <= size B ->
  digitsValue 0 B = Some v -> 0 <= v <= INT64_MAX ->
  toLongLong (ch_plus :: B) = (v, true).
Proof.
  intros Hdig Hsz Hval Hv.
  destruct (exists_last (l := B)) as (B' & e & HB).
  { intros ->. unfold size in Hsz. simpl in Hsz. lia. }
  assert (He : isDigit e = true).
  { rewrite HB in Hdig. apply Forall_app in Hdig as [_ Hdig]. now inversion Hdig. }
  unfold toLongLong.
  rewrite (trimmed_id ch_plus e _ (ch_plus :: B'));
    [| reflexivity | now apply isDigit_not_space | now rewrite HB].
  change (ch_plus =? ch_minus) with false. change (ch_plus =? ch_minus_sign) with false.
  rewrite Z.eqb_refl. cbn [orb]. cbv iota.
  destruct B as [|b B0]; [unfold size in Hsz; simpl in Hsz; lia|].
  rewrite Hval. unfold INT64_MIN, INT64_MAX in *.
  destruct (Z.leb_spec (- 2 ^ 63) v); [|lia].
  destruct (Z.leb_spec v (2 ^ 63 - 1)); [|lia]. reflexivity.
Qed.

Lemma toLongLong_sign_of (fPlus : bool) (n v : Z) (B : QString) :
  Forall (fun c => isDigit c = true) B -> 1 <= size B ->
  digitsValue 0 B = Some v -> 0 <= v <= INT64_MAX ->
  toLongLong (sign_of fPlus n ++ B) = ((if n <? 0 then - v else v), true).
Proof.
  intros Hdig Hsz Hval Hv.
  pose proof (toLongLong_signed n v B Hdig Hsz Hval Hv) as Hs.
  unfold sign_of, sign_str in *. destruct (n <? 0); [assumption|].
  destruct (fPlus && (n >? 0)); [|assumption].
  now apply toLongLong_plus.
Qed.

(** [parse] on the sign, the digits of the quotient and the fraction. *)
Lemma parse_plain (unit : Unit) (n : Z) (fPlus : bool) :
  Z.abs n < 10 ^ 17 ->
  parse unit (sign_of fPlus n ++ whole_of unit n ++ fraction_of unit n) = (true, Some n).
Proof.
  intros Hn. assert (Hn63 : Z.abs n < 2 ^ 63) by lia.
  set (str := sign_of fPlus n ++ whole_of unit n ++ fraction_of unit n).
  assert (Hne : isEmpty str = false).
  { subst str. destruct (whole_of_digits unit n Hn63) as (_ & Hsz).
    destruct (whole_of unit n); [unfold size in Hsz; simpl in Hsz; lia|].
    now destruct (sign_of fPlus n). }
  assert (Hclean : removeSpaces str = str).
  { subst str. rewrite !removeSpaces_app, removeSpaces_sign_of, removeSpaces_fraction_of.
    now rewrite (removeSpaces_digits _ (proj1 (whole_of_digits unit n Hn63))). }
  unfold parse. rewrite Hne, Hclean. subst str. unfold whole_of, fraction_of.
  assert (Hf : 0 < factor unit) by (destruct unit; simpl; lia).
  pose proof (decimals_range unit) as Hd.
  set (q := Z.abs n / factor unit). set (r := Z.abs n mod factor unit).
  assert (Hq : 0 <= q < 10 ^ 19).
  { split; [apply Z.div_pos; lia|].
    apply Z.le_lt_trans with (Z.abs n); [|lia].
    apply Z.div_le_upper_bound; nia. }
  assert (Hqd : q < 10 ^ (17 - decimals unit)).
  { apply Z.div_lt_upper_bound; [lia|]. rewrite factor_pow, <- Z.pow_add_r by lia.
    replace (decimals unit + (17 - decimals unit)) with 17 by lia. lia. }
  assert (Hr : 0 <= r < 10 ^ decimals unit).
  { rewrite <- factor_pow. apply Z.mod_pos_bound. lia. }
  assert (Hqr : q * 10 ^ decimals unit + r = Z.abs n).
  { rewrite <- factor_pow. pose proof (Z.div_mod (Z.abs n) (factor unit)). subst q r. lia. }
  destruct (digits_spec q Hq) as (HDq & HvalD & HszD & _).
  pose proof (digits_size_le q (17 - decimals unit) Hq ltac:(lia) Hqd) as HszD'.
  set (D := digits q) in *.
  assert (Hsg : size (sign_of fPlus n) <= 1).
  { unfold sign_of. destruct (n <? 0); [|destruct (fPlus && _)]; unfold size; simpl; lia. }
  assert (Hres : forall v, v = Z.abs n -> (if n <? 0 then - v else v) = n).
  { intros v ->. destruct (Z.ltb_spec n 0); lia. }
  assert (Hnd : Forall (fun x => x <> ch_dot) (sign_of fPlus n ++ D)).
  { apply Forall_app. split; [|now apply digits_not_dot].
    eapply List.Forall_impl; [|apply sign_of_chars]. cbn. tauto. }
  destruct (Z.gtb_spec (decimals unit) 0) as [Hpos|Hzero].
  - destruct (padded_spec (decimals unit) r ltac:(lia) Hr) as (HR & HszR & HvalR).
    set (R := rightJustified (decimals unit) ch_zero (digits r)) in *.
    rewrite List.app_assoc, split_one; [| assumption | now apply digits_not_dot].
    cbn [List.length nth]. change (Z.of_nat 2 >? 2) with false.
    change (Z.of_nat 2 >? 1) with true. cbv iota.
    destruct (Z.gtb_spec (size R) (decimals unit)); [lia|].
    unfold leftJustified. rewrite HszR, Z.sub_diag. cbn [Z.to_nat replicate].
    rewrite List.app_nil_r.
    destruct (Z.gtb_spec (size ((sign_of fPlus n ++ D) ++ R)) 18) as [Hbig|_].
    { rewrite !size_app in Hbig. lia. }
    rewrite <- List.app_assoc.
    rewrite (toLongLong_sign_of fPlus n (Z.abs n)).
    + now rewrite Hres.
    + apply Forall_app. now split.
    + rewrite size_app. lia.
    + rewrite digitsValue_app, HvalD, HvalR. f_equal.
      rewrite Z.mul_0_l, Z.add_0_l. exact Hqr.
    + unfold INT64_MAX. lia.
  - assert (Hd0 : decimals unit = 0) by lia.
    rewrite List.app_nil_r, split_absent by assumption.
    cbn [List.length nth]. change (Z.of_nat 1 >? 2) with false.
    change (Z.of_nat 1 >? 1) with false. cbv iota.
    change (size []) with 0.
    destruct (Z.gtb_spec 0 (decimals unit)); [lia|].
    unfold leftJustified. change (size []) with 0. rewrite Hd0.
    cbn [Z.sub Z.to_nat replicate Z.opp]. simpl (Z.to_nat _). cbn [replicate].
    rewrite !List.app_nil_r.
    destruct (Z.gtb_spec (size (sign_of fPlus n ++ D)) 18) as [Hbig|_].
    { rewrite size_app in Hbig. lia. }
    rewrite (toLongLong_sign_of fPlus n (Z.abs n)); try assumption.
    + now rewrite Hres.
    + rewrite HvalD. f_equal. rewrite Hd0 in Hqr, Hr.
      change (10 ^ 0) with 1 in Hqr, Hr. lia.
    + unfold INT64_MAX. lia.
Qed.

(** X5: [parse] reads back every string [format] writes, whatever the
    options: plus sign or not, any separator style, padded or not.  The
    amount is below 10^17 in absolute value. *)
Theorem parse_format_any (unit : Unit) (n : Z) (fPlus : bool) (separators : SeparatorStyle)
    (justify : bool) :
  Z.abs n < 10 ^ 17 ->
  parse unit (format unit n fPlus separators justify) = (true, Some n).
Proof.
  intros Hn. assert (Hn63 : Z.abs n < 2 ^ 63) by lia.
  pose proof (removeSpaces_format_any unit n fPlus separators justify Hn63) as Hrs.
  rewrite parse_removeSpaces.
  - rewrite Hrs. now apply parse_plain.
  - rewrite Hrs. destruct (whole_of_digits unit n Hn63) as (_ & Hsz).
    destruct (whole_of unit n); [unfold size in Hsz; simpl in Hsz; lia|].
    now destruct (sign_of fPlus n).
Qed.

Lemma parse_format_any_witness :
  parse MYT (format MYT 2100000000000000 true ALWAYS true) = (true, Some 2100000000000000).
Proof. apply parse_format_any. reflexivity. Defined.

(** X6: [parse] looks at its input with the spaces and thin spaces taken
    out.  Two inputs that differ in them only, and are not blank, are parsed
    alike. *)
Theorem parse_ignores_spaces (unit : Unit) (value value' : QString) :
  removeSpaces value = removeSpaces value' -> removeSpaces value <> [] ->
  parse unit value = parse unit value'.
Proof.
  intros Heq Hne. rewrite (parse_removeSpaces unit value Hne).
  rewrite Heq in Hne |- *. now rewrite <- (parse_removeSpaces unit value' Hne).
Qed.

Lemma parse_ignores_spaces_witness :
  parse MYT (qs "1 234.5") = parse MYT (qs " 12 34 .5 ").
Proof. apply parse_ignores_spaces; [reflexivity | discriminate]. Defined.

(** What [parse] hands to [toLongLong] when it gets that far. *)
Lemma parse_cases (unit : Unit) (value : QString) :
  parse unit value = (false, None)
  \/ exists whole dec,
       (split ch_dot (removeSpaces value) = [whole] /\ dec = []
        \/ split ch_dot (removeSpaces value) = [whole; dec])
       /\ size (whole ++ leftJustified (decimals unit) ch_zero dec) <= 18
       /\ parse unit value
          = (snd (toLongLong (whole ++ leftJustified (decimals unit) ch_zero dec)),
             Some (fst (toLongLong (whole ++ leftJustified (decimals unit) ch_zero dec)))).
Proof.
  unfold parse. destruct (isEmpty value); [now left|].
  pose proof (split_length ch_dot (removeSpaces value)) as Hlen.
  destruct (split ch_dot (removeSpaces value)) as [|whole [|dec [|x parts]]];
    cbn [List.length] in *; [lia | | |].
  - change (Z.of_nat 1 >? 2) with false. change (Z.of_nat 1 >? 1) with false.
    cbn [nth]. cbv iota. destruct (size [] >? decimals unit); [now left|].
    destruct (Z.gtb_spec (size (whole ++ leftJustified (decimals unit) ch_zero [])) 18);
      [now left|].
    right. exists whole, []. split; [now left|]. split; [lia|].
    now destruct (toLongLong _).
  - change (Z.of_nat 2 >? 2) with false. change (Z.of_nat 2 >? 1) with true.
    cbn [nth]. cbv iota. destruct (size dec >? decimals unit); [now left|].
    destruct (Z.gtb_spec (size (whole ++ leftJustified (decimals unit) ch_zero dec)) 18);
      [now left|].
    right. exists whole, dec. split; [now right|]. split; [lia|].
    now destruct (toLongLong _).
  - left. destruct (Z.gtb_spec (Z.of_nat (S (S (S (List.length parts))))) 2); [reflexivity | lia].
Qed.



Lemma split_chars (P : QChar -> Prop) (sep : QChar) (s : QString) :
  P sep -> Forall (Forall P) (split sep s) -> Forall P s.
Proof.
  intros Hsep. induction s as [|c s IH]; intros H; [constructor|].
  cbn [split] in H. destruct (Z.eqb_spec c sep) as [->|Hc].
  - inversion H; subst. constructor; auto.
  - destruct (split sep s) as [|p ps].
    + inversion H as [|? ? Hc1 _]; subst. inversion Hc1; subst.
      constructor; [assumption | apply IH; constructor].
    + inversion H as [|? ? Hc1 Hps]; subst. inversion Hc1; subst.
      constructor; [assumption | apply IH; now constructor].
Qed.

Lemma remove_chars (P : QChar -> Prop) (c : QChar) (s : QString) :
  P c -> Forall P (remove c s) -> Forall P s.
Proof.
  intros Hc. unfold remove. induction s as [|x s IH]; intros H; [constructor|].
  cbn [List.filter] in H. destruct (Z.eqb_spec x c) as [->|Hx]; cbn [negb] in H.
  - constructor; auto.
  - inversion H; subst. constructor; auto.
Qed.

Lemma parse_true_chars (unit : Unit) (value : QString) (r : option Z) :
  parse unit value = (true, r) -> Forall (fun c => isAmountChar c = true) value.
Proof.
  intros H. destruct (parse_cases unit value) as [Hf|(whole & dec & Hparts & _ & Hp)];
    [congruence|].
  rewrite Hp in H. set (str := whole ++ leftJustified (decimals unit) ch_zero dec) in *.
  destruct (toLongLong str) as [v ok] eqn:Ht. cbn [fst snd] in H.
  injection H as -> _. destruct (toLongLong_ok str v Ht) as (Hchars & _).
  subst str. apply Forall_app in Hchars as (Hw & Hd).
  unfold leftJustified in Hd. apply Forall_app in Hd as (Hd & _).
  apply (remove_chars _ ch_space); [reflexivity|].
  apply (remove_chars _ THIN_SP_CP); [reflexivity|].
  change (remove THIN_SP_CP (remove ch_space value)) with (removeSpaces value).
  apply (split_chars _ ch_dot); [reflexivity|].
  destruct Hparts as [[-> _]| ->]; repeat constructor; assumption.
Qed.

(** X8: [parse] accepts no input with a character other than a digit, the
    plus sign, a minus sign (U+002D or U+2212, which the conversion reads as
    a minus), the dot or white space. *)
Theorem parse_accepts_chars (unit : Unit) (value : QString) (r : option Z) :
  parse unit value = (true, r) -> Forall (fun c => isAmountChar c = true) value.
Proof. apply parse_true_chars. Qed.

Lemma parse_accepts_chars_witness :
  Forall (fun c => isAmountChar c = true) (qs "-0.000 012").
Proof. apply (parse_accepts_chars MYT (qs "-0.000 012") (Some (-1200))). vm_compute. reflexivity. Defined.

(** The minus sign U+2212 is read as a minus. *)
Example parse_minus_sign : parse SAT [ch_minus_sign; 53] = (true, Some (-5)).
Proof. vm_compute. reflexivity. Qed.

(** X9: what a failed [parse] leaves in [*val_out]: either nothing is
    stored (the input is empty, has two dots, too many decimals or more
    than 18 characters) or 0 is stored (the number could not be read). *)
Theorem parse_failure_value (unit : Unit) (value : QString) (r : option Z) :
  parse unit value = (false, r) -> r = None \/ r = Some 0.
Proof.
  intros H. destruct (parse_cases unit value) as [Hf|(whole & dec & _ & _ & Hp)].
  - left. congruence.
  - rewrite Hp in H. destruct (toLongLong _) as [v ok] eqn:Ht. cbn [fst snd] in H.
    injection H as -> <-. right. f_equal. eapply toLongLong_failed. eassumption.
Qed.

Lemma parse_failure_value_witness : Some 0 = None \/ Some 0 = Some 0.
Proof. apply (parse_failure_value MYT (qs "abc")). vm_compute. reflexivity. Defined.

Lemma digitsValue_shift (s : QString) : forall acc acc' v,
  digitsValue acc s = Some v ->
  digitsValue acc' s = Some (v + (acc' - acc) * 10 ^ size s).
Proof.
  induction s as [|c s IH]; intros acc acc' v H.
  - cbn in *. injection H as <-. f_equal. change (size []) with 0. lia.
  - cbn [digitsValue] in *. destruct (isDigit c); [|discriminate].
    rewrite (IH _ (acc' * 10 + (c - ch_zero)) _ H). f_equal.
    rewrite size_cons. pose proof (size_nonneg s).
    rewrite Z.pow_add_r, Z.pow_1_r by lia. lia.
Qed.

(** X10: what [parse] makes of an unsigned decimal number.  Digits, a dot
    and at most [decimals(unit)] digits, no more than 18 digits in all once
    the fraction is filled up with zeros, give the number in base units:
    the part before the dot times [factor(unit)], plus the fraction scaled
    to the decimals of the unit.  Without a dot the number is the integer
    times [factor(unit)]. *)
Theorem parse_decimal (unit : Unit) (whole frac : QString) (vw vf : Z) :
  digitsValue 0 whole = Some vw -> digitsValue 0 frac = Some vf ->
  size frac <= decimals unit -> 1 <= size whole + decimals unit <= 18 ->
  parse unit (whole ++ ch_dot :: frac)
  = (true, Some (vw * factor unit + vf * 10 ^ (decimals unit - size frac)))
  /\ (1 <= size whole -> parse unit whole = (true, Some (vw * factor unit))).
Proof.
  intros Hw Hf Hfd Hsz.
  pose proof (digitsValue_digits _ _ _ Hw) as Hdw.
  pose proof (digitsValue_digits _ _ _ Hf) as Hdf.
  pose proof (size_nonneg whole) as Hw0. pose proof (size_nonneg frac) as Hf0.
  pose proof (decimals_range unit) as Hd.
  assert (Hconv : forall pad v, Forall (fun c => isDigit c = true) pad ->
            1 <= size (whole ++ pad) <= 18 -> digitsValue 0 (whole ++ pad) = Some v ->
            toLongLong (whole ++ pad) = (v, true)).
  { intros pad v Hp Hs Hv.
    pose proof (digitsValue_bound _ 0 _ ltac:(lia) Hv) as Hb.
    assert (10 ^ size (whole ++ pad) <= 10 ^ 18) by (apply Z.pow_le_mono_r; lia).
    apply (toLongLong_signed 0 v (whole ++ pad)); [| lia | assumption |].
    - apply Forall_app. now split.
    - unfold INT64_MAX. lia. }
  split.
  - unfold parse.
    assert (Hne : isEmpty (whole ++ ch_dot :: frac) = false) by now destruct whole.
    rewrite Hne. rewrite removeSpaces_app. change (ch_dot :: frac) with ([ch_dot] ++ frac).
    rewrite removeSpaces_app, (removeSpaces_digits whole Hdw), (removeSpaces_digits frac Hdf).
    change (removeSpaces [ch_dot]) with [ch_dot]. cbn [List.app].
    rewrite split_one by now apply digits_not_dot.
    cbn [List.length nth]. change (Z.of_nat 2 >? 2) with false.
    change (Z.of_nat 2 >? 1) with true. cbv iota.
    destruct (Z.gtb_spec (size frac) (decimals unit)); [lia|].
    set (pad := leftJustified (decimals unit) ch_zero frac).
    assert (Hpd : Forall (fun c => isDigit c = true) pad).
    { subst pad. unfold leftJustified. apply Forall_app. split; [assumption|].
      apply Forall_forall. intros x Hx. apply elem_of_replicate in Hx.
      now destruct Hx as [-> _]. }
    assert (Hps : size pad = decimals unit).
    { subst pad. unfold leftJustified. rewrite size_app, size_replicate. lia. }
    assert (Hpv : digitsValue 0 (whole ++ pad)
                  = Some (vw * factor unit + vf * 10 ^ (decimals unit - size frac))).
    { rewrite digitsValue_app, Hw. subst pad. unfold leftJustified.
      rewrite digitsValue_app, (digitsValue_shift frac 0 vw vf Hf), digitsValue_zeros.
      f_equal. rewrite Z2Nat.id by lia. rewrite factor_pow.
      replace (10 ^ decimals unit)
        with (10 ^ size frac * 10 ^ (decimals unit - size frac)).
      + lia.
      + rewrite <- Z.pow_add_r by lia. f_equal. lia. }
    destruct (Z.gtb_spec (size (whole ++ pad)) 18) as [Hbig|_];
      [rewrite size_app in Hbig; lia|].
    rewrite (Hconv pad _ Hpd ltac:(rewrite size_app; lia) Hpv). reflexivity.
  - intros Hw1. unfold parse.
    assert (Hne : isEmpty whole = false)
      by (destruct whole; [unfold size in Hw1; simpl in Hw1; lia | reflexivity]).
    rewrite Hne, (removeSpaces_digits whole Hdw), split_absent by now apply digits_not_dot.
    cbn [List.length nth]. change (Z.of_nat 1 >? 2) with false.
    change (Z.of_nat 1 >? 1) with false. cbv iota. change (size []) with 0.
    destruct (Z.gtb_spec 0 (decimals unit)); [lia|].
    set (pad := leftJustified (decimals unit) ch_zero []).
    assert (Hpe : pad = replicate (Z.to_nat (decimals unit)) ch_zero).
    { subst pad. unfold leftJustified. change (size []) with 0.
      now rewrite Z.sub_0_r. }
    assert (Hpd : Forall (fun c => isDigit c = true) pad).
    { rewrite Hpe. apply Forall_forall. intros x Hx. apply elem_of_replicate in Hx.
      now destruct Hx as [-> _]. }
    assert (Hps : size pad = decimals unit) by (rewrite Hpe, size_replicate; lia).
    assert (Hpv : digitsValue 0 (whole ++ pad) = Some (vw * factor unit)).
    { rewrite digitsValue_app, Hw, Hpe, digitsValue_zeros. f_equal.
      rewrite Z2Nat.id by lia. now rewrite factor_pow. }
    destruct (Z.gtb_spec (size (whole ++ pad)) 18) as [Hbig|_];
      [rewrite size_app in Hbig; lia|].
    rewrite (Hconv pad _ Hpd ltac:(rewrite size_app; lia) Hpv). reflexivity.
Qed.

Lemma parse_decimal_witness :
  parse MYT (qs "12" ++ ch_dot :: qs "345")
  = (true, Some (12 * factor MYT + 345 * 10 ^ (decimals MYT - size (qs "345")))).
Proof.
  apply (parse_decimal MYT (qs "12") (qs "345") 12 345);
    [reflexivity | reflexivity | discriminate | split; discriminate].
Defined.

(** *** Names, and amounts written with them *)

(** X11: the units have different long names, different short names and
    different descriptions: an entry of the drop-down box tells its unit. *)
Theorem names_injective (u v : Unit) :
  (longName u = longName v -> u = v)
  /\ (shortName u = shortName v -> u = v)
  /\ (description u = description v -> u = v).
Proof.
  destruct u, v; repeat split; intros H; try reflexivity; vm_compute in H; discriminate H.
Qed.

Lemma names_injective_witness : uMYT = uMYT.
Proof. apply (names_injective uMYT uMYT). reflexivity. Defined.

Lemma shortName_letter (unit : Unit) :
  exists c rest, shortName unit = c :: rest /\ isAmountChar c = false.
Proof. destruct unit; do 2 eexists; (split; [reflexivity|]); reflexivity. Qed.

(** X12: an amount written with its unit is not an amount for [parse]: the
    name of the unit makes [parse] return false, whatever the amount and the
    options. *)
Theorem parse_rejects_formatWithUnit (unit unit' : Unit) (amount : Z) (plussign : bool)
    (separators : SeparatorStyle) :
  Z.abs amount < 2 ^ 63 ->
  fst (parse unit' (formatWithUnit unit amount plussign separators)) = false.
Proof.
  intros _. destruct (parse unit' (formatWithUnit unit amount plussign separators)) as [[|] r] eqn:Hp;
    [exfalso | reflexivity].
  apply parse_true_chars in Hp. unfold formatWithUnit in Hp.
  apply Forall_app in Hp as (_ & Hp). apply Forall_app in Hp as (_ & Hp).
  destruct (shortName_letter unit) as (c & rest & Heq & Hc). rewrite Heq in Hp.
  inversion Hp; subst. congruence.
Qed.

Lemma parse_rejects_formatWithUnit_witness :
  fst (parse MYT (formatWithUnit MYT 150000000 false STANDARD)) = false.
Proof. apply parse_rejects_formatWithUnit. reflexivity. Defined.

Lemma replaceStr_absent (before : QChar) (after s : QString) :
  Forall (fun x => x <> before) after ->
  Forall (fun x => x <> before) (replaceStr before after s).
Proof.
  intros Ha. unfold replaceStr. induction s as [|c s IH]; [constructor|].
  cbn [flat_map]. apply Forall_app. split; [|assumption].
  destruct (Z.eqb_spec c before); [assumption | now repeat constructor].
Qed.

Lemma arg_span (str : QString) :
  arg str (qs "<span style='white-space: nowrap;'>%1</span>")
  = qs "<span style='white-space: nowrap;'>" ++ str ++ qs "</span>".
Proof. vm_compute. reflexivity. Qed.

(** X13: the HTML form of an amount holds no thin space: each one is
    replaced by the markup of [THIN_SP_HTML], and the result stands between
    the tags of a span that does not wrap. *)
Theorem formatHtmlWithUnit_no_thin_space (unit : Unit) (amount : Z) (plussign : bool)
    (separators : SeparatorStyle) :
  Z.abs amount < 2 ^ 63 ->
  Forall (fun c => c <> THIN_SP_CP) (formatHtmlWithUnit unit amount plussign separators)
  /\ formatHtmlWithUnit unit amount plussign separators
     = qs "<span style='white-space: nowrap;'>"
       ++ replaceStr THIN_SP_CP THIN_SP_HTML (formatWithUnit unit amount plussign separators)
       ++ qs "</span>".
Proof.
  intros _. unfold formatHtmlWithUnit. cbv zeta. rewrite arg_span. split; [|reflexivity].
  assert (Hascii : forall t : string, Forall (fun c => c <> THIN_SP_CP) (qs t)).
  { induction t as [|a t IH]; [constructor|]. cbn [qs]. constructor; [|assumption].
    pose proof (N_ascii_bounded a) as Hb. unfold THIN_SP_CP. lia. }
  apply Forall_app. split; [apply Hascii|]. apply Forall_app. split; [|apply Hascii].
  apply replaceStr_absent. apply Hascii.
Qed.

Lemma formatHtmlWithUnit_no_thin_space_witness :
  Forall (fun c => c <> THIN_SP_CP) (formatHtmlWithUnit MYT 123456789012345 false ALWAYS).
Proof. apply (formatHtmlWithUnit_no_thin_space MYT 123456789012345 false ALWAYS). reflexivity. Defined.

(** *** Amounts of fixed width *)

Lemma size_insertSeparators (fuel : nat) : forall i q s s',
  size s = size s' ->
  size (insertSeparators fuel i q s) = size (insertSeparators fuel i q s').
Proof.
  induction fuel as [|fuel IH]; intros i q s s' H; [assumption|].
  cbn [insertSeparators]. destruct (i <? q); [|assumption].
  apply IH. now apply size_insert.
Qed.

(** A padded amount below 10^16 is as wide as the padded zero. *)
Lemma format_justified_size (unit : Unit) (amount : Z) (separators : SeparatorStyle) :
  0 <= amount < 10 ^ 16 ->
  size (format unit amount false separators true)
  = size (format unit 0 false separators true).
Proof.
  intros Ha.
  assert (Hw : forall a, 0 <= a < 10 ^ 16 ->
            size (rightJustified (MAX_DIGITS_MYT - decimals unit) ch_space (whole_of unit a))
            = MAX_DIGITS_MYT - decimals unit).
  { intros a Hr. unfold rightJustified, whole_of. rewrite size_app, size_replicate.
    assert (Hf : 0 < factor unit) by (destruct unit; simpl; lia).
    pose proof (decimals_range unit) as Hd.
    assert (Hq : 0 <= Z.abs a / factor unit < 10 ^ 19).
    { split; [apply Z.div_pos; lia|].
      apply Z.le_lt_trans with (Z.abs a); [|lia].
      apply Z.div_le_upper_bound; nia. }
    assert (Hqd : Z.abs a / factor unit < 10 ^ (16 - decimals unit)).
    { apply Z.div_lt_upper_bound; [lia|]. rewrite factor_pow, <- Z.pow_add_r by lia.
      replace (decimals unit + (16 - decimals unit)) with 16 by lia. lia. }
    pose proof (digits_size_le _ (16 - decimals unit) Hq ltac:(lia) Hqd).
    unfold MAX_DIGITS_MYT. lia. }
  assert (Hfr : forall a, size (fraction_of unit a) = size (fraction_of unit 0)).
  { intros a. destruct (fraction_of_digits unit a) as [Ha0|(R & HR & _ & HszR)];
      destruct (fraction_of_digits unit 0) as [H0|(R0 & HR0 & _ & HszR0)];
      rewrite ?Ha0, ?H0, ?HR, ?HR0; try reflexivity.
    - unfold fraction_of in *. destruct (decimals unit >? 0); discriminate.
    - unfold fraction_of in *. destruct (decimals unit >? 0); discriminate.
    - rewrite !size_cons. lia. }
  destruct (format_split unit amount false separators true) as (Q & -> & HQ).
  destruct (format_split unit 0 false separators true) as (Q' & -> & HQ').
  cbv zeta in HQ, HQ'. rewrite !size_app, Hfr.
  assert (Hs : sign_of false amount = sign_of false 0).
  { unfold sign_of. destruct (Z.ltb_spec amount 0); [lia | reflexivity]. }
  rewrite Hs. f_equal. f_equal.
  pose proof (Hw amount Ha) as H1. pose proof (Hw 0 ltac:(lia)) as H2.
  subst Q Q'. rewrite H1, H2.
  destruct (SeparatorStyle_eqb separators ALWAYS
            || SeparatorStyle_eqb separators STANDARD
               && (MAX_DIGITS_MYT - decimals unit >? 4)); [|lia].
  apply size_insertSeparators. lia.
Qed.

Lemma size_replace (a b : QChar) (s : QString) : size (replace a b s) = size s.
Proof. unfold size, replace. now rewrite List.length_map. Qed.

Lemma masked_no_digit (unit : Unit) (separators : SeparatorStyle) :
  Forall (fun c => isDigit c = false)
    (replace ch_zero ch_hash (format unit 0 false separators true) ++ qs " "
     ++ shortName unit).
Proof.
  destruct unit, separators; vm_compute; repeat (constructor; [reflexivity|]); constructor.
Qed.

(** X14: the private form of an amount tells nothing of it.  For an amount
    from 0 up to 10^16 the string with [privacy] set is as long as the
    string that shows the amount, it is the same for every such amount, and
    it holds no digit. *)
Theorem formatWithPrivacy_masks (unit : Unit) (amount : Z) (separators : SeparatorStyle) :
  0 <= amount < 10 ^ 16 ->
  exists masked shown,
    formatWithPrivacy unit amount separators true = Some masked
    /\ formatWithPrivacy unit amount separators false = Some shown
    /\ size masked = size shown
    /\ formatWithPrivacy unit 0 separators true = Some masked
    /\ Forall (fun c => isDigit c = false) masked.
Proof.
  intros Ha. unfold formatWithPrivacy.
  destruct (Z.ltb_spec amount 0); [lia|]. change (0 <? 0) with false. cbv iota zeta.
  do 2 eexists. split; [reflexivity|]. split; [reflexivity|].
  split; [|split; [reflexivity | apply masked_no_digit]].
  rewrite !size_app, size_replace. f_equal. symmetry. now apply format_justified_size.
Qed.

Lemma formatWithPrivacy_masks_witness :
  exists masked shown,
    formatWithPrivacy MYT 2100000000000000 STANDARD true = Some masked
    /\ formatWithPrivacy MYT 2100000000000000 STANDARD false = Some shown
    /\ size masked = size shown
    /\ formatWithPrivacy MYT 0 STANDARD true = Some masked
    /\ Forall (fun c => isDigit c = false) masked.
Proof. apply formatWithPrivacy_masks. split; [discriminate | reflexivity]. Defined.

(** The bound cannot be raised: at 10^16 the shown amount is one character
    longer than the masked one. *)
Example formatWithPrivacy_limit :
  (size <$> formatWithPrivacy MYT (10 ^ 16) NEVER true) = Some 21
  /\ (size <$> formatWithPrivacy MYT (10 ^ 16) NEVER false) = Some 22.
Proof. split; vm_compute; reflexivity. Qed.

(** *** The stream operators and the list model *)

Lemma FromQint8_Some (num : Z) (u : Unit) : FromQint8 num = Some u -> num = ToQint8 u.
Proof.
  unfold FromQint8. destruct num as [|p|p]; [now intros [= <-]| |discriminate].
  destruct p as [[p|p|]|[p|p|]|]; try discriminate; now intros [= <-].
Qed.

(** X15: [FromQint8] knows the four bytes [ToQint8] writes and no other:
    a byte stands for a unit exactly when it is the byte of that unit, the
    bytes lie between 0 and 3, and every other byte runs into the
    assertion. *)
Theorem FromQint8_domain (num : Z) :
  (forall u, FromQint8 num = Some u <-> num = ToQint8 u)
  /\ (FromQint8 num = None <-> ~ (0 <= num <= 3)).
Proof.
  split.
  - intros u. split; [apply FromQint8_Some | intros ->; now destruct u].
  - split.
    + intros Hn Hr.
      assert (Hc : num = 0 \/ num = 1 \/ num = 2 \/ num = 3) by lia.
      destruct Hc as [->|[->|[->| ->]]]; discriminate Hn.
    + intros Hr. destruct (FromQint8 num) as [u|] eqn:Hu; [exfalso | reflexivity].
      apply FromQint8_Some in Hu. apply Hr. destruct u; cbn in Hu; lia.
Qed.

Lemma FromQint8_domain_witness : 2 = ToQint8 uMYT.
Proof. apply (proj1 (FromQint8_domain 2)). reflexivity. Defined.

Lemma write_units_app (units : list Unit) : forall out,
  write_units out units = out ++ List.map ToQint8 units.
Proof.
  unfold write_units. induction units as [|u units IH]; intros out; cbn [fold_left List.map].
  - now rewrite List.app_nil_r.
  - rewrite IH. unfold write_unit. now rewrite <- List.app_assoc.
Qed.

Lemma read_units_bytes (units : list Unit) (rest : QDataStream) :
  read_units (List.length units) (List.map ToQint8 units ++ rest)
  = (List.map Some units, rest).
Proof.
  induction units as [|u units IH]; [reflexivity|].
  cbn [List.length List.map List.app read_units].
  rewrite read_unit_next, IH. reflexivity.
Qed.

(** X16: units written to a stream one after the other with [operator<<]
    are read back by [operator>>] in the same order, and the stream is left
    as it was before them; what stood in the stream before is read first. *)
Theorem stream_roundtrip (before units : list Unit) :
  read_units (List.length units) (write_units [] units) = (List.map Some units, [])
  /\ read_units (List.length before) (write_units (write_units [] before) units)
     = (List.map Some before, write_units [] units).
Proof.
  rewrite !write_units_app. cbn [List.app]. split.
  - rewrite <- (List.app_nil_r (List.map ToQint8 units)). apply read_units_bytes.
  - apply read_units_bytes.
Qed.

(** X17: the list model has one row for each unit, and the row of a unit is
    the byte the unit is written with.  At such a row the unit role gives
    the unit, the display and edit roles its long name and the tool tip
    role its description; at any other row, and for any other role, the
    answer is the invalid variant. *)
Theorem data_rows (row role : Z) :
  rowCount = 4
  /\ (forall u, FromQint8 row = Some u ->
        data row UnitRole = QVUnit u
        /\ data row DisplayRole = QVString (longName u)
        /\ data row EditRole = QVString (longName u)
        /\ data row ToolTipRole = QVString (description u))
  /\ (FromQint8 row = None -> data row role = QVInvalid)
  /\ (role <> DisplayRole -> role <> EditRole -> role <> ToolTipRole -> role <> UnitRole ->
      data row role = QVInvalid).
Proof.
  split; [reflexivity|]. split; [|split].
  - intros u Hu. apply FromQint8_Some in Hu. subst row. now destruct u.
  - intros Hn. unfold data.
    destruct (Z.leb_spec 0 row); [|reflexivity].
    destruct (Z.ltb_spec row (Z.of_nat (List.length unitlist))) as [Hlt|]; [|reflexivity].
    exfalso. change (Z.of_nat (List.length unitlist)) with 4 in Hlt.
    assert (Hc : row = 0 \/ row = 1 \/ row = 2 \/ row = 3) by lia.
    destruct Hc as [->|[->|[->| ->]]]; discriminate Hn.
  - intros H1 H2 H3 H4. unfold data.
    destruct (_ && _); [|reflexivity].
    destruct (nth_error unitlist (Z.to_nat row)); [|reflexivity].
    destruct (Z.eqb_spec role EditRole); [contradiction|].
    destruct (Z.eqb_spec role DisplayRole); [contradiction|].
    destruct (Z.eqb_spec role ToolTipRole); [contradiction|].
    destruct (Z.eqb_spec role UnitRole); [contradiction | reflexivity].
Qed.

Lemma data_rows_witness :
  data 2 UnitRole = QVUnit uMYT
  /\ data 2 DisplayRole = QVString (longName uMYT)
  /\ data 2 EditRole = QVString (longName uMYT)
  /\ data 2 ToolTipRole = QVString (description uMYT).
Proof. apply (data_rows 2 0). reflexivity. Defined.

End UnitsFacts.

(** ** Facts about the UTXO cache *)
Module CoinsFacts.
Import Coins.

Lemma utxo_lookup (c : CoinsViewCache) (ref : OutputReference) :
  utxo c !! ref = getCoin c ref.
Proof.
  unfold utxo, getCoin. rewrite lookup_merge.
  destruct (cacheCoins c !! ref), (store_coins (parent c) !! ref); reflexivity.
Qed.

Lemma utxo_newCache (s : Store) : utxo (newCache s) = store_coins s.
Proof.
  apply map_eq. intros k. rewrite utxo_lookup. unfold getCoin, newCache. simpl.
  now rewrite lookup_empty.
Qed.

Lemma cache_wf_newCache (s : Store) : cache_wf (newCache s).
Proof. intros ref e H. unfold newCache in H. simpl in H. now rewrite lookup_empty in H. Qed.

(** A read changes nothing, and what [spendCoin] returns is what [getCoin]
    reads. *)
Lemma spendCoin_fst (c : CoinsViewCache) (ref : OutputReference) :
  (spendCoin c ref).1 = getCoin c ref.
Proof.
  unfold spendCoin, getCoin.
  destruct (cacheCoins c !! ref) as [e|].
  - destruct (entry_coin e); [destruct (entry_fresh e)|]; reflexivity.
  - destruct (store_coins (parent c) !! ref); reflexivity.
Qed.

Lemma spendCoin_None (c c' : CoinsViewCache) (ref : OutputReference) :
  spendCoin c ref = (None, c') -> utxo c !! ref = None /\ c' = c.
Proof.
  intros H. rewrite utxo_lookup, <- spendCoin_fst, H. split; [reflexivity|].
  unfold spendCoin in H.
  destruct (cacheCoins c !! ref) as [e|].
  - destruct (entry_coin e); [destruct (entry_fresh e)|]; congruence.
  - destruct (store_coins (parent c) !! ref); congruence.
Qed.

Lemma utxo_withCoins_insert (c : CoinsViewCache) (ref : OutputReference) (e : CacheEntry) :
  utxo (withCoins c (<[ref := e]> (cacheCoins c)))
  = match entry_coin e with
    | Some coin => <[ref := coin]> (utxo c)
    | None => delete ref (utxo c)
    end.
Proof.
  apply map_eq. intros k. rewrite utxo_lookup. unfold getCoin, withCoins. simpl.
  destruct (decide (k = ref)) as [->|Hne].
  - rewrite lookup_insert_eq.
    destruct (entry_coin e); [now rewrite lookup_insert_eq | now rewrite lookup_delete_eq].
  - rewrite lookup_insert_ne by congruence.
    destruct (entry_coin e);
      [rewrite lookup_insert_ne by congruence | rewrite lookup_delete_ne by congruence];
      now rewrite utxo_lookup.
Qed.

Lemma cache_wf_insert (c : CoinsViewCache) (ref : OutputReference) (e : CacheEntry) :
  cache_wf c ->
  (entry_fresh e = true -> store_coins (parent c) !! ref = None) ->
  entry_dirty e = true ->
  cache_wf (withCoins c (<[ref := e]> (cacheCoins c))).
Proof.
  intros Hwf Hf Hd k e' Hk. unfold withCoins in *. simpl in *.
  destruct (decide (k = ref)) as [->|Hne].
  - rewrite lookup_insert_eq in Hk. injection Hk as <-. split; [assumption | congruence].
  - rewrite lookup_insert_ne in Hk by congruence. now apply Hwf.
Qed.

Lemma cache_wf_delete (c : CoinsViewCache) (ref : OutputReference) :
  cache_wf c -> cache_wf (withCoins c (delete ref (cacheCoins c))).
Proof.
  intros Hwf k e' Hk. unfold withCoins in *. simpl in *.
  destruct (decide (k = ref)) as [->|Hne].
  - now rewrite lookup_delete_eq in Hk.
  - rewrite lookup_delete_ne in Hk by congruence. now apply Hwf.
Qed.

(** Spending removes the coin from the UTXO set, whichever way the layer
    records it. *)
Lemma spendCoin_Some (c c' : CoinsViewCache) (ref : OutputReference) (coin : Coin) :
  cache_wf c -> spendCoin c ref = (Some coin, c') ->
  utxo c !! ref = Some coin /\ utxo c' = delete ref (utxo c) /\ cache_wf c'
  /\ hashBlock c' = hashBlock c /\ parent c' = parent c.
Proof.
  intros Hwf H. split.
  { now rewrite utxo_lookup, <- spendCoin_fst, H. }
  unfold spendCoin in H.
  destruct (cacheCoins c !! ref) as [e|] eqn:He.
  - destruct (entry_coin e) as [coin'|] eqn:Hc; [|congruence].
    destruct (entry_fresh e) eqn:Hfr; injection H as <- <-.
    + split; [|split; [now apply cache_wf_delete | split; reflexivity]].
      apply map_eq. intros k. rewrite utxo_lookup. unfold getCoin, withCoins. simpl.
      destruct (decide (k = ref)) as [->|Hne].
      * rewrite !lookup_delete_eq. now apply (Hwf ref e He).
      * rewrite !lookup_delete_ne by congruence. now rewrite utxo_lookup.
    + split; [|split; [|split; reflexivity]].
      * now rewrite utxo_withCoins_insert.
      * apply cache_wf_insert; [assumption | discriminate | reflexivity].
  - destruct (store_coins (parent c) !! ref) as [coin'|]; [|congruence].
    injection H as <- <-.
    split; [|split; [|split; reflexivity]].
    + now rewrite utxo_withCoins_insert.
    + apply cache_wf_insert; [assumption | discriminate | reflexivity].
Qed.

(** Adding puts the coin into the UTXO set. *)
Lemma addCoin_Ok (c c' : CoinsViewCache) (ref : OutputReference) (coin : Coin) (f : bool) :
  cache_wf c -> addCoin c ref coin f = Ok c' ->
  utxo c' = <[ref := coin]> (utxo c) /\ cache_wf c'
  /\ hashBlock c' = hashBlock c /\ parent c' = parent c.
Proof.
  intros Hwf H. unfold addCoin in H.
  assert (Hput : forall fresh,
            (fresh = true -> store_coins (parent c) !! ref = None) ->
            Ok (withCoins c (<[ref := {| entry_coin := Some coin; entry_dirty := true;
                                         entry_fresh := fresh |}]> (cacheCoins c))) = Ok c' ->
            utxo c' = <[ref := coin]> (utxo c) /\ cache_wf c'
            /\ hashBlock c' = hashBlock c /\ parent c' = parent c).
  { intros fresh Hfr [= <-]. split; [now rewrite utxo_withCoins_insert|].
    split; [|split; reflexivity].
    apply cache_wf_insert; [assumption | exact Hfr | reflexivity]. }
  destruct (cacheCoins c !! ref) as [e|] eqn:He.
  - destruct (entry_coin e) as [old|]; [|apply (Hput false); [discriminate | exact H]].
    destruct (entry_fresh e) eqn:Hfe; [|discriminate].
    apply (Hput true); [|exact H]. intros _. now apply (Hwf ref e He).
  - destruct (store_coins (parent c) !! ref) eqn:Hp; [discriminate|].
    apply (Hput f); [reflexivity | exact H].
Qed.

Lemma addCoin_absent (c : CoinsViewCache) (ref : OutputReference) (coin : Coin) (f : bool) :
  utxo c !! ref = None -> exists c', addCoin c ref coin f = Ok c'.
Proof.
  intros H. rewrite utxo_lookup in H. unfold addCoin, getCoin in *.
  destruct (cacheCoins c !! ref) as [e|].
  - rewrite H. eauto.
  - rewrite H. eauto.
Qed.

(** The errors of [addCoin] are fatal. *)
Lemma addCoin_Err (c : CoinsViewCache) (ref : OutputReference) (coin : Coin) (f : bool)
    (r : RejectReason) :
  addCoin c ref coin f = Err r ->
  r = InternalInvariant /\ exists old, utxo c !! ref = Some old.
Proof.
  rewrite utxo_lookup. unfold addCoin, getCoin.
  destruct (cacheCoins c !! ref) as [e|].
  - destruct (entry_coin e) as [old|]; [|discriminate].
    destruct (entry_fresh e); [discriminate|]. intros [= <-]. eauto.
  - destruct (store_coins (parent c) !! ref) as [old|]; [|discriminate].
    intros [= <-]. eauto.
Qed.

Lemma spendCoin_present (c : CoinsViewCache) (ref : OutputReference) (coin : Coin) :
  utxo c !! ref = Some coin -> exists c', spendCoin c ref = (Some coin, c').
Proof.
  intros H. rewrite utxo_lookup, <- spendCoin_fst in H.
  destruct (spendCoin c ref) as [o c']. simpl in H. subst o. eauto.
Qed.

Lemma fetchCoin_utxo (c : CoinsViewCache) (ref : OutputReference) :
  utxo (fetchCoin c ref) = utxo c.
Proof.
  unfold fetchCoin. destruct (cacheCoins c !! ref) eqn:He; [reflexivity|].
  destruct (store_coins (parent c) !! ref) as [coin|] eqn:Hp; [|reflexivity].
  rewrite utxo_withCoins_insert. simpl. apply insert_id.
  rewrite utxo_lookup. unfold getCoin. now rewrite He.
Qed.

Lemma fetchCoin_wf (c : CoinsViewCache) (ref : OutputReference) :
  cache_wf c -> cache_wf (fetchCoin c ref).
Proof.
  intros Hwf. unfold fetchCoin. destruct (cacheCoins c !! ref) eqn:He; [assumption|].
  destruct (store_coins (parent c) !! ref) as [coin|] eqn:Hp; [|assumption].
  intros k e Hk. unfold withCoins in *. simpl in *.
  destruct (decide (k = ref)) as [->|Hne].
  - rewrite lookup_insert_eq in Hk. injection Hk as <-. simpl. split; [discriminate|].
    intros _. now rewrite Hp.
  - rewrite lookup_insert_ne in Hk by congruence. now apply Hwf.
Qed.

(** *** Flushing *)

Lemma flushBatch_lookup (c : CoinsViewCache) (ref : OutputReference) :
  batch_coins (flushBatch c) !! ref
  = match cacheCoins c !! ref with
    | Some e => if entry_dirty e then Some (entry_coin e) else None
    | None => None
    end.
Proof.
  unfold flushBatch. simpl. rewrite lookup_fmap.
  destruct (cacheCoins c !! ref) as [e|] eqn:He.
  - destruct (entry_dirty e) eqn:Hd.
    + erewrite (proj2 (map_lookup_filter_Some _ _ _ _)); [reflexivity|]. now split.
    + rewrite (proj2 (map_lookup_filter_None _ _ _)); [reflexivity|].
      right. intros e' He'. simpl. congruence.
  - rewrite (proj2 (map_lookup_filter_None _ _ _)); [reflexivity|]. now left.
Qed.

(** What the parent holds once the batch of a flush is applied. *)
Lemma flushed_lookup (c : CoinsViewCache) (ref : OutputReference) :
  store_coins (applyBatch (flushBatch c) (parent c)) !! ref
  = match cacheCoins c !! ref with
    | Some e => if entry_dirty e then entry_coin e else store_coins (parent c) !! ref
    | None => store_coins (parent c) !! ref
    end.
Proof.
  unfold applyBatch. cbn [store_coins]. rewrite lookup_merge, flushBatch_lookup.
  destruct (cacheCoins c !! ref) as [e|]; [destruct (entry_dirty e)|];
    destruct (store_coins (parent c) !! ref); reflexivity.
Qed.

Lemma withParent_same (c : CoinsViewCache) : withParent c (parent c) = c.
Proof. now destruct c. Qed.

Lemma flush_failure (c : CoinsViewCache) : flush false c = (Err IoError, c).
Proof. unfold flush, flushTo, batchWrite. now rewrite withParent_same. Qed.

Lemma flush_success (c : CoinsViewCache) :
  flush true c
  = (Ok tt, {| cacheCoins := ∅; hashBlock := hashBlock c;
               parent := applyBatch (flushBatch c) (parent c) |}).
Proof. reflexivity. Qed.

Lemma batchWrite_atomic (device_ok : bool) : atomicDevice (batchWrite device_ok).
Proof. intros b s. destruct device_ok; [now left | now right]. Qed.

(** Once flushed, the store holds the UTXO set the cache stood for. *)
Lemma flushed_store (c : CoinsViewCache) :
  cache_wf c -> store_coins (applyBatch (flushBatch c) (parent c)) = utxo c.
Proof.
  intros Hwf. apply map_eq. intros k. rewrite flushed_lookup, utxo_lookup. unfold getCoin.
  destruct (cacheCoins c !! k) as [e|] eqn:He; [|reflexivity].
  destruct (entry_dirty e) eqn:Hd; [reflexivity|].
  symmetry. now apply (Hwf k e He).
Qed.

(** C6: [flush] over an atomic store is all-or-nothing.  When the write is
    refused, the error is IoError, the cache is the one before the call, the
    entries of the layer and the parent included, and any later attempt does
    what it would have done in place of the first.  When the write succeeds,
    the layer is empty; the parent is the old parent with the one batch of
    the flush applied; that batch holds the best-block hash of the layer and
    one operation for each dirty entry and for nothing else; at every output
    reference the parent then holds the coin state of the dirty entry, if
    there is one, and else what it held before; its best-block hash is the
    one of the layer; and for a consistent cache the parent holds exactly
    the UTXO set the cache stood for, and the cache stands for it still. *)
Theorem flush_all_or_nothing (write : Device) (c : CoinsViewCache) :
  atomicDevice write ->
  match flushTo write c with
  | (Err r, c') =>
      r = IoError /\ c' = c /\ forall write', flushTo write' c' = flushTo write' c
  | (Ok _, c') =>
      cacheCoins c' = ∅
      /\ write (flushBatch c) (parent c) = (Ok tt, parent c')
      /\ parent c' = applyBatch (flushBatch c) (parent c)
      /\ batch_best (flushBatch c) = hashBlock c
      /\ (forall ref op, batch_coins (flushBatch c) !! ref = Some op <->
            exists e, cacheCoins c !! ref = Some e /\ entry_dirty e = true
                      /\ op = entry_coin e)
      /\ (forall ref, store_coins (parent c') !! ref
                      = match cacheCoins c !! ref with
                        | Some e => if entry_dirty e then entry_coin e
                                    else store_coins (parent c) !! ref
                        | None => store_coins (parent c) !! ref
                        end)
      /\ store_best (parent c') = hashBlock c
      /\ hashBlock c' = hashBlock c
      /\ cache_wf c'
      /\ (cache_wf c -> store_coins (parent c') = utxo c /\ utxo c' = utxo c)
  end.
Proof.
  intros Hat. unfold flushTo.
  destruct (Hat (flushBatch c) (parent c)) as [-> | ->].
  - cbn [cacheCoins parent hashBlock].
    split; [reflexivity|]. split; [reflexivity|]. split; [reflexivity|].
    split; [reflexivity|]. split; [|split; [apply flushed_lookup|]].
    + intros ref op. rewrite flushBatch_lookup. split.
      * destruct (cacheCoins c !! ref) as [e|]; [|discriminate].
        destruct (entry_dirty e) eqn:Hd; [|discriminate].
        intros [= <-]. now exists e.
      * intros (e & -> & -> & ->). reflexivity.
    + split; [reflexivity|]. split; [reflexivity|]. split.
      * intros k e Hk. cbn in Hk. now rewrite lookup_empty in Hk.
      * intros Hwf. split; [now apply flushed_store|].
        apply map_eq. intros k. rewrite !utxo_lookup. unfold getCoin.
        cbn [cacheCoins parent]. rewrite lookup_empty, flushed_lookup.
        destruct (cacheCoins c !! k) as [e|] eqn:He; [|reflexivity].
        destruct (entry_dirty e) eqn:Hd; [reflexivity|].
        symmetry. now apply (Hwf k e He).
  - rewrite withParent_same. now split.
Qed.

(** Over a store that is not atomic the flush is not all-or-nothing: the
    refused write of a dirty coin leaves the coin in the parent. *)
Lemma flush_torn (c : CoinsViewCache) (ref : OutputReference) (coin : Coin) :
  cacheCoins c !! ref = Some {| entry_coin := Some coin; entry_dirty := true;
                                entry_fresh := true |} ->
  store_coins (parent c) !! ref = None ->
  exists c', flushTo tornWrite c = (Err IoError, c') /\ c' <> c
             /\ store_coins (parent c') !! ref = Some coin.
Proof.
  intros He Hp. eexists. split; [reflexivity|].
  assert (Hc : store_coins (parent (withParent c
                 {| store_coins := store_coins (applyBatch (flushBatch c) (parent c));
                    store_best := store_best (parent c) |})) !! ref = Some coin).
  { cbn [withParent parent store_coins]. rewrite flushed_lookup, He. reflexivity. }
  split; [|exact Hc]. intros Heq. rewrite Heq in Hc. congruence.
Qed.

(** A failed flush can be retried: the retry writes what the first attempt
    would have written. *)
Lemma flush_retry (c : CoinsViewCache) :
  flush true (flush false c).2 = flush true c.
Proof. now rewrite flush_failure. Qed.

(** A flush does not change the UTXO set the cache stands for. *)
Lemma flush_utxo (device_ok : bool) (c : CoinsViewCache) :
  cache_wf c -> utxo (flush device_ok c).2 = utxo c.
Proof.
  intros Hwf. destruct device_ok; [|now rewrite flush_failure].
  rewrite flush_success. cbn [snd]. apply map_eq. intros k.
  rewrite !utxo_lookup. unfold getCoin. cbn [cacheCoins parent].
  rewrite lookup_empty, flushed_lookup.
  destruct (cacheCoins c !! k) as [e|] eqn:He; [|reflexivity].
  destruct (entry_dirty e) eqn:Hd; [reflexivity|].
  symmetry. now apply (Hwf k e He).
Qed.


Lemma flush_wf (device_ok : bool) (c : CoinsViewCache) :
  cache_wf c -> cache_wf (flush device_ok c).2.
Proof.
  intros Hwf. destruct device_ok; [|now rewrite flush_failure].
  rewrite flush_success. intros k e Hk. cbn in Hk. now rewrite lookup_empty in Hk.
Qed.

End CoinsFacts.

(** ** Facts about connecting and disconnecting blocks *)
Module ValidationFacts.
Import Coins CoinsFacts Validation.

(** Closes a conjunction of facts that are hypotheses or follow by
    rewriting. *)
Ltac conjs :=
  unfold sameBase;
  repeat match goal with |- _ /\ _ => split end;
  solve [assumption | reflexivity | congruence].

Lemma sameBase_refl (c : CoinsViewCache) : cache_wf c -> sameBase c c.
Proof. intros H. conjs. Qed.

Lemma sameBase_trans (c1 c2 c3 : CoinsViewCache) :
  sameBase c1 c2 -> sameBase c2 c3 -> sameBase c1 c3.
Proof. intros (? & ? & ?) (? & ? & ?). conjs. Qed.

Lemma undoes_refl (c : CoinsViewCache) : undoes Ok c c.
Proof. intros d Hwf Hd. exists d. conjs. Qed.

(** Undoing composes backwards. *)
Lemma undoes_bind (f g : CoinsViewCache -> Result CoinsViewCache) (c1 c2 c3 : CoinsViewCache) :
  undoes f c1 c2 -> undoes g c2 c3 -> undoes (fun d => bind (g d) f) c1 c3.
Proof.
  intros Hf Hg d Hwf Hd.
  destruct (Hg d Hwf Hd) as (d1 & Hg1 & Hu1 & Hwf1 & Hh1 & Hp1).
  destruct (Hf d1 Hwf1 Hu1) as (d2 & Hf2 & Hu2 & Hwf2 & Hh2 & Hp2).
  exists d2. rewrite Hg1. cbn [bind]. conjs.
Qed.

Section ConnectFacts.
Variable P : ConsensusParams.
Variable height : nat.

(** Spending the inputs of a transaction: the coins recorded are those of
    the references named, and restoring them undoes the spending. *)
Lemma spendInputs_undo (ins : list TxIn) : forall c seen c' seen' sp,
  cache_wf c -> spendInputs P height ins c seen = Ok (c', seen', sp) ->
  sameBase c c' /\ List.map fst sp = List.map prevout ins
  /\ undoes (restoreInputs sp) c c'.
Proof.
  induction ins as [|i rest IH]; intros c seen c' seen' sp Hwf H; cbn [spendInputs] in H.
  - injection H as <- <- <-. split; [now apply sameBase_refl|]. split; [reflexivity|].
    apply undoes_refl.
  - destruct (bool_decide (prevout i ∈ seen)); [discriminate|].
    destruct (spendCoin c (prevout i)) as [[coin|] c1] eqn:Hs; [|discriminate].
    destruct (coin_isReward coin && _); [discriminate|].
    destruct (spendInputs P height rest c1 _) as [[[c2 seen2] sp2]|] eqn:Hrest;
      [|discriminate].
    cbn [bind] in H. injection H as <- <- <-.
    destruct (spendCoin_Some _ _ _ _ Hwf Hs) as (Hin & Hdel & Hwf1 & Hh1 & Hp1).
    destruct (IH _ _ _ _ _ Hwf1 Hrest) as (Hbase & Hrefs & Hundo).
    split; [eapply sameBase_trans; [|exact Hbase]; conjs|].
    split; [cbn; now f_equal|].
    intros d Hwfd Hd. cbn [restoreInputs].
    destruct (Hundo d Hwfd Hd) as (d1 & Hr1 & Hu1 & Hwfd1 & Hhd1 & Hpd1).
    rewrite Hr1. cbn [bind].
    assert (Habs : utxo d1 !! prevout i = None).
    { rewrite Hu1, Hdel. apply lookup_delete_eq. }
    destruct (addCoin_absent d1 (prevout i) coin false Habs) as (d2 & Hadd).
    destruct (addCoin_Ok _ _ _ _ _ Hwfd1 Hadd) as (Hins & Hwfd2 & Hhd2 & Hpd2).
    exists d2. split; [assumption|]. split.
    + rewrite Hins, Hu1, Hdel, insert_delete_eq. now apply insert_id.
    + conjs.
Qed.

(** The UTXO set after the inputs are spent. *)
Lemma spendInputs_utxo (ins : list TxIn) : forall c seen c' seen' sp,
  cache_wf c -> spendInputs P height ins c seen = Ok (c', seen', sp) ->
  utxo c' = spendAll ins (utxo c).
Proof.
  induction ins as [|i rest IH]; intros c seen c' seen' sp Hwf H; cbn [spendInputs] in H.
  - now injection H as <- <- <-.
  - destruct (bool_decide (prevout i ∈ seen)); [discriminate|].
    destruct (spendCoin c (prevout i)) as [[coin|] c1] eqn:Hs; [|discriminate].
    destruct (coin_isReward coin && _); [discriminate|].
    destruct (spendInputs P height rest c1 _) as [[[c2 seen2] sp2]|] eqn:Hrest;
      [|discriminate].
    cbn [bind] in H. injection H as <- <- <-.
    destruct (spendCoin_Some _ _ _ _ Hwf Hs) as (_ & Hdel & Hwf1 & _).
    cbn [spendAll]. rewrite <- Hdel. eapply IH; eassumption.
Qed.

(** Creating the outputs of a transaction keeps the cache consistent and
    puts the coins at the references of the outputs. *)
Lemma addOutputs_base (id : Hash) (reward : bool) (outs : list TxOut) :
  forall idx c c' created,
  cache_wf c -> addOutputs height id reward idx outs c = Ok (c', created) ->
  sameBase c c' /\ utxo c' = createAll height id reward idx outs (utxo c)
  /\ created = List.map (fun i => (id, i)) (seq idx (List.length outs)).
Proof.
  induction outs as [|o rest IH]; intros idx c c' created Hwf H; cbn [addOutputs] in H.
  - injection H as <- <-. split; [now apply sameBase_refl|]. now split.
  - destruct (addCoin c (id, idx) _ true) as [c1|] eqn:Hadd; [|discriminate].
    cbn [bind] in H.
    destruct (addOutputs height id reward (S idx) rest c1) as [[c2 created2]|] eqn:Hrest;
      [|discriminate].
    cbn [bind] in H. injection H as <- <-.
    destruct (addCoin_Ok _ _ _ _ _ Hwf Hadd) as (Hins & Hwf1 & Hh1 & Hp1).
    destruct (IH _ _ _ _ Hwf1 Hrest) as (Hbase & Hu & Hcr).
    split; [eapply sameBase_trans; [|exact Hbase]; conjs|].
    split; [cbn [createAll]; now rewrite <- Hins|].
    cbn [List.length seq List.map]. now f_equal.
Qed.

(** Where the outputs of a transaction stand over no coin, removing them
    undoes the creation. *)
Lemma addOutputs_undo (id : Hash) (reward : bool) (outs : list TxOut) :
  forall idx c c' created,
  cache_wf c ->
  (forall i, (idx <= i < idx + List.length outs)%nat -> utxo c !! (id, i) = None) ->
  addOutputs height id reward idx outs c = Ok (c', created) ->
  undoes (removeOutputs created) c c'.
Proof.
  induction outs as [|o rest IH]; intros idx c c' created Hwf Hnew H; cbn [addOutputs] in H.
  - injection H as <- <-. apply undoes_refl.
  - destruct (addCoin c (id, idx) _ true) as [c1|] eqn:Hadd; [|discriminate].
    cbn [bind] in H.
    destruct (addOutputs height id reward (S idx) rest c1) as [[c2 created2]|] eqn:Hrest;
      [|discriminate].
    cbn [bind] in H. injection H as <- <-.
    destruct (addCoin_Ok _ _ _ _ _ Hwf Hadd) as (Hins & Hwf1 & Hh1 & Hp1).
    cbn [List.length] in Hnew.
    assert (Habs : utxo c !! (id, idx) = None) by (apply Hnew; lia).
    assert (Hundo : undoes (removeOutputs created2) c1 c2).
    { apply (IH (S idx) c1 c2 created2 Hwf1); [|assumption].
      intros i Hi. rewrite Hins, lookup_insert_ne; [apply Hnew; lia|].
      intros Heq. injection Heq as Heq. lia. }
    intros d Hwfd Hd. cbn [removeOutputs].
    destruct (Hundo d Hwfd Hd) as (d1 & Hr1 & Hu1 & Hwfd1 & Hhd1 & Hpd1).
    rewrite Hr1. cbn [bind].
    assert (Hpres : utxo d1 !! (id, idx) = Some (newCoin height o reward)).
    { rewrite Hu1, Hins. apply lookup_insert_eq. }
    destruct (spendCoin_present d1 _ _ Hpres) as (d2 & Hsp). rewrite Hsp.
    destruct (spendCoin_Some _ _ _ _ Hwfd1 Hsp) as (_ & Hdel & Hwfd2 & Hhd2 & Hpd2).
    exists d2. split; [reflexivity|]. split.
    + rewrite Hdel, Hu1, Hins. now apply delete_insert_id.
    + conjs.
Qed.

Lemma elem_of_txOutputRefs (tx : Transaction) (r : OutputReference) :
  r ∈ txOutputRefs tx <-> exists i, (i < List.length (outputs tx))%nat /\ r = (txid tx, i).
Proof.
  unfold txOutputRefs. rewrite list_elem_of_In, in_map_iff. split.
  - intros (i & <- & Hi). apply in_seq in Hi. exists i. split; [lia | reflexivity].
  - intros (i & Hi & ->). exists i. split; [reflexivity|]. apply in_seq. lia.
Qed.

(** What [txCreatesNew] says of the cache the outputs are created on. *)
Lemma txCreatesNew_spec (tx : Transaction) (c c1 : CoinsViewCache)
    (seen seen1 : gset OutputReference) (sp : list (OutputReference * Coin)) :
  spendInputs P height (inputs tx) c seen = Ok (c1, seen1, sp) ->
  txCreatesNew P height tx c seen = true ->
  forall i, (i < List.length (outputs tx))%nat -> utxo c1 !! (txid tx, i) = None.
Proof.
  intros Hsp H i Hi. unfold txCreatesNew in H. rewrite Hsp in H.
  rewrite forallb_forall in H. rewrite utxo_lookup.
  apply (bool_decide_eq_true_1 _ (H (txid tx, i)
           (proj1 (list_elem_of_In _ _) (proj2 (elem_of_txOutputRefs tx _)
              (ex_intro _ i (conj Hi eq_refl)))))).
Qed.

(** One transaction: what it does to the cache and to the UTXO set. *)
Lemma connectTx_base (tx : Transaction) (c c' : CoinsViewCache)
    (seen seen' : gset OutputReference) (u : TxUndo) :
  cache_wf c -> connectTx P height tx c seen = Ok (c', seen', u) ->
  sameBase c c' /\ utxo c' = applyTx height tx (utxo c)
  /\ undo_created u = txOutputRefs tx.
Proof.
  intros Hwf H. unfold connectTx in H.
  destruct (spendInputs P height (inputs tx) c seen) as [[[c1 seen1] sp]|] eqn:Hsp;
    [|discriminate].
  cbn [bind] in H.
  destruct (negb (verifyInputs P height tx 0 (inputs tx) sp)); [discriminate|].
  destruct (negb (isReward tx) && _); [discriminate|].
  destruct (addOutputs height (txid tx) (isReward tx) 0 (outputs tx) c1)
    as [[c2 created]|] eqn:Hadd; [|discriminate].
  cbn [bind] in H. injection H as <- <- <-.
  destruct (spendInputs_undo _ _ _ _ _ _ Hwf Hsp) as (Hb1 & _ & _).
  destruct (addOutputs_base _ _ _ _ _ _ _ (proj1 Hb1) Hadd) as (Hb2 & Hu2 & Hcr).
  split; [eapply sameBase_trans; eassumption|].
  split; [|exact Hcr].
  unfold applyTx. now rewrite Hu2, (spendInputs_utxo _ _ _ _ _ _ Hwf Hsp).
Qed.

(** One transaction that overwrites no coin: [disconnectTx] on its undo
    record undoes it. *)
Lemma connectTx_undo (tx : Transaction) (c c' : CoinsViewCache)
    (seen seen' : gset OutputReference) (u : TxUndo) :
  cache_wf c -> txCreatesNew P height tx c seen = true ->
  connectTx P height tx c seen = Ok (c', seen', u) ->
  undoes (disconnectTx u) c c'.
Proof.
  intros Hwf Hnew H. unfold connectTx in H.
  destruct (spendInputs P height (inputs tx) c seen) as [[[c1 seen1] sp]|] eqn:Hsp;
    [|discriminate].
  cbn [bind] in H.
  destruct (negb (verifyInputs P height tx 0 (inputs tx) sp)); [discriminate|].
  destruct (negb (isReward tx) && _); [discriminate|].
  destruct (addOutputs height (txid tx) (isReward tx) 0 (outputs tx) c1)
    as [[c2 created]|] eqn:Hadd; [|discriminate].
  cbn [bind] in H. injection H as <- <- <-.
  destruct (spendInputs_undo _ _ _ _ _ _ Hwf Hsp) as (Hb1 & _ & Hu1).
  assert (Hu2 : undoes (removeOutputs created) c1 c2).
  { apply (addOutputs_undo (txid tx) (isReward tx) (outputs tx) 0 c1 c2 created
             (proj1 Hb1)); [|assumption].
    intros i Hi. apply (txCreatesNew_spec tx c c1 seen seen1 sp Hsp Hnew). lia. }
  unfold disconnectTx. cbn [undo_created undo_spent].
  exact (undoes_bind _ _ _ _ _ Hu1 Hu2).
Qed.

Lemma connectTxs_base (l : list Transaction) : forall c seen c' us,
  cache_wf c -> connectTxs P height l c seen = Ok (c', us) ->
  sameBase c c' /\ utxo c' = applyTxs height l (utxo c).
Proof.
  induction l as [|tx rest IH]; intros c seen c' us Hwf H; cbn [connectTxs] in H.
  - injection H as <- <-. split; [now apply sameBase_refl | reflexivity].
  - destruct (connectTx P height tx c seen) as [[[c1 seen1] u]|] eqn:Htx; [|discriminate].
    cbn [bind] in H.
    destruct (connectTxs P height rest c1 seen1) as [[c2 us2]|] eqn:Hrest; [|discriminate].
    cbn [bind] in H. injection H as <- <-.
    destruct (connectTx_base _ _ _ _ _ _ Hwf Htx) as (Hb1 & Hu1 & _).
    destruct (IH _ _ _ _ (proj1 Hb1) Hrest) as (Hb2 & Hu2).
    split; [eapply sameBase_trans; eassumption|].
    cbn [applyTxs]. now rewrite Hu2, Hu1.
Qed.

(** The transactions of a block that overwrite no coin: undone in reverse
    order. *)
Lemma connectTxs_undo (l : list Transaction) : forall c seen c' us,
  cache_wf c -> txsCreateNew P height l c seen = true ->
  connectTxs P height l c seen = Ok (c', us) ->
  undoes (disconnectTxs us) c c'.
Proof.
  induction l as [|tx rest IH]; intros c seen c' us Hwf Hnew H; cbn [connectTxs] in H.
  - injection H as <- <-. apply undoes_refl.
  - destruct (connectTx P height tx c seen) as [[[c1 seen1] u]|] eqn:Htx; [|discriminate].
    cbn [bind] in H.
    destruct (connectTxs P height rest c1 seen1) as [[c2 us2]|] eqn:Hrest; [|discriminate].
    cbn [bind] in H. injection H as <- <-.
    cbn [txsCreateNew] in Hnew. rewrite Htx in Hnew.
    apply andb_true_iff in Hnew as (Hnew1 & Hnew2).
    destruct (connectTx_base _ _ _ _ _ _ Hwf Htx) as (Hb1 & _).
    pose proof (connectTx_undo _ _ _ _ _ _ Hwf Hnew1 Htx) as Hu1.
    pose proof (IH _ _ _ _ (proj1 Hb1) Hnew2 Hrest) as Hu2.
    cbn [disconnectTxs]. exact (undoes_bind _ _ _ _ _ Hu1 Hu2).
Qed.

(** *** Values *)

Lemma spendAll_None (ins : list TxIn) : forall (U : gmap OutputReference Coin) r,
  U !! r = None -> spendAll ins U !! r = None.
Proof.
  induction ins as [|i rest IH]; intros U r H; cbn [spendAll]; [assumption|].
  apply IH. apply lookup_delete_None. now right.
Qed.


Lemma spendAll_Some (ins : list TxIn) : forall (U : gmap OutputReference Coin) r coin,
  spendAll ins U !! r = Some coin -> U !! r = Some coin.
Proof.
  induction ins as [|i rest IH]; intros U r coin H; cbn [spendAll] in H; [assumption|].
  apply IH in H. now apply lookup_delete_Some in H as [_ H].
Qed.

Lemma createAll_Some (height' : nat) (id : Hash) (reward : bool) (outs : list TxOut) :
  forall idx (U : gmap OutputReference Coin) r coin,
  createAll height' id reward idx outs U !! r = Some coin ->
  U !! r = Some coin
  \/ exists i, (idx <= i < idx + List.length outs)%nat /\ r = (id, i).
Proof.
  induction outs as [|o rest IH]; intros idx U r coin H; cbn [createAll] in H;
    [now left|].
  destruct (IH _ _ _ _ H) as [Hr|(i & Hi & ->)].
  - destruct (decide (r = (id, idx))) as [->|Hne].
    + right. exists idx. cbn [List.length]. split; [lia | reflexivity].
    + left. now rewrite lookup_insert_ne in Hr.
  - right. exists i. cbn [List.length]. split; [lia | reflexivity].
Qed.

(** A coin of the UTXO set after a transaction was there before or stands
    at an output of the transaction. *)
Lemma applyTx_Some (tx : Transaction) (U : gmap OutputReference Coin)
    (r : OutputReference) (coin : Coin) :
  applyTx height tx U !! r = Some coin -> is_Some (U !! r) \/ r ∈ txOutputRefs tx.
Proof.
  unfold applyTx. intros H. destruct (createAll_Some _ _ _ _ _ _ _ _ H) as [Hr|(i & Hi & ->)].
  - left. apply spendAll_Some in Hr. eauto.
  - right. apply elem_of_txOutputRefs. exists i. split; [lia | reflexivity].
Qed.

Lemma applyTxs_Some (l : list Transaction) : forall (U : gmap OutputReference Coin) r coin,
  applyTxs height l U !! r = Some coin ->
  is_Some (U !! r) \/ r ∈ concat (List.map txOutputRefs l).
Proof.
  induction l as [|tx rest IH]; intros U r coin H; cbn [applyTxs] in H; [left; eauto|].
  cbn [List.map concat]. destruct (IH _ _ _ H) as [[co Hr]|Hr].
  - destruct (applyTx_Some _ _ _ _ Hr) as [Hu|Hu]; [now left|].
    right. apply elem_of_app. now left.
  - right. apply elem_of_app. now right.
Qed.

Lemma spendInputs_refs (ins : list TxIn) : forall c seen c' seen' sp,
  spendInputs P height ins c seen = Ok (c', seen', sp) ->
  List.map fst sp = List.map prevout ins.
Proof.
  induction ins as [|i rest IH]; intros c seen c' seen' sp H; cbn [spendInputs] in H.
  - now injection H as <- <- <-.
  - destruct (bool_decide (prevout i ∈ seen)); [discriminate|].
    destruct (spendCoin c (prevout i)) as [[coin|] c1]; [|discriminate].
    destruct (coin_isReward coin && _); [discriminate|].
    destruct (spendInputs P height rest c1 _) as [[[c2 seen2] sp2]|] eqn:Hrest;
      [|discriminate].
    cbn [bind] in H. injection H as <- <- <-. cbn. f_equal. eauto.
Qed.




(** The fees of a block that conserves value are not negative. *)
Lemma totalFees_nonneg (l : list Transaction) : forall us (U : gmap OutputReference Coin),
  conserves height l us U -> 0 <= totalFees l us.
Proof.
  induction l as [|tx rest IH]; intros [|u us] U H; cbn [totalFees]; try lia.
  destruct H as (_ & _ & Hv & Hrest). specialize (IH _ _ Hrest).
  destruct (isReward tx); [lia|]. specialize (Hv eq_refl). lia.
Qed.

(** *** Inputs consumed twice *)


Lemma spendInputs_Err (ins : list TxIn) : forall c seen r,
  spendInputs P height ins c seen = Err r -> r = ConsensusViolation.
Proof.
  induction ins as [|i rest IH]; intros c seen r H; cbn [spendInputs] in H; [discriminate|].
  destruct (bool_decide (prevout i ∈ seen)); [congruence|].
  destruct (spendCoin c (prevout i)) as [[coin|] c1]; [|congruence].
  destruct (coin_isReward coin && _); [congruence|].
  destruct (spendInputs P height rest c1 _) as [[[c2 seen2] sp2]|] eqn:Hrest.
  - discriminate.
  - cbn [bind] in H. injection H as <-. eauto.
Qed.

Lemma addOutputs_Err (id : Hash) (reward : bool) (outs : list TxOut) : forall idx c r,
  addOutputs height id reward idx outs c = Err r -> r = InternalInvariant.
Proof.
  induction outs as [|o rest IH]; intros idx c r H; cbn [addOutputs] in H; [discriminate|].
  destruct (addCoin c (id, idx) (newCoin height o reward) true) as [c1|r1] eqn:Hadd;
    cbn [bind] in H.
  - destruct (addOutputs height id reward (S idx) rest c1) as [[c2 cr]|] eqn:Hrest.
    + discriminate.
    + cbn [bind] in H. injection H as <-. eauto.
  - injection H as <-. now destruct (addCoin_Err _ _ _ _ _ Hadd).
Qed.

Lemma connectTx_Err (tx : Transaction) (c : CoinsViewCache) (seen : gset OutputReference)
    (r : RejectReason) :
  connectTx P height tx c seen = Err r -> r = ConsensusViolation \/ r = InternalInvariant.
Proof.
  intros H. unfold connectTx in H.
  destruct (spendInputs P height (inputs tx) c seen) as [[[c1 seen1] sp]|] eqn:Hsp.
  - cbn [bind] in H.
    destruct (negb (verifyInputs P height tx 0 (inputs tx) sp)); [left; congruence|].
    destruct (negb (isReward tx) && _); [left; congruence|].
    destruct (addOutputs height (txid tx) (isReward tx) 0 (outputs tx) c1)
      as [[c2 created]|] eqn:Hadd; [discriminate|].
    cbn [bind] in H. injection H as <-. right. eapply addOutputs_Err; eassumption.
  - cbn [bind] in H. injection H as <-. left. eapply spendInputs_Err; eassumption.
Qed.



Lemma connectTxs_Err (l : list Transaction) : forall c seen r,
  connectTxs P height l c seen = Err r -> r = ConsensusViolation \/ r = InternalInvariant.
Proof.
  induction l as [|tx rest IH]; intros c seen r H; cbn [connectTxs] in H; [discriminate|].
  destruct (connectTx P height tx c seen) as [[[c1 seen1] u]|] eqn:Htx.
  - cbn [bind] in H.
    destruct (connectTxs P height rest c1 seen1) as [[c2 us2]|] eqn:Hrest; [discriminate|].
    cbn [bind] in H. injection H as <-. eauto.
  - cbn [bind] in H. injection H as <-. eapply connectTx_Err; eassumption.
Qed.

(** *** Outputs that collide with no coin *)

Lemma spendInputs_keeps_absent (ins : list TxIn) : forall c seen c' seen' sp,
  cache_wf c -> spendInputs P height ins c seen = Ok (c', seen', sp) ->
  forall r, utxo c !! r = None -> utxo c' !! r = None.
Proof.
  intros c seen c' seen' sp Hwf H r Hr.
  rewrite (spendInputs_utxo _ _ _ _ _ _ Hwf H). now apply spendAll_None.
Qed.

Lemma addOutputs_fresh (id : Hash) (reward : bool) (outs : list TxOut) : forall idx c,
  cache_wf c ->
  (forall i, (idx <= i < idx + List.length outs)%nat -> utxo c !! (id, i) = None) ->
  exists c' created, addOutputs height id reward idx outs c = Ok (c', created)
    /\ cache_wf c'
    /\ forall r, utxo c !! r = None ->
         (forall i, (idx <= i < idx + List.length outs)%nat -> r <> (id, i)) ->
         utxo c' !! r = None.
Proof.
  induction outs as [|o rest IH]; intros idx c Hwf Hfresh; cbn [addOutputs].
  - exists c, []. split; [reflexivity|]. split; [assumption|]. auto.
  - cbn [List.length] in Hfresh.
    destruct (addCoin_absent c (id, idx) (newCoin height o reward) true) as (c1 & Hadd).
    { apply Hfresh. lia. }
    destruct (addCoin_Ok _ _ _ _ _ Hwf Hadd) as (Hins & Hwf1 & _).
    destruct (IH (S idx) c1 Hwf1) as (c2 & created & Hrest & Hwf2 & Hkeep).
    { intros i Hi. rewrite Hins, lookup_insert_ne; [apply Hfresh; lia|].
      intros Heq. injection Heq as Heq. lia. }
    exists c2, ((id, idx) :: created). rewrite Hadd. cbn [bind]. rewrite Hrest.
    split; [reflexivity|]. split; [assumption|].
    intros r Hr Hne. cbn [List.length] in Hne. apply Hkeep.
    + rewrite Hins, lookup_insert_ne; [assumption|].
      intros Heq. apply (Hne idx); [lia | now symmetry].
    + intros i Hi. apply Hne. lia.
Qed.

(** A transaction whose output references hold no coin overwrites none;
    it fails, if it fails, with ConsensusViolation; if it connects,
    references without a coin still have none, its own outputs apart. *)
Lemma connectTx_fresh (tx : Transaction) (c : CoinsViewCache) (seen : gset OutputReference) :
  cache_wf c ->
  (forall r, r ∈ txOutputRefs tx -> utxo c !! r = None) ->
  txCreatesNew P height tx c seen = true
  /\ match connectTx P height tx c seen with
     | Err r => r = ConsensusViolation
     | Ok (c', _, _) =>
         cache_wf c'
         /\ forall r, utxo c !! r = None -> r ∉ txOutputRefs tx -> utxo c' !! r = None
     end.
Proof.
  intros Hwf Hfresh. unfold connectTx, txCreatesNew.
  destruct (spendInputs P height (inputs tx) c seen) as [[[c1 seen1] sp]|] eqn:Hsp.
  - pose proof (spendInputs_keeps_absent _ _ _ _ _ _ Hwf Hsp) as Hkeep1.
    split.
    { apply forallb_forall. intros r Hr. apply bool_decide_eq_true_2.
      rewrite <- utxo_lookup. apply Hkeep1, Hfresh. now apply list_elem_of_In. }
    cbn [bind].
    destruct (negb (verifyInputs P height tx 0 (inputs tx) sp)); [reflexivity|].
    destruct (negb (isReward tx) && _); [reflexivity|].
    destruct (spendInputs_undo _ _ _ _ _ _ Hwf Hsp) as ((Hwf1 & _) & _).
    destruct (addOutputs_fresh (txid tx) (isReward tx) (outputs tx) 0 c1 Hwf1)
      as (c2 & created & Hadd & Hwf2 & Hkeep2).
    { intros i Hi. apply Hkeep1, Hfresh, elem_of_txOutputRefs. exists i.
      split; [lia | reflexivity]. }
    rewrite Hadd. cbn [bind]. split; [assumption|].
    intros r Hr Hnot. apply Hkeep2; [now apply Hkeep1|].
    intros i Hi ->. apply Hnot, elem_of_txOutputRefs. exists i. split; [lia | reflexivity].
  - split; [reflexivity|]. cbn [bind]. eapply spendInputs_Err; eassumption.
Qed.

(** A block whose output references are distinct and hold no coin
    overwrites none, and fails, if it fails, with ConsensusViolation. *)
Lemma connectTxs_fresh (l : list Transaction) : forall c seen,
  cache_wf c ->
  NoDup (concat (List.map txOutputRefs l)) ->
  (forall ref, ref ∈ concat (List.map txOutputRefs l) -> utxo c !! ref = None) ->
  txsCreateNew P height l c seen = true
  /\ forall r, connectTxs P height l c seen = Err r -> r = ConsensusViolation.
Proof.
  induction l as [|tx rest IH]; intros c seen Hwf Hnd Hfresh;
    cbn [connectTxs txsCreateNew]; [split; [reflexivity | discriminate]|].
  cbn [List.map concat] in Hnd, Hfresh. apply NoDup_app in Hnd as (_ & Hdisj & Hnd).
  destruct (connectTx_fresh tx c seen Hwf) as (Hnew & Htx).
  { intros ref Href. apply Hfresh, elem_of_app. now left. }
  rewrite Hnew. cbn [andb].
  destruct (connectTx P height tx c seen) as [[[c1 seen1] u]|r1].
  - destruct Htx as (Hwf1 & Hkeep).
    destruct (IH c1 seen1 Hwf1 Hnd) as (Hnew2 & Herr2).
    { intros ref Href. apply Hkeep.
      + apply Hfresh, elem_of_app. now right.
      + intros Hin. exact (Hdisj ref Hin Href). }
    split; [assumption|]. intros r H. cbn [bind] in H.
    destruct (connectTxs P height rest c1 seen1) as [[c2 us2]|r2] eqn:Hrest;
      [discriminate|].
    cbn [bind] in H. injection H as <-. now apply Herr2.
  - split; [reflexivity|]. intros r H. cbn [bind] in H. congruence.
Qed.

End ConnectFacts.

Lemma connectBlock_Ok (P : ConsensusParams) (c c' : CoinsViewCache) (b : Block)
    (height : nat) (us : BlockUndo) :
  connectBlock P c b height = (Ok us, c') ->
  connectTxs P height (txs b) c ∅ = Ok (c', us)
  /\ rewardValue (txs b) <= subsidy P height + totalFees (txs b) us.
Proof.
  unfold connectBlock. intros H.
  destruct (connectTxs P height (txs b) c ∅) as [[c1 us1]|]; [|discriminate].
  destruct (Z.ltb_spec (subsidy P height + totalFees (txs b) us1) (rewardValue (txs b)));
    [discriminate|].
  injection H as <- <-. split; [reflexivity | lia].
Qed.

Lemma connectBlock_wf (P : ConsensusParams) (c c' : CoinsViewCache) (b : Block)
    (height : nat) (us : BlockUndo) :
  cache_wf c -> connectBlock P c b height = (Ok us, c') -> sameBase c c'.
Proof.
  intros Hwf H. apply connectBlock_Ok in H as [H _].
  now destruct (connectTxs_base _ _ _ _ _ _ _ Hwf H).
Qed.

(** The UTXO set after a block is the set before it with the transactions
    applied in block order. *)
Lemma connectBlock_utxo (P : ConsensusParams) (c c' : CoinsViewCache) (b : Block)
    (height : nat) (us : BlockUndo) :
  cache_wf c -> connectBlock P c b height = (Ok us, c') ->
  utxo c' = applyTxs height (txs b) (utxo c).
Proof.
  intros Hwf H. apply connectBlock_Ok in H as [H _].
  now destruct (connectTxs_base _ _ _ _ _ _ _ Hwf H).
Qed.

(** Every coin of the set after a block was in the set before it or stands
    at an output of the block. *)
Lemma connectBlock_coins (P : ConsensusParams) (c c' : CoinsViewCache) (b : Block)
    (height : nat) (us : BlockUndo) (ref : OutputReference) :
  cache_wf c -> connectBlock P c b height = (Ok us, c') ->
  is_Some (utxo c' !! ref) -> is_Some (utxo c !! ref) \/ ref ∈ blockOutputs b.
Proof.
  intros Hwf H [coin Hc]. rewrite (connectBlock_utxo _ _ _ _ _ _ Hwf H) in Hc.
  exact (applyTxs_Some _ _ _ _ _ Hc).
Qed.

(** Whatever a connect attempt returns, an error leaves the caller's cache
    as it was. *)
Lemma connectBlock_Err (P : ConsensusParams) (c c' : CoinsViewCache) (b : Block)
    (height : nat) (r : RejectReason) :
  connectBlock P c b height = (Err r, c') -> c' = c.
Proof.
  unfold connectBlock. intros H.
  destruct (connectTxs P height (txs b) c ∅) as [[c1 us1]|].
  - destruct (_ <? _); congruence.
  - congruence.
Qed.

(** A block whose output references are distinct and hold no coin
    overwrites none, and is rejected, if it is, with ConsensusViolation. *)
Lemma connectBlock_fresh (P : ConsensusParams) (c : CoinsViewCache) (b : Block)
    (height : nat) :
  cache_wf c -> NoDup (blockOutputs b) ->
  (forall ref, ref ∈ blockOutputs b -> utxo c !! ref = None) ->
  createsNew P c b height = true
  /\ forall r c', connectBlock P c b height = (Err r, c') -> r = ConsensusViolation.
Proof.
  intros Hwf Hnd Hfresh.
  destruct (connectTxs_fresh P height (txs b) c ∅ Hwf Hnd Hfresh) as (Hnew & Herr).
  split; [exact Hnew|]. intros r c'. unfold connectBlock.
  destruct (connectTxs P height (txs b) c ∅) as [[c1 us1]|r1].
  - destruct (_ <? _); congruence.
  - intros [= <- _]. now apply Herr.
Qed.

(** The round trip on any cache standing for the UTXO set after the
    connect. *)
Lemma disconnectBlock_undoes (P : ConsensusParams) (c c' d : CoinsViewCache) (b : Block)
    (height : nat) (us : BlockUndo) :
  cache_wf c -> createsNew P c b height = true ->
  connectBlock P c b height = (Ok us, c') ->
  cache_wf d -> utxo d = utxo c' ->
  exists d', disconnectBlock d us = (Ok tt, d') /\ utxo d' = utxo c /\ cache_wf d'
    /\ hashBlock d' = hashBlock d /\ parent d' = parent d.
Proof.
  intros Hwf Hnew H Hwfd Hd. apply connectBlock_Ok in H as [H _].
  pose proof (connectTxs_undo _ _ _ _ _ _ _ Hwf Hnew H) as Hundo.
  destruct (Hundo d Hwfd Hd) as (d' & Hdis & Hrest).
  exists d'. unfold disconnectBlock. rewrite Hdis. now split.
Qed.

(** *** The outcome of a connect that overwrites no coin depends on the UTXO
    set only *)

Lemma spendCoin_view (c1 c2 : CoinsViewCache) (ref : OutputReference) :
  sameView c1 c2 ->
  (spendCoin c1 ref).1 = (spendCoin c2 ref).1
  /\ sameView (spendCoin c1 ref).2 (spendCoin c2 ref).2.
Proof.
  intros (Hwf1 & Hwf2 & Hu).
  assert (Hfst : (spendCoin c1 ref).1 = (spendCoin c2 ref).1).
  { now rewrite !spendCoin_fst, <- !utxo_lookup, Hu. }
  split; [assumption|].
  destruct (spendCoin c1 ref) as [[coin1|] c1'] eqn:H1;
    destruct (spendCoin c2 ref) as [[coin2|] c2'] eqn:H2; cbn in Hfst; try discriminate.
  - destruct (spendCoin_Some _ _ _ _ Hwf1 H1) as (_ & Hd1 & Hw1 & _).
    destruct (spendCoin_Some _ _ _ _ Hwf2 H2) as (_ & Hd2 & Hw2 & _).
    cbn. split; [assumption|]. split; [assumption|]. now rewrite Hd1, Hd2, Hu.
  - destruct (spendCoin_None _ _ _ H1) as (_ & ->).
    destruct (spendCoin_None _ _ _ H2) as (_ & ->). cbn. now split.
Qed.

Lemma addCoin_view (c1 c2 : CoinsViewCache) (ref : OutputReference) (coin : Coin) (f : bool) :
  sameView c1 c2 -> utxo c1 !! ref = None ->
  exists c1' c2', addCoin c1 ref coin f = Ok c1' /\ addCoin c2 ref coin f = Ok c2'
    /\ sameView c1' c2'.
Proof.
  intros (Hwf1 & Hwf2 & Hu) H1.
  destruct (addCoin_absent c1 ref coin f H1) as (c1' & Ha1).
  rewrite Hu in H1. destruct (addCoin_absent c2 ref coin f H1) as (c2' & Ha2).
  exists c1', c2'. split; [assumption|]. split; [assumption|].
  destruct (addCoin_Ok _ _ _ _ _ Hwf1 Ha1) as (Hi1 & Hw1 & _).
  destruct (addCoin_Ok _ _ _ _ _ Hwf2 Ha2) as (Hi2 & Hw2 & _).
  split; [assumption|]. split; [assumption|]. now rewrite Hi1, Hi2, Hu.
Qed.

Section ViewFacts.
Variable P : ConsensusParams.
Variable height : nat.

Lemma spendInputs_view (ins : list TxIn) : forall c1 c2 seen,
  sameView c1 c2 ->
  relResult (fun x y => sameView x.1.1 y.1.1 /\ x.1.2 = y.1.2 /\ x.2 = y.2)
            (spendInputs P height ins c1 seen) (spendInputs P height ins c2 seen).
Proof.
  induction ins as [|i rest IH]; intros c1 c2 seen Hv; cbn [spendInputs].
  - cbn. now split.
  - destruct (bool_decide (prevout i ∈ seen)); [reflexivity|].
    destruct (spendCoin_view c1 c2 (prevout i) Hv) as (Hfst & Hsnd).
    destruct (spendCoin c1 (prevout i)) as [o1 c1'].
    destruct (spendCoin c2 (prevout i)) as [o2 c2']. cbn in Hfst, Hsnd. subst o2.
    destruct o1 as [coin|]; [|reflexivity].
    destruct (coin_isReward coin && _); [reflexivity|].
    specialize (IH c1' c2' ({[prevout i]} ∪ seen) Hsnd).
    destruct (spendInputs P height rest c1' _) as [[[a1 s1] sp1]|r1];
      destruct (spendInputs P height rest c2' _) as [[[a2 s2] sp2]|r2];
      cbn in IH |- *; try contradiction; [|assumption].
    destruct IH as (Hs & -> & ->). now split.
Qed.

Lemma addOutputs_view (id : Hash) (reward : bool) (outs : list TxOut) : forall idx c1 c2,
  sameView c1 c2 ->
  (forall i, (idx <= i < idx + List.length outs)%nat -> utxo c1 !! (id, i) = None) ->
  relResult (fun x y => sameView x.1 y.1 /\ x.2 = y.2)
            (addOutputs height id reward idx outs c1)
            (addOutputs height id reward idx outs c2).
Proof.
  induction outs as [|o rest IH]; intros idx c1 c2 Hv Hnew; cbn [addOutputs].
  - cbn. now split.
  - cbn [List.length] in Hnew.
    destruct (addCoin_view c1 c2 (id, idx) (newCoin height o reward) true Hv)
      as (c1' & c2' & Ha1 & Ha2 & Hv'); [apply Hnew; lia|].
    rewrite Ha1, Ha2. cbn [bind].
    destruct (addCoin_Ok _ _ _ _ _ (proj1 Hv) Ha1) as (Hins & _).
    assert (Hnew' : forall i, (S idx <= i < S idx + List.length rest)%nat ->
                      utxo c1' !! (id, i) = None).
    { intros i Hi. rewrite Hins, lookup_insert_ne; [apply Hnew; lia|].
      intros Heq. injection Heq as Heq. lia. }
    specialize (IH (S idx) c1' c2' Hv' Hnew').
    destruct (addOutputs height id reward (S idx) rest c1') as [[a1 cr1]|r1];
      destruct (addOutputs height id reward (S idx) rest c2') as [[a2 cr2]|r2];
      cbn in IH |- *; try contradiction; [|assumption].
    destruct IH as (Hs & ->). now split.
Qed.

Lemma connectTx_view (tx : Transaction) (c1 c2 : CoinsViewCache) (seen : gset OutputReference) :
  sameView c1 c2 -> txCreatesNew P height tx c1 seen = true ->
  relResult (fun x y => sameView x.1.1 y.1.1 /\ x.1.2 = y.1.2 /\ x.2 = y.2)
            (connectTx P height tx c1 seen) (connectTx P height tx c2 seen).
Proof.
  intros Hv Hnew. unfold connectTx.
  pose proof (spendInputs_view (inputs tx) c1 c2 seen Hv) as Hs.
  destruct (spendInputs P height (inputs tx) c1 seen) as [[[a1 s1] sp1]|r1] eqn:Hsp1;
    destruct (spendInputs P height (inputs tx) c2 seen) as [[[a2 s2] sp2]|r2];
    cbn in Hs |- *; try contradiction; [|assumption].
  destruct Hs as (Hs & -> & ->).
  destruct (negb (verifyInputs P height tx 0 (inputs tx) sp2)); [reflexivity|].
  destruct (negb (isReward tx) && _); [reflexivity|].
  assert (Ha : relResult (fun x y => sameView x.1 y.1 /\ x.2 = y.2)
                 (addOutputs height (txid tx) (isReward tx) 0 (outputs tx) a1)
                 (addOutputs height (txid tx) (isReward tx) 0 (outputs tx) a2)).
  { apply addOutputs_view; [assumption|]. intros i Hi.
    apply (txCreatesNew_spec P height tx c1 a1 seen s2 sp2 Hsp1 Hnew). lia. }
  destruct (addOutputs height (txid tx) (isReward tx) 0 (outputs tx) a1) as [[b1 cr1]|r1];
    destruct (addOutputs height (txid tx) (isReward tx) 0 (outputs tx) a2) as [[b2 cr2]|r2];
    cbn in Ha |- *; try contradiction; [|assumption].
  destruct Ha as (Ha & ->). now split.
Qed.

Lemma connectTxs_view (l : list Transaction) : forall c1 c2 seen,
  sameView c1 c2 -> txsCreateNew P height l c1 seen = true ->
  relResult (fun x y => sameView x.1 y.1 /\ x.2 = y.2)
            (connectTxs P height l c1 seen) (connectTxs P height l c2 seen).
Proof.
  induction l as [|tx rest IH]; intros c1 c2 seen Hv Hnew; cbn [connectTxs].
  - cbn. now split.
  - cbn [txsCreateNew] in Hnew. apply andb_true_iff in Hnew as (Hnew1 & Hnew2).
    pose proof (connectTx_view tx c1 c2 seen Hv Hnew1) as Ht.
    destruct (connectTx P height tx c1 seen) as [[[a1 s1] u1]|r1];
      destruct (connectTx P height tx c2 seen) as [[[a2 s2] u2]|r2];
      cbn in Ht |- *; try contradiction; [|assumption].
    destruct Ht as (Ha & -> & ->).
    specialize (IH a1 a2 s2 Ha Hnew2).
    destruct (connectTxs P height rest a1 s2) as [[b1 us1]|r1];
      destruct (connectTxs P height rest a2 s2) as [[b2 us2]|r2];
      cbn in IH |- *; try contradiction; [|assumption].
    destruct IH as (Hb & ->). now split.
Qed.


End ViewFacts.

(** Connecting a block that overwrites no coin to two caches of the same
    UTXO set gives the same verdict and undo log, and caches of the same
    UTXO set again. *)
Lemma connectBlock_view (P : ConsensusParams) (c1 c2 : CoinsViewCache) (b : Block)
    (height : nat) :
  sameView c1 c2 -> createsNew P c1 b height = true ->
  (connectBlock P c1 b height).1 = (connectBlock P c2 b height).1
  /\ sameView (connectBlock P c1 b height).2 (connectBlock P c2 b height).2.
Proof.
  intros Hv Hnew. unfold connectBlock.
  pose proof (connectTxs_view P height (txs b) c1 c2 ∅ Hv Hnew) as Ht.
  destruct (connectTxs P height (txs b) c1 ∅) as [[a1 us1]|r1];
    destruct (connectTxs P height (txs b) c2 ∅) as [[a2 us2]|r2];
    cbn in Ht |- *; try contradiction.
  - destruct Ht as (Ha & ->).
    destruct (_ <? _); cbn; split; solve [reflexivity | assumption].
  - subst r2. cbn. now split.
Qed.



(** *** The round trip of a connect that overwrites a coin

    The disconnect, when it succeeds, computes [undoTxs] on the UTXO set.
    Undone, a block leaves at every reference the coin the set held before
    the block or no coin; a set restored in full shows that every output was
    created where no coin was. *)










Lemma createAll_lookup (height : nat) (id : Hash) (reward : bool) (outs : list TxOut) :
  forall idx (U : gmap OutputReference Coin) x,
  (x ∈ List.map (fun i => (id, i)) (seq idx (List.length outs)) ->
   is_Some (createAll height id reward idx outs U !! x))
  /\ (x ∉ List.map (fun i => (id, i)) (seq idx (List.length outs)) ->
      createAll height id reward idx outs U !! x = U !! x).
Proof.
  induction outs as [|o rest IH]; intros idx U x; cbn [createAll List.length seq List.map].
  - split; [intros Hx; now apply elem_of_nil in Hx | reflexivity].
  - destruct (IH (S idx) (<[(id, idx) := newCoin height o reward]> U) x) as (Hin & Hout).
    split.
    + intros Hx. apply elem_of_cons in Hx as [->|Hx]; [|now apply Hin].
      destruct (decide ((id, idx) ∈ List.map (fun i => (id, i))
                                       (seq (S idx) (List.length rest)))) as [Hd|Hd];
        [now apply Hin|].
      rewrite (proj2 (IH (S idx) _ (id, idx)) Hd), lookup_insert_eq. eauto.
    + intros Hx. rewrite Hout by (intros H; apply Hx; now right).
      apply lookup_insert_ne. intros Heq. apply Hx. rewrite <- Heq. left.
Qed.

Lemma applyTx_out (height : nat) (tx : Transaction) (U : gmap OutputReference Coin)
    (x : OutputReference) :
  x ∈ txOutputRefs tx -> is_Some (applyTx height tx U !! x).
Proof. intros Hx. now apply createAll_lookup. Qed.







(** *** A connect that starts on the empty store

    Every coin is then a fresh coin of the layer, no creation meets a coin
    the parent knows, and the connect ends, if it fails, with
    ConsensusViolation. *)








Import Examples.


Example scenario_B1_B2 :
  exists us c2, connectBlock exParams exAfterB1 exB2 3 = (Ok us, c2)
    /\ utxo c2 = {[ (21%N, 0%nat) := {| coin_value := 49; coin_script := [8];
                                        coin_height := 3%nat; coin_isReward := false |} ]}
    /\ getCoin c2 (11%N, 0%nat) = None.
Proof. eexists _, _. split; [vm_compute; reflexivity|]. split; vm_compute; reflexivity. Qed.

(** The reward output of B1 cannot be spent at height 2. *)
Example scenario_immature :
  connectBlock exParams exAfterB1 exB2 2 = (Err ConsensusViolation, exAfterB1).
Proof. vm_compute. reflexivity. Qed.


Lemma flush_all_or_nothing_witness :
  match flushTo (batchWrite true) exAfterB1 with
  | (Err r, c') =>
      r = IoError /\ c' = exAfterB1
      /\ forall write', flushTo write' c' = flushTo write' exAfterB1
  | (Ok _, c') =>
      cacheCoins c' = ∅
      /\ batchWrite true (flushBatch exAfterB1) (parent exAfterB1) = (Ok tt, parent c')
      /\ parent c' = applyBatch (flushBatch exAfterB1) (parent exAfterB1)
      /\ batch_best (flushBatch exAfterB1) = hashBlock exAfterB1
      /\ (forall ref op, batch_coins (flushBatch exAfterB1) !! ref = Some op <->
            exists e, cacheCoins exAfterB1 !! ref = Some e /\ entry_dirty e = true
                      /\ op = entry_coin e)
      /\ (forall ref, store_coins (parent c') !! ref
                      = match cacheCoins exAfterB1 !! ref with
                        | Some e => if entry_dirty e then entry_coin e
                                    else store_coins (parent exAfterB1) !! ref
                        | None => store_coins (parent exAfterB1) !! ref
                        end)
      /\ store_best (parent c') = hashBlock exAfterB1
      /\ hashBlock c' = hashBlock exAfterB1
      /\ cache_wf c'
      /\ (cache_wf exAfterB1 ->
          store_coins (parent c') = utxo exAfterB1 /\ utxo c' = utxo exAfterB1)
  end.
Proof.
  apply (flush_all_or_nothing (batchWrite true) exAfterB1). apply batchWrite_atomic.
Defined.

(** The coin of B1 reaches the store with a successful flush, stays in the
    layer when the atomic store refuses the write, and is left in the store
    by the refused write of a store that is not atomic. *)
Example scenario_flush :
  store_coins (parent (flush true exAfterB1).2) = utxo exAfterB1
  /\ cacheCoins (flush true exAfterB1).2 = ∅
  /\ flush false exAfterB1 = (Err IoError, exAfterB1)
  /\ is_Some (store_coins (parent (flushTo tornWrite exAfterB1).2) !! (11%N, 0%nat)).
Proof.
  split; [vm_compute; reflexivity|]. split; [vm_compute; reflexivity|].
  split; [apply flush_failure|]. eexists. vm_compute. reflexivity.
Qed.






End ValidationFacts.

(** ** Facts about the block index *)
Module BlockIndexFacts.
Import Coins Validation BlockIndex.

Lemma lookupNode_Some (idx : BlockIndex) (h : Hash) (n : BlockIndexNode) :
  lookupNode idx h = Some n -> node_hash n = h /\ exists i, idx !! i = Some n.
Proof.
  unfold lookupNode. induction idx as [|m idx IH]; cbn [List.find]; [discriminate|].
  destruct (N.eqb_spec (node_hash m) h) as [Heq|Hne].
  - intros [= <-]. split; [assumption|]. now exists 0%nat.
  - intros H. destruct (IH H) as (Hh & i & Hi). split; [assumption|]. now exists (S i).
Qed.

Lemma lookupNode_None (idx : BlockIndex) (h : Hash) :
  lookupNode idx h = None -> forall i n, idx !! i = Some n -> node_hash n <> h.
Proof.
  unfold lookupNode. induction idx as [|m idx IH]; cbn [List.find]; intros H i n Hi.
  - destruct i; discriminate.
  - destruct (N.eqb_spec (node_hash m) h) as [Heq|Hne]; [discriminate|].
    destruct i as [|i]; cbn in Hi; [now injection Hi as <- | eauto].
Qed.

(** With unique hashes, the node at a position is the node its hash looks
    up. *)
Lemma lookupNode_at (idx : BlockIndex) (i : nat) (n : BlockIndexNode) :
  index_wf idx -> idx !! i = Some n -> lookupNode idx (node_hash n) = Some n.
Proof.
  intros [Huniq _] Hi.
  destruct (lookupNode idx (node_hash n)) as [m|] eqn:Hl.
  - destruct (lookupNode_Some _ _ _ Hl) as (Hh & j & Hj).
    assert (j = i) by (eapply Huniq; eassumption). subst j. congruence.
  - exfalso. exact (lookupNode_None _ _ Hl _ _ Hi eq_refl).
Qed.

(** A map over the arena that keeps the hashes commutes with the lookup. *)
Lemma lookupNode_map (f : BlockIndexNode -> BlockIndexNode) (idx : BlockIndex) (h : Hash) :
  (forall n, node_hash (f n) = node_hash n) ->
  lookupNode (List.map f idx) h = f <$> lookupNode idx h.
Proof.
  intros Hf. unfold lookupNode. induction idx as [|m idx IH]; cbn [List.map List.find];
    [reflexivity|].
  rewrite Hf. destruct (node_hash m =? h)%N; [reflexivity | exact IH].
Qed.

Lemma invalidateNode_hash idx h n : node_hash (invalidateNode idx h n) = node_hash n.
Proof. unfold invalidateNode. destruct (_ =? _)%N; [|destruct (hasAncestor _ _ _ _)]; reflexivity. Qed.

Lemma invalidateNode_parent idx h n : node_parent (invalidateNode idx h n) = node_parent n.
Proof. unfold invalidateNode. destruct (_ =? _)%N; [|destruct (hasAncestor _ _ _ _)]; reflexivity. Qed.

Lemma invalidateNode_height idx h n : node_height (invalidateNode idx h n) = node_height n.
Proof. unfold invalidateNode. destruct (_ =? _)%N; [|destruct (hasAncestor _ _ _ _)]; reflexivity. Qed.

Lemma invalidateNode_work idx h n : node_work (invalidateNode idx h n) = node_work n.
Proof. unfold invalidateNode. destruct (_ =? _)%N; [|destruct (hasAncestor _ _ _ _)]; reflexivity. Qed.

Lemma lookupNode_invalidate (idx : BlockIndex) (h d : Hash) :
  lookupNode (invalidate idx h) d = invalidateNode idx h <$> lookupNode idx d.
Proof. apply (lookupNode_map (invalidateNode idx h)). apply invalidateNode_hash. Qed.

(** The walk finds only ancestors. *)
Lemma hasAncestor_sound (idx : BlockIndex) (a : Hash) (fuel : nat) : forall d,
  hasAncestor fuel idx a d = true -> descends idx a d.
Proof.
  induction fuel as [|fuel IH]; intros d H; cbn [hasAncestor] in H; [discriminate|].
  destruct (lookupNode idx d) as [n|] eqn:Hn; [|discriminate].
  destruct (node_parent n) as [p|] eqn:Hp; [|discriminate].
  apply orb_true_iff in H as [H|H].
  - apply N.eqb_eq in H. subst p. eapply descends_child; eassumption.
  - eapply descends_step; eauto.
Qed.

(** The walk finds every ancestor: a parent stands earlier in the arena, so
    a walk from position [i] ends within [i] steps. *)
Lemma hasAncestor_complete (idx : BlockIndex) (a : Hash) :
  index_wf idx ->
  forall fuel i n, idx !! i = Some n -> (i < fuel)%nat ->
    descends idx a (node_hash n) -> hasAncestor fuel idx a (node_hash n) = true.
Proof.
  intros Hwf. induction fuel as [|fuel IH]; intros i n Hi Hlt Hd; [lia|].
  cbn [hasAncestor]. rewrite (lookupNode_at _ _ _ Hwf Hi).
  pose proof (lookupNode_at _ _ _ Hwf Hi) as Hl.
  inversion Hd as [d n' Hl' Hp | d n' p Hl' Hp Hanc]; subst d;
    rewrite Hl in Hl'; injection Hl' as <-; rewrite Hp.
  - now rewrite N.eqb_refl.
  - destruct (proj2 Hwf _ _ _ Hi Hp) as (j & m & Hj & Hm & Hh & _). subst p.
    rewrite (IH j m Hm ltac:(lia) Hanc). apply orb_true_r.
Qed.

Lemma hasAncestor_descends (idx : BlockIndex) (a d : Hash) :
  index_wf idx ->
  hasAncestor (List.length idx) idx a d = true <-> descends idx a d.
Proof.
  intros Hwf. split; [apply hasAncestor_sound|].
  intros Hd.
  assert (exists n, lookupNode idx d = Some n) as (n & Hn).
  { inversion Hd; eauto. }
  destruct (lookupNode_Some _ _ _ Hn) as (<- & i & Hi).
  eapply hasAncestor_complete; [assumption | exact Hi | | assumption].
  now apply lookup_lt_Some in Hi.
Qed.

(** A map over the arena that changes statuses only keeps the tree. *)
Lemma descends_map (f : BlockIndexNode -> BlockIndexNode) (idx : BlockIndex) (a d : Hash) :
  keepsShape f -> descends (List.map f idx) a d <-> descends idx a d.
Proof.
  intros Hf.
  assert (Hl : forall x, lookupNode (List.map f idx) x = f <$> lookupNode idx x).
  { intros x. apply lookupNode_map. intros n. apply Hf. }
  split; induction 1 as [d n Hn Hp | d n p Hn Hp _ IH].
  - rewrite Hl in Hn.
    destruct (lookupNode idx d) as [m|] eqn:Hm; [|discriminate]. injection Hn as <-.
    rewrite (proj1 (proj2 (Hf m))) in Hp. eapply descends_child; eassumption.
  - rewrite Hl in Hn.
    destruct (lookupNode idx d) as [m|] eqn:Hm; [|discriminate]. injection Hn as <-.
    rewrite (proj1 (proj2 (Hf m))) in Hp. eapply descends_step; eassumption.
  - eapply descends_child.
    + rewrite Hl, Hn. reflexivity.
    + now rewrite (proj1 (proj2 (Hf n))).
  - eapply descends_step; [| |exact IH].
    + rewrite Hl, Hn. reflexivity.
    + now rewrite (proj1 (proj2 (Hf n))).
Qed.

Lemma index_wf_map (f : BlockIndexNode -> BlockIndexNode) (idx : BlockIndex) :
  keepsShape f -> index_wf idx -> index_wf (List.map f idx).
Proof.
  intros Hf [Huniq Hpar].
  change (List.map f idx) with (f <$> idx).
  split.
  - intros i j n m Hi Hj Hh.
    apply list_lookup_fmap_Some in Hi as (n0 & -> & Hi).
    apply list_lookup_fmap_Some in Hj as (m0 & -> & Hj).
    rewrite (proj1 (Hf n0)), (proj1 (Hf m0)) in Hh. eauto.
  - intros i n p Hi Hp.
    apply list_lookup_fmap_Some in Hi as (n0 & -> & Hi).
    rewrite (proj1 (proj2 (Hf n0))) in Hp.
    destruct (Hpar _ _ _ Hi Hp) as (j & m & Hj & Hm & Hh & Hht).
    exists j, (f m). split; [assumption|].
    split; [rewrite list_lookup_fmap, Hm; reflexivity|].
    rewrite (proj1 (Hf m)), (proj1 (proj2 (proj2 (Hf n0)))), (proj1 (proj2 (proj2 (Hf m)))).
    now split.
Qed.

Lemma keepsShape_invalidateNode (idx : BlockIndex) (h : Hash) :
  keepsShape (invalidateNode idx h).
Proof.
  intros n. unfold invalidateNode.
  destruct (_ =? _)%N; [|destruct (hasAncestor _ _ _ _)]; now repeat split.
Qed.

Lemma keepsShape_raiseNode (h : Hash) (st : Validity) : keepsShape (raiseNode h st).
Proof. intros n. unfold raiseNode. destruct (_ && _ && _); now repeat split. Qed.

Lemma descends_invalidate (idx : BlockIndex) (h a d : Hash) :
  descends (invalidate idx h) a d <-> descends idx a d.
Proof. apply descends_map, keepsShape_invalidateNode. Qed.

Lemma lookupNode_raise (idx : BlockIndex) (h d : Hash) (st : Validity) :
  lookupNode (raiseValidity idx h st) d = raiseNode h st <$> lookupNode idx d.
Proof. apply (lookupNode_map (raiseNode h st)). intros n. apply keepsShape_raiseNode. Qed.

(** A node is never its own descendant: heights grow along the tree. *)
Lemma descends_height (idx : BlockIndex) (a d : Hash) (na nd : BlockIndexNode) :
  index_wf idx -> descends idx a d ->
  lookupNode idx a = Some na -> lookupNode idx d = Some nd ->
  (node_height na < node_height nd)%nat.
Proof.
  intros Hwf Hd. revert nd. induction Hd as [d n Hl Hp | d n p Hl Hp Hanc IH];
    intros nd Ha Hnd; rewrite Hl in Hnd; injection Hnd as <-.
  - destruct (lookupNode_Some _ _ _ Hl) as (_ & i & Hi).
    destruct (proj2 Hwf _ _ _ Hi Hp) as (j & m & _ & Hm & Hh & Hht). subst a.
    rewrite (lookupNode_at _ _ _ Hwf Hm) in Ha. injection Ha as <-. lia.
  - destruct (lookupNode_Some _ _ _ Hl) as (_ & i & Hi).
    destruct (proj2 Hwf _ _ _ Hi Hp) as (j & m & _ & Hm & Hh & Hht). subst p.
    specialize (IH m Ha (lookupNode_at _ _ _ Hwf Hm)). lia.
Qed.

Lemma descends_irrefl (idx : BlockIndex) (a : Hash) :
  index_wf idx -> ~ descends idx a a.
Proof.
  intros Hwf Hd.
  assert (exists n, lookupNode idx a = Some n) as (n & Hn) by (inversion Hd; eauto).
  pose proof (descends_height _ _ _ _ _ Hwf Hd Hn Hn). lia.
Qed.

(** *** The best candidate *)

Lemma findBestCandidate_snoc (idx : BlockIndex) (x : BlockIndexNode) :
  findBestCandidate (idx ++ [x]) = better (findBestCandidate idx) x.
Proof. unfold findBestCandidate. now rewrite fold_left_app. Qed.

Lemma findBestCandidate_isBest (idx : BlockIndex) : isBest idx (findBestCandidate idx).
Proof.
  induction idx as [|x idx IH] using rev_ind.
  - cbn. intros i m Hi. destruct i; discriminate.
  - rewrite findBestCandidate_snoc. unfold better.
    destruct (isCandidate (node_status x)) eqn:Hx.
    + destruct (findBestCandidate idx) as [b|].
      * destruct IH as (i & Hi & Hb & Hmax).
        pose proof (lookup_lt_Some _ _ _ Hi) as Hlt.
        destruct (Z.ltb_spec (node_work b) (node_work x)) as [Hw|Hw].
        -- exists (List.length idx). split; [apply list_lookup_middle; reflexivity|].
           split; [assumption|]. intros j m Hj Hm.
           apply lookup_snoc_Some in Hj as [[Hjl Hj]|[-> <-]].
           ++ destruct (Hmax j m Hj Hm) as [Hle _]. lia.
           ++ lia.
        -- exists i. split; [now rewrite lookup_app_l|]. split; [assumption|].
           intros j m Hj Hm. apply lookup_snoc_Some in Hj as [[Hjl Hj]|[-> <-]].
           ++ now apply Hmax.
           ++ lia.
      * exists (List.length idx). split; [apply list_lookup_middle; reflexivity|].
        split; [assumption|]. intros j m Hj Hm.
        apply lookup_snoc_Some in Hj as [[Hjl Hj]|[-> <-]]; [|lia].
        rewrite (IH j m Hj) in Hm. discriminate.
    + destruct (findBestCandidate idx) as [b|].
      * destruct IH as (i & Hi & Hb & Hmax).
        pose proof (lookup_lt_Some _ _ _ Hi) as Hlt.
        exists i. split; [now rewrite lookup_app_l|]. split; [assumption|].
        intros j m Hj Hm. apply lookup_snoc_Some in Hj as [[Hjl Hj]|[-> <-]].
        -- now apply Hmax.
        -- congruence.
      * intros j m Hj. apply lookup_snoc_Some in Hj as [[Hjl Hj]|[-> <-]]; eauto.
Qed.

(** The best candidate is a node of the index under its own hash. *)
Lemma findBestCandidate_lookup (idx : BlockIndex) (b : BlockIndexNode) :
  index_wf idx -> findBestCandidate idx = Some b ->
  lookupNode idx (node_hash b) = Some b /\ isCandidate (node_status b) = true.
Proof.
  intros Hwf H. pose proof (findBestCandidate_isBest idx) as Hb. rewrite H in Hb.
  destruct Hb as (i & Hi & Hc & _). split; [|assumption].
  eapply lookupNode_at; eassumption.
Qed.

(** No candidate of the index has more work than the best candidate. *)
Lemma findBestCandidate_max (idx : BlockIndex) (b m : BlockIndexNode) (h : Hash) :
  findBestCandidate idx = Some b -> lookupNode idx h = Some m ->
  isCandidate (node_status m) = true -> node_work m <= node_work b.
Proof.
  intros H Hm Hc. pose proof (findBestCandidate_isBest idx) as Hb. rewrite H in Hb.
  destruct Hb as (i & _ & _ & Hmax).
  destruct (lookupNode_Some _ _ _ Hm) as (_ & j & Hj).
  now apply (Hmax j m Hj Hc).
Qed.

Lemma findBestCandidate_exists (idx : BlockIndex) (m : BlockIndexNode) (h : Hash) :
  lookupNode idx h = Some m -> isCandidate (node_status m) = true ->
  exists b, findBestCandidate idx = Some b.
Proof.
  intros Hm Hc. pose proof (findBestCandidate_isBest idx) as Hb.
  destruct (findBestCandidate idx) as [b|]; [eauto|].
  destruct (lookupNode_Some _ _ _ Hm) as (_ & j & Hj).
  rewrite (Hb j m Hj) in Hc. discriminate.
Qed.

(** *** Invalidation *)

Lemma index_wf_invalidate (idx : BlockIndex) (h : Hash) :
  index_wf idx -> index_wf (invalidate idx h).
Proof. apply index_wf_map, keepsShape_invalidateNode. Qed.

Lemma index_wf_raise (idx : BlockIndex) (h : Hash) (st : Validity) :
  index_wf idx -> index_wf (raiseValidity idx h st).
Proof. apply index_wf_map, keepsShape_raiseNode. Qed.

(** *** The index under its operations *)

Lemma lookupNode_snoc (idx : BlockIndex) (n : BlockIndexNode) (d : Hash) :
  lookupNode (idx ++ [n]) d
  = match lookupNode idx d with
    | Some m => Some m
    | None => if (node_hash n =? d)%N then Some n else None
    end.
Proof.
  unfold lookupNode. induction idx as [|m idx IH]; cbn [List.app List.find]; [reflexivity|].
  destruct (node_hash m =? d)%N; [reflexivity | exact IH].
Qed.

Lemma index_wf_nil : index_wf [].
Proof. split; intros; destruct i; discriminate. Qed.

Lemma index_wf_snoc (idx : BlockIndex) (n : BlockIndexNode) :
  index_wf idx -> lookupNode idx (node_hash n) = None ->
  match node_parent n with
  | Some p => exists m, lookupNode idx p = Some m /\ node_height n = S (node_height m)
  | None => True
  end ->
  index_wf (idx ++ [n]).
Proof.
  intros [Huniq Hpar] Hfresh Hp. split.
  - intros i j a b Hi Hj Hh.
    apply lookup_snoc_Some in Hi as [[Hil Hi]|[-> <-]];
      apply lookup_snoc_Some in Hj as [[Hjl Hj]|[-> <-]].
    + eauto.
    + exfalso. exact (lookupNode_None _ _ Hfresh _ _ Hi Hh).
    + exfalso. exact (lookupNode_None _ _ Hfresh _ _ Hj (eq_sym Hh)).
    + reflexivity.
  - intros i a p Hi Hpa. apply lookup_snoc_Some in Hi as [[Hil Hi]|[-> <-]].
    + destruct (Hpar _ _ _ Hi Hpa) as (j & m & Hj & Hm & Hrest).
      exists j, m. split; [assumption|]. split; [|assumption].
      rewrite lookup_app_l; [assumption | lia].
    + rewrite Hpa in Hp. destruct Hp as (m & Hm & Hht).
      destruct (lookupNode_Some _ _ _ Hm) as (Hh & j & Hj).
      pose proof (lookup_lt_Some _ _ _ Hj) as Hlt.
      exists j, m. split; [assumption|]. split; [now rewrite lookup_app_l|]. now split.
Qed.

Lemma addHeader_cases (P : ConsensusParams) (idx : BlockIndex) (hdr : Header) :
  (addHeader P idx hdr).1 = idx
  \/ exists n, (addHeader P idx hdr).1 = idx ++ [n]
       /\ lookupNode idx (node_hash n) = None
       /\ node_header n = hdr
       /\ match node_parent n with
          | Some p => exists m, lookupNode idx p = Some m
                        /\ node_height n = S (node_height m)
                        /\ node_work n = node_work m + workOf P (hdr_target hdr)
                        /\ (isFailed (node_status m) = true ->
                            isFailed (node_status n) = true)
          | None => idx = [] /\ node_height n = 0%nat
          end
       /\ isCandidate (node_status n) = false.
Proof.
  unfold addHeader. destruct (lookupNode idx (hdr_hash hdr)) as [n|] eqn:Hl; [now left|].
  destruct idx as [|n0 idx'].
  - right. eexists. cbn. repeat split; reflexivity.
  - destruct (lookupNode (n0 :: idx') (hdr_prev hdr)) as [p|] eqn:Hp; [|now left].
    right. eexists. split; [reflexivity|]. split; [exact Hl|]. split; [reflexivity|].
    cbn [node_parent node_height node_work node_status]. split.
    + exists p. destruct (lookupNode_Some _ _ _ Hp) as (-> & _).
      split; [assumption|]. split; [reflexivity|]. split; [reflexivity|].
      now intros ->.
    + now destruct (isFailed (node_status p)).
Qed.

Lemma index_wf_addHeader (P : ConsensusParams) (idx : BlockIndex) (hdr : Header) :
  index_wf idx -> index_wf (addHeader P idx hdr).1.
Proof.
  intros Hwf. destruct (addHeader_cases P idx hdr) as [->|(n & -> & Hfresh & _ & Hp & _)];
    [assumption|].
  apply index_wf_snoc; [assumption | assumption |].
  destruct (node_parent n); [|exact I].
  destruct Hp as (m & Hm & Hht & _). eauto.
Qed.

Lemma failed_closed_addHeader (P : ConsensusParams) (idx : BlockIndex) (hdr : Header) :
  index_wf idx -> failed_closed idx -> failed_closed (addHeader P idx hdr).1.
Proof.
  intros Hwf Hfc.
  destruct (addHeader_cases P idx hdr) as [->|(n & -> & Hfresh & _ & Hp & _)];
    [assumption|].
  intros d a p np Hd Hpa Hnp Hfail. rewrite lookupNode_snoc in Hd, Hnp.
  destruct (lookupNode idx d) as [a'|] eqn:Hda.
  - injection Hd as <-.
    destruct (lookupNode_Some _ _ _ Hda) as (_ & i & Hi).
    destruct (proj2 Hwf _ _ _ Hi Hpa) as (j & m & _ & Hm & Hh & _). subst p.
    rewrite (lookupNode_at _ _ _ Hwf Hm) in Hnp. injection Hnp as <-.
    eapply Hfc; [exact Hda | exact Hpa | eapply lookupNode_at; eassumption | assumption].
  - destruct (node_hash n =? d)%N; [|discriminate]. injection Hd as <-.
    rewrite Hpa in Hp. destruct Hp as (m & Hm & _ & _ & Hf).
    rewrite Hm in Hnp. injection Hnp as <-. auto.
Qed.

Lemma raiseNode_failed (h : Hash) (st : Validity) (n : BlockIndexNode) :
  isFailed (node_status (raiseNode h st n)) = isFailed (node_status n).
Proof.
  unfold raiseNode. destruct (node_hash n =? h)%N; [|reflexivity].
  destruct (isFailed (node_status n)) eqn:Hn; [exact Hn|].
  destruct (isFailed st) eqn:Hst; [exact Hn | exact Hst].
Qed.

Lemma failed_closed_raise (idx : BlockIndex) (h : Hash) (st : Validity) :
  failed_closed idx -> failed_closed (raiseValidity idx h st).
Proof.
  intros Hfc d n p np Hd Hp Hnp Hfail. rewrite lookupNode_raise in Hd, Hnp.
  destruct (lookupNode idx d) as [n0|] eqn:Hd0; [|discriminate]. injection Hd as <-.
  destruct (lookupNode idx p) as [np0|] eqn:Hp0; [|discriminate]. injection Hnp as <-.
  rewrite raiseNode_failed in *.
  rewrite (proj1 (proj2 (keepsShape_raiseNode h st n0))) in Hp. eauto.
Qed.

Lemma invalidateNode_failed (idx : BlockIndex) (h : Hash) (n : BlockIndexNode) :
  isFailed (node_status n) = true ->
  isFailed (node_status (invalidateNode idx h n)) = true.
Proof.
  intros H. unfold invalidateNode.
  destruct (_ =? _)%N; [|destruct (hasAncestor _ _ _ _)]; try reflexivity. assumption.
Qed.

Lemma failed_closed_invalidate (idx : BlockIndex) (h : Hash) :
  index_wf idx -> failed_closed idx -> failed_closed (invalidate idx h).
Proof.
  intros Hwf Hfc d n p np Hd Hp Hnp Hfail. rewrite lookupNode_invalidate in Hd, Hnp.
  destruct (lookupNode idx d) as [n0|] eqn:Hd0; [|discriminate]. injection Hd as <-.
  destruct (lookupNode idx p) as [np0|] eqn:Hp0; [|discriminate]. injection Hnp as <-.
  rewrite invalidateNode_parent in Hp.
  destruct (lookupNode_Some _ _ _ Hd0) as (Hhd & _).
  destruct (lookupNode_Some _ _ _ Hp0) as (Hhp & _).
  assert (Hdesc : p = h \/ descends idx h p -> descends idx h d).
  { intros [->|Hanc]; [eapply descends_child | eapply descends_step]; eassumption. }
  unfold invalidateNode in Hfail |- *. rewrite Hhd. rewrite Hhp in Hfail.
  destruct (d =? h)%N; [reflexivity|].
  destruct (N.eqb_spec p h) as [Hph|Hph].
  - now rewrite (proj2 (hasAncestor_descends idx h d Hwf) (Hdesc (or_introl Hph))).
  - destruct (hasAncestor (List.length idx) idx h p) eqn:Ha.
    + apply hasAncestor_sound in Ha.
      now rewrite (proj2 (hasAncestor_descends idx h d Hwf) (Hdesc (or_intror Ha))).
    + destruct (hasAncestor (List.length idx) idx h d); [reflexivity|]. eauto.
Qed.

Lemma index_inv_step (P : ConsensusParams) (idx idx' : BlockIndex) :
  index_inv idx -> index_step P idx idx' -> index_inv idx'.
Proof.
  intros [Hwf Hfc] [hdr|h st|h].
  - split; [now apply index_wf_addHeader | now apply failed_closed_addHeader].
  - split; [now apply index_wf_raise | now apply failed_closed_raise].
  - split; [now apply index_wf_invalidate | now apply failed_closed_invalidate].
Qed.

Lemma index_inv_steps (P : ConsensusParams) (idx idx' : BlockIndex) :
  index_inv idx -> index_steps P idx idx' -> index_inv idx'.
Proof. intros Hinv. induction 1; [assumption | eauto using index_inv_step]. Qed.

(** A failed node is failed for good. *)
Lemma failed_step (P : ConsensusParams) (idx idx' : BlockIndex) (d : Hash)
    (n : BlockIndexNode) :
  index_step P idx idx' -> lookupNode idx d = Some n -> isFailed (node_status n) = true ->
  exists n', lookupNode idx' d = Some n' /\ isFailed (node_status n') = true.
Proof.
  intros [hdr|h st|h] Hn Hf.
  - destruct (addHeader_cases P idx hdr) as [->|(m & -> & _)]; [eauto|].
    rewrite lookupNode_snoc, Hn. eauto.
  - rewrite lookupNode_raise, Hn. eexists. split; [reflexivity|].
    now rewrite raiseNode_failed.
  - cbn [markInvalid fst]. rewrite lookupNode_invalidate, Hn. eexists.
    split; [reflexivity|]. now apply invalidateNode_failed.
Qed.

Lemma failed_steps (P : ConsensusParams) (idx idx' : BlockIndex) (d : Hash)
    (n : BlockIndexNode) :
  index_steps P idx idx' -> lookupNode idx d = Some n -> isFailed (node_status n) = true ->
  exists n', lookupNode idx' d = Some n' /\ isFailed (node_status n') = true.
Proof.
  induction 1 as [|idx1 idx2 _ IH Hstep]; intros Hn Hf; [eauto|].
  destruct (IH Hn Hf) as (n1 & Hn1 & Hf1). eapply failed_step; eassumption.
Qed.

(** Below a failed node every node is failed. *)
Lemma failed_descends (idx : BlockIndex) (a d : Hash) (na nd : BlockIndexNode) :
  index_inv idx -> descends idx a d ->
  lookupNode idx a = Some na -> isFailed (node_status na) = true ->
  lookupNode idx d = Some nd -> isFailed (node_status nd) = true.
Proof.
  intros [Hwf Hfc] Hd Ha Hfa. revert nd.
  induction Hd as [d n Hn Hp | d n p Hn Hp _ IH]; intros nd Hnd;
    rewrite Hn in Hnd; injection Hnd as <-.
  - eapply Hfc; eassumption.
  - destruct (lookupNode_Some _ _ _ Hn) as (_ & i & Hi).
    destruct (proj2 Hwf _ _ _ Hi Hp) as (j & m & _ & Hm & Hh & _). subst p.
    pose proof (lookupNode_at _ _ _ Hwf Hm) as Hlm.
    eapply Hfc; [exact Hn | exact Hp | exact Hlm | now apply IH].
Qed.

Lemma invalidate_self (idx : BlockIndex) (h : Hash) (n : BlockIndexNode) :
  lookupNode idx h = Some n -> lookupNode (invalidate idx h) h = Some (setStatus n Invalid).
Proof.
  intros Hn. pose proof (lookupNode_Some _ _ _ Hn) as (Hh & _).
  rewrite lookupNode_invalidate, Hn. cbn. unfold invalidateNode.
  rewrite Hh, N.eqb_refl. reflexivity.
Qed.

Lemma invalidate_descendant (idx : BlockIndex) (h d : Hash) :
  index_wf idx -> descends idx h d ->
  exists nd, lookupNode idx d = Some nd
    /\ lookupNode (invalidate idx h) d = Some (setStatus nd InvalidAncestor).
Proof.
  intros Hwf Hd.
  assert (exists nd, lookupNode idx d = Some nd) as (nd & Hnd) by (inversion Hd; eauto).
  exists nd. split; [assumption|].
  rewrite lookupNode_invalidate, Hnd. cbn. unfold invalidateNode.
  pose proof (lookupNode_Some _ _ _ Hnd) as (Hhd & _). rewrite Hhd.
  destruct (N.eqb_spec d h) as [->|Hne].
  - exfalso. exact (descends_irrefl _ _ Hwf Hd).
  - now rewrite (proj2 (hasAncestor_descends idx h d Hwf) Hd).
Qed.

Lemma invalidate_other (idx : BlockIndex) (h d : Hash) :
  d <> h -> ~ descends idx h d -> lookupNode (invalidate idx h) d = lookupNode idx d.
Proof.
  intros Hne Hnd. rewrite lookupNode_invalidate.
  destruct (lookupNode idx d) as [nd|] eqn:Hl; [|reflexivity]. cbn. f_equal.
  unfold invalidateNode. pose proof (lookupNode_Some _ _ _ Hl) as (Hhd & _). rewrite Hhd.
  destruct (N.eqb_spec d h) as [|_]; [contradiction|].
  destruct (hasAncestor (List.length idx) idx h d) eqn:Ha; [|reflexivity].
  exfalso. apply Hnd. now apply hasAncestor_sound in Ha.
Qed.

(** A parent is another node than its child. *)
Lemma parent_neq (idx : BlockIndex) (h p : Hash) (n : BlockIndexNode) :
  index_wf idx -> lookupNode idx h = Some n -> node_parent n = Some p -> p <> h.
Proof.
  intros Hwf Hn Hp ->. apply (descends_irrefl idx h Hwf).
  eapply descends_child; eassumption.
Qed.

(** *** The root, heights and the fork point *)

Lemma index_rooted_map (f : BlockIndexNode -> BlockIndexNode) (idx : BlockIndex) :
  keepsShape f -> index_rooted idx -> index_rooted (List.map f idx).
Proof.
  intros Hf Hr i n Hi Hp. change (List.map f idx) with (f <$> idx) in Hi.
  apply list_lookup_fmap_Some in Hi as (n0 & -> & Hi).
  destruct (Hf n0) as (_ & Hp0 & Hh0 & _). rewrite Hp0 in Hp. rewrite Hh0. eauto.
Qed.

Lemma index_rooted_step (P : ConsensusParams) (idx idx' : BlockIndex) :
  index_rooted idx -> index_step P idx idx' -> index_rooted idx'.
Proof.
  intros Hr [hdr|h st|h].
  - destruct (addHeader_cases P idx hdr) as [->|(n & -> & _ & _ & Hp & _)]; [assumption|].
    intros i a Hi Hpa. apply lookup_snoc_Some in Hi as [[_ Hi]|[-> <-]]; [eauto|].
    rewrite Hpa in Hp. destruct Hp as (-> & Hh). now split.
  - apply index_rooted_map; [apply keepsShape_raiseNode | assumption].
  - apply index_rooted_map; [apply keepsShape_invalidateNode | assumption].
Qed.

Lemma index_rooted_steps (P : ConsensusParams) (idx idx' : BlockIndex) :
  index_rooted idx -> index_steps P idx idx' -> index_rooted idx'.
Proof. intros Hr. induction 1; [assumption | eauto using index_rooted_step]. Qed.

Lemma index_rooted_nil : index_rooted [].
Proof. intros i n Hi. destruct i; discriminate. Qed.

(** A node is no higher than its position in the arena. *)
Lemma height_le_position (idx : BlockIndex) :
  index_wf idx -> index_rooted idx ->
  forall i n, idx !! i = Some n -> (node_height n <= i)%nat.
Proof.
  intros Hwf Hr i. induction i as [i IH] using lt_wf_ind. intros n Hi.
  destruct (node_parent n) as [p|] eqn:Hp.
  - destruct (proj2 Hwf _ _ _ Hi Hp) as (j & m & Hj & Hm & _ & Hh).
    specialize (IH j Hj m Hm). lia.
  - destruct (Hr _ _ Hi Hp) as (_ & ->). lia.
Qed.

Lemma height_lt_length (idx : BlockIndex) (h : Hash) (n : BlockIndexNode) :
  index_wf idx -> index_rooted idx -> lookupNode idx h = Some n ->
  (node_height n < List.length idx)%nat.
Proof.
  intros Hwf Hr Hn. destruct (lookupNode_Some _ _ _ Hn) as (_ & i & Hi).
  pose proof (height_le_position idx Hwf Hr i n Hi).
  pose proof (lookup_lt_Some _ _ _ Hi). lia.
Qed.

Lemma parent_lookup (idx : BlockIndex) (h p : Hash) (n : BlockIndexNode) :
  index_wf idx -> lookupNode idx h = Some n -> node_parent n = Some p ->
  exists np, lookupNode idx p = Some np /\ node_height n = S (node_height np).
Proof.
  intros Hwf Hn Hp. destruct (lookupNode_Some _ _ _ Hn) as (_ & i & Hi).
  destruct (proj2 Hwf _ _ _ Hi Hp) as (j & m & _ & Hm & <- & Hh).
  exists m. split; [eapply lookupNode_at; eassumption | assumption].
Qed.

Lemma root_unique (idx : BlockIndex) (a b : Hash) (na nb : BlockIndexNode) :
  index_rooted idx -> lookupNode idx a = Some na -> lookupNode idx b = Some nb ->
  node_parent na = None -> node_parent nb = None -> a = b.
Proof.
  intros Hr Ha Hb Hpa Hpb.
  destruct (lookupNode_Some _ _ _ Ha) as (<- & i & Hi).
  destruct (lookupNode_Some _ _ _ Hb) as (<- & j & Hj).
  destruct (Hr _ _ Hi Hpa) as (-> & _). destruct (Hr _ _ Hj Hpb) as (-> & _). congruence.
Qed.

Lemma upto_parent (idx : BlockIndex) (f h p : Hash) (n : BlockIndexNode) :
  lookupNode idx h = Some n -> node_parent n = Some p -> upto idx f p -> upto idx f h.
Proof.
  intros Hn Hp [->|Hd]; right; [eapply descends_child | eapply descends_step]; eassumption.
Qed.

(** C4: after the index marks the node [h] Invalid, [h] is Invalid, every
    descendant of [h] in the block tree is InvalidAncestor, every other node
    is as before, and the best candidate returned is the best candidate of
    the index after the marking; neither then nor after any further
    operations on the index is [h] or a descendant of [h] the best
    candidate. *)
Theorem markInvalid_descendants (P : ConsensusParams) (idx : BlockIndex) (h : Hash)
    (n : BlockIndexNode) :
  index_inv idx -> lookupNode idx h = Some n ->
  let (idx', best) := markInvalid idx h in
  lookupNode idx' h = Some (setStatus n Invalid)
  /\ (forall d, descends idx h d ->
        exists nd, lookupNode idx d = Some nd
                   /\ lookupNode idx' d = Some (setStatus nd InvalidAncestor))
  /\ (forall d, d <> h -> ~ descends idx h d -> lookupNode idx' d = lookupNode idx d)
  /\ (forall a d, descends idx' a d <-> descends idx a d)
  /\ isBest idx' best
  /\ (forall idx'' b, index_steps P idx' idx'' -> findBestCandidate idx'' = Some b ->
        node_hash b <> h /\ ~ descends idx'' h (node_hash b)).
Proof.
  intros Hinv Hn. pose proof Hinv as [Hwf Hfc]. unfold markInvalid.
  pose proof (invalidate_self idx h n Hn) as Hself.
  split; [assumption|]. split; [|split; [|split; [|split]]].
  - intros d Hd. now apply invalidate_descendant.
  - intros d Hne Hnd. now apply invalidate_other.
  - intros a d. apply descends_invalidate.
  - apply findBestCandidate_isBest.
  - intros idx'' b Hsteps Hb.
    assert (Hinv' : index_inv (invalidate idx h)).
    { apply (index_inv_step P idx); [assumption | apply (step_markInvalid P idx h)]. }
    pose proof (index_inv_steps _ _ _ Hinv' Hsteps) as Hinv''.
    destruct (failed_steps _ _ _ _ _ Hsteps Hself eq_refl) as (n'' & Hn'' & Hf'').
    destruct (findBestCandidate_lookup _ _ (proj1 Hinv'') Hb) as (Hlb & Hcb).
    assert (Hnf : isFailed (node_status b) = false) by (now destruct (node_status b)).
    split.
    + intros Heq. rewrite Heq, Hn'' in Hlb. injection Hlb as <-. congruence.
    + intros Hd. pose proof (failed_descends _ _ _ _ _ Hinv'' Hd Hn'' Hf'' Hlb). congruence.
Qed.

End BlockIndexFacts.

(** ** Facts about the chainstate manager *)
Module ChainstateFacts.
Import Coins CoinsFacts Validation ValidationFacts BlockIndex BlockIndexFacts Chainstate.

Lemma keepsValid_refl (m : Manager) : keepsValid m m.
Proof. intros h n Hn. eauto. Qed.

Lemma keepsValid_trans (m1 m2 m3 : Manager) :
  keepsValid m1 m2 -> keepsValid m2 m3 -> keepsValid m1 m3.
Proof.
  intros H12 H23 h n Hn.
  destruct (H12 h n Hn) as (n2 & Hn2 & Hw2 & Hs2).
  destruct (H23 h n2 Hn2) as (n3 & Hn3 & Hw3 & Hs3).
  exists n3. split; [assumption|]. split; [congruence | auto].
Qed.

Lemma utxo_setBestBlock (c : CoinsViewCache) (h : Hash) : utxo (setBestBlock c h) = utxo c.
Proof. reflexivity. Qed.

Lemma cache_wf_setBestBlock (c : CoinsViewCache) (h : Hash) :
  cache_wf c -> cache_wf (setBestBlock c h).
Proof. intros H. exact H. Qed.

(** The errors of a disconnect and of a connect. *)
Lemma removeOutputs_Err (created : list OutputReference) : forall c r,
  removeOutputs created c = Err r -> r = InternalInvariant.
Proof.
  induction created as [|ref rest IH]; intros c r H; cbn [removeOutputs] in H; [discriminate|].
  destruct (removeOutputs rest c) as [c'|r'] eqn:Hr; cbn [bind] in H.
  - destruct (spendCoin c' ref) as [[?|] ?]; congruence.
  - injection H as <-. eauto.
Qed.

Lemma restoreInputs_Err (spent : list (OutputReference * Coin)) : forall c r,
  restoreInputs spent c = Err r -> r = InternalInvariant.
Proof.
  induction spent as [|[ref coin] rest IH]; intros c r H; cbn [restoreInputs] in H;
    [discriminate|].
  destruct (restoreInputs rest c) as [c'|r'] eqn:Hr; cbn [bind] in H.
  - now apply addCoin_Err in H.
  - injection H as <-. eauto.
Qed.

Lemma disconnectTxs_Err (us : BlockUndo) : forall c r,
  disconnectTxs us c = Err r -> r = InternalInvariant.
Proof.
  induction us as [|u rest IH]; intros c r H; cbn [disconnectTxs] in H; [discriminate|].
  destruct (disconnectTxs rest c) as [c'|r'] eqn:Hr; cbn [bind] in H.
  - unfold disconnectTx in H.
    destruct (removeOutputs (undo_created u) c') as [c''|r''] eqn:Hro; cbn [bind] in H.
    + eapply restoreInputs_Err; eassumption.
    + injection H as <-. eapply removeOutputs_Err; eassumption.
  - injection H as <-. eauto.
Qed.

Lemma disconnectBlock_Err (c c' : CoinsViewCache) (us : BlockUndo) (r : RejectReason) :
  disconnectBlock c us = (Err r, c') -> r = InternalInvariant.
Proof.
  unfold disconnectBlock. destruct (disconnectTxs us c) as [c1|r1] eqn:H; [discriminate|].
  intros [= <- <-]. eapply disconnectTxs_Err; eassumption.
Qed.

Lemma connectBlock_reasons (P : ConsensusParams) (c c' : CoinsViewCache) (b : Block)
    (height : nat) (r : RejectReason) :
  connectBlock P c b height = (Err r, c') ->
  r = ConsensusViolation \/ r = InternalInvariant.
Proof.
  unfold connectBlock. destruct (connectTxs P height (txs b) c ∅) as [[c1 us]|r1] eqn:H.
  - destruct (_ <? _); [|discriminate]. intros [= <- <-]. now left.
  - intros [= <- <-]. eapply connectTxs_Err; eassumption.
Qed.

(** In a connected index the ancestors of a ScriptsValid node are
    ScriptsValid. *)
Lemma valid_ancestors (P : ConsensusParams) (m : Manager)
    (U : Hash -> option (gmap OutputReference Coin)) (a d : Hash) (na nd : BlockIndexNode) :
  connected P m U -> descends (mgr_index m) a d ->
  lookupNode (mgr_index m) d = Some nd -> node_status nd = ScriptsValid ->
  lookupNode (mgr_index m) a = Some na -> node_status na = ScriptsValid.
Proof.
  intros Hc Hd. revert nd.
  induction Hd as [d n Hn Hp | d n p Hn Hp _ IH]; intros nd Hnd Hs Ha;
    rewrite Hn in Hnd; injection Hnd as <-;
    destruct (Hc d n Hn Hs) as (Un & _ & _ & Hrec); rewrite Hp in Hrec;
    destruct Hrec as (np & b & us & c0 & c0' & Hnp & Hsp & _).
  - congruence.
  - eauto.
Qed.

Lemma invalidateNode_valid (idx : BlockIndex) (h : Hash) (n : BlockIndexNode) :
  node_status (invalidateNode idx h n) = ScriptsValid -> invalidateNode idx h n = n.
Proof.
  unfold invalidateNode. destruct (_ =? _)%N; [discriminate|].
  destruct (hasAncestor _ _ _ _); [discriminate | reflexivity].
Qed.

(** Descent in an index that is extended, and back. *)
Lemma descends_extend (idx idx' : BlockIndex) (a d : Hash) :
  (forall x n, lookupNode idx x = Some n -> lookupNode idx' x = Some n) ->
  descends idx a d -> descends idx' a d.
Proof.
  intros Hl. induction 1 as [d n Hn Hp | d n p Hn Hp _ IH].
  - eapply descends_child; eauto.
  - eapply descends_step; eauto.
Qed.

Lemma descends_restrict (idx idx' : BlockIndex) (a d : Hash) :
  index_wf idx ->
  (forall x n, lookupNode idx x = Some n -> lookupNode idx' x = Some n) ->
  descends idx' a d -> is_Some (lookupNode idx d) -> descends idx a d.
Proof.
  intros Hwf Hl. induction 1 as [d n Hn Hp | d n p Hn Hp _ IH]; intros [n0 Hn0];
    pose proof (Hl _ _ Hn0) as Hn0'; rewrite Hn in Hn0'; injection Hn0' as <-.
  - eapply descends_child; eassumption.
  - eapply descends_step; [eassumption..|]. apply IH.
    destruct (parent_lookup _ _ _ _ Hwf Hn0 Hp) as (np & Hnp & _). eauto.
Qed.

Lemma descends_ancestor_known (idx : BlockIndex) (a d : Hash) :
  index_wf idx -> descends idx a d -> is_Some (lookupNode idx a).
Proof.
  intros Hwf. induction 1 as [d n Hn Hp | d n p Hn Hp _ IH]; [|exact IH].
  destruct (parent_lookup _ _ _ _ Hwf Hn Hp) as (np & Hnp & _). eauto.
Qed.

Lemma upto_map (f : BlockIndexNode -> BlockIndexNode) (idx : BlockIndex) (a d : Hash) :
  keepsShape f -> upto (List.map f idx) a d <-> upto idx a d.
Proof.
  intros Hf. unfold upto. now rewrite (descends_map f idx a d Hf).
Qed.

(** The origin of the coins and the distinct outputs, from one manager to
    another whose index differs in statuses only. *)
Lemma coinsFrom_map (f : BlockIndexNode -> BlockIndexNode) (m m' : Manager) (h : Hash)
    (Un : gmap OutputReference Coin) :
  keepsShape f -> mgr_index m' = List.map f (mgr_index m) -> mgr_bodies m' = mgr_bodies m ->
  coinsFrom m h Un -> coinsFrom m' h Un.
Proof.
  intros Hf Hidx Hb Hcf ref Hr. destruct (Hcf ref Hr) as (k & bk & Hup & Hbk & Hin).
  exists k, bk. rewrite Hidx, Hb. split; [now apply upto_map|]. now split.
Qed.

Lemma outputs_distinct_map (f : BlockIndexNode -> BlockIndexNode) (m m' : Manager) :
  keepsShape f -> mgr_index m' = List.map f (mgr_index m) -> mgr_bodies m' = mgr_bodies m ->
  outputs_distinct m -> outputs_distinct m'.
Proof.
  intros Hf Hidx Hb Hd h b Hh. rewrite Hb in Hh. destruct (Hd h b Hh) as (Hnd & Hdis).
  split; [assumption|]. intros k bk ref Hdesc Hk. rewrite Hb in Hk.
  rewrite Hidx in Hdesc. apply (proj1 (descends_map f _ _ _ Hf)) in Hdesc.
  exact (Hdis k bk ref Hdesc Hk).
Qed.

(** The block to connect on the tip creates its outputs where the UTXO
    set holds no coin: the coins of the set come from the branch of the tip,
    and the block creates no reference that a block of its branch creates. *)
Lemma child_outputs_new (P : ConsensusParams) (m : Manager) (h : Hash) (n : BlockIndexNode)
    (b : Block) :
  manager_inv P m -> lookupNode (mgr_index m) h = Some n ->
  node_parent n = Some (mgr_tip m) -> mgr_bodies m !! h = Some b ->
  NoDup (blockOutputs b)
  /\ forall ref, ref ∈ blockOutputs b -> utxo (mgr_coins m) !! ref = None.
Proof.
  intros (Hidx & Hwf & Hdist & U & (nt & Hnt & Hst) & HU & Hconn) Hn Hpar Hb.
  destruct (Hdist h b Hb) as (Hnd & Hdis). split; [exact Hnd|].
  intros ref Hin. destruct (utxo (mgr_coins m) !! ref) as [coin|] eqn:Hc; [|reflexivity].
  exfalso. destruct (Hconn _ _ Hnt Hst) as (Un & HUn & Hcf & _).
  assert (Un = utxo (mgr_coins m)) by congruence. subst Un.
  destruct (Hcf ref) as (k & bk & Hup & Hbk & Hink); [now rewrite Hc|].
  apply (Hdis k bk ref); [|assumption..].
  destruct Hup as [->|Hd]; [eapply descends_child | eapply descends_step]; eassumption.
Qed.

(** Undoing the tip keeps the invariant: the undo log restores the UTXO set
    as of the parent. *)
Lemma disconnectTip_inv (P : ConsensusParams) (m m' : Manager) :
  manager_inv P m -> disconnectTip m = Ok m' ->
  manager_inv P m' /\ mgr_index m' = mgr_index m.
Proof.
  intros (Hidx & Hwf & Hdist & U & (nt & Hnt & Hst) & HU & Hconn) H.
  unfold disconnectTip in H. rewrite Hnt in H.
  destruct (node_parent nt) as [p|] eqn:Hp; [|discriminate].
  destruct (mgr_undos m !! mgr_tip m) as [us|] eqn:Hus; [|discriminate].
  destruct (Hconn _ _ Hnt Hst) as (Un & HUn & Hcf & Hrec). rewrite Hp in Hrec.
  destruct Hrec as (np & b & us' & c0 & c0' & Hnp & Hsp & Hb & Hus' & Hwf0 & HUp & Hnew
                      & Hcb & HUn').
  assert (us' = us) by congruence. subst us'.
  assert (Hview : utxo (mgr_coins m) = utxo c0') by congruence.
  destruct (disconnectBlock_undoes P c0 c0' (mgr_coins m) b _ us Hwf0 Hnew Hcb Hwf Hview)
    as (d' & Hdis & Hud & Hwfd & _).
  rewrite Hdis in H. injection H as <-. split; [|reflexivity].
  split; [exact Hidx|]. split; [exact Hwfd|]. split; [exact Hdist|].
  exists U. split; [exists np; now split|]. split; [|exact Hconn].
  cbn [mgr_tip mgr_coins]. now rewrite utxo_setBestBlock, Hud.
Qed.

Lemma disconnectTip_Err (m : Manager) (r : RejectReason) :
  disconnectTip m = Err r -> r = InternalInvariant.
Proof.
  unfold disconnectTip. destruct (lookupNode _ _) as [n|]; [|congruence].
  destruct (node_parent n); [|congruence].
  destruct (mgr_undos m !! mgr_tip m) as [us|]; [|congruence].
  destruct (disconnectBlock (mgr_coins m) us) as [[[]|r'] c'] eqn:Hd; [discriminate|].
  intros [= <-]. eapply disconnectBlock_Err; eassumption.
Qed.

Lemma disconnectTo_inv (P : ConsensusParams) (fork : Hash) (fuel : nat) : forall m m',
  manager_inv P m -> disconnectTo fuel fork m = Ok m' ->
  manager_inv P m' /\ mgr_index m' = mgr_index m /\ mgr_tip m' = fork.
Proof.
  induction fuel as [|fuel IH]; intros m m' Hinv H; cbn [disconnectTo] in H.
  - destruct (N.eqb_spec (mgr_tip m) fork); [|discriminate]. injection H as <-. now split.
  - destruct (N.eqb_spec (mgr_tip m) fork); [injection H as <-; now split|].
    destruct (disconnectTip m) as [m1|] eqn:Hd; [|discriminate]. cbn [bind] in H.
    destruct (disconnectTip_inv P m m1 Hinv Hd) as (Hinv1 & Hidx1).
    destruct (IH m1 m' Hinv1 H) as (Hinv' & Hidx' & Htip). split; [assumption|].
    split; [congruence | assumption].
Qed.

Lemma disconnectTo_Err (fork : Hash) (fuel : nat) : forall m r,
  disconnectTo fuel fork m = Err r -> r = InternalInvariant.
Proof.
  induction fuel as [|fuel IH]; intros m r H; cbn [disconnectTo] in H.
  - destruct (_ =? _)%N; congruence.
  - destruct (_ =? _)%N; [discriminate|].
    destruct (disconnectTip m) as [m1|r1] eqn:Hd; cbn [bind] in H; [eauto|].
    injection H as <-. eapply disconnectTip_Err; eassumption.
Qed.

Lemma raiseNode_valid (h : Hash) (n : BlockIndexNode) :
  node_status n = ScriptsValid -> node_status (raiseNode h ScriptsValid n) = ScriptsValid.
Proof. intros H. unfold raiseNode. now destruct (_ && _ && _). Qed.

Lemma raiseNode_other (h : Hash) (st : Validity) (n : BlockIndexNode) :
  node_hash n <> h -> raiseNode h st n = n.
Proof.
  intros H. unfold raiseNode. now destruct (N.eqb_spec (node_hash n) h).
Qed.

(** What the manager knows when it is about to connect [h] on its tip. *)
Lemma connectTip_pre (P : ConsensusParams) (h : Hash) (m : Manager) (n : BlockIndexNode)
    (b : Block) (U : Hash -> option (gmap OutputReference Coin)) :
  cache_wf (mgr_coins m) -> connected P m U ->
  U (mgr_tip m) = Some (utxo (mgr_coins m)) ->
  lookupNode (mgr_index m) h = Some n -> mgr_bodies m !! h = Some b ->
  node_parent n = Some (mgr_tip m) -> node_status n = ScriptsValid ->
  exists us c', connectBlock P (mgr_coins m) b (node_height n) = (Ok us, c')
    /\ mgr_undos m !! h = Some us /\ U h = Some (utxo c').
Proof.
  intros Hwf Hconn HU Hn Hb Hpar Hs.
  destruct (Hconn h n Hn Hs) as (Un & HUn & Hcf & Hrec). rewrite Hpar in Hrec.
  destruct Hrec as (np & b' & us & c0 & c0' & _ & _ & Hb' & Hus & Hwf0 & HUp & Hnew0 & Hcb0
                      & HUn').
  assert (b' = b) by congruence. subst b'.
  assert (Hv : sameView c0 (mgr_coins m)).
  { split; [assumption|]. split; [assumption | congruence]. }
  destruct (connectBlock_view P c0 (mgr_coins m) b (node_height n) Hv Hnew0) as (Hfst & Hsnd).
  rewrite Hcb0 in Hfst, Hsnd. cbn in Hfst, Hsnd.
  destruct (connectBlock P (mgr_coins m) b (node_height n)) as [res c'].
  cbn in Hfst, Hsnd. subst res. exists us, c'. split; [reflexivity|].
  split; [assumption|]. destruct Hsnd as (_ & _ & Heq). congruence.
Qed.

Lemma connectTip_Connected (P : ConsensusParams) (h : Hash) (m m' : Manager) :
  manager_inv P m -> connectTip P h m = Connected m' ->
  manager_inv P m' /\ keepsValid m m' /\ mgr_tip m' = h.
Proof.
  intros Hinv H. pose proof Hinv as (Hidx & Hwf & Hdist & U & (nt & Hnt & Hst) & HU & Hconn).
  unfold connectTip in H.
  destruct (lookupNode (mgr_index m) h) as [n|] eqn:Hn; [|discriminate].
  destruct (mgr_bodies m !! h) as [b|] eqn:Hb; [|discriminate].
  destruct (negb (bool_decide (node_parent n = Some (mgr_tip m))) || isFailed (node_status n))
    eqn:Hchk; [discriminate|].
  apply orb_false_iff in Hchk as [Hpar Hnf].
  apply negb_false_iff, bool_decide_eq_true in Hpar.
  destruct (connectBlock P (mgr_coins m) b (node_height n)) as [[us|r] c'] eqn:Hcb;
    [|destruct (isRejection r); discriminate].
  injection H as <-.
  pose proof (parent_neq _ _ _ _ (proj1 Hidx) Hn Hpar) as Hne.
  pose proof (lookupNode_Some _ _ _ Hn) as (Hhn & _).
  pose proof (lookupNode_Some _ _ _ Hnt) as (Hhnt & _).
  destruct (child_outputs_new P m h n b Hinv Hn Hpar Hb) as (Hnd & Hfresh).
  destruct (connectBlock_fresh P (mgr_coins m) b (node_height n) Hwf Hnd Hfresh)
    as (Hnew & _).
  destruct (parent_lookup _ _ _ _ (proj1 Hidx) Hn Hpar) as (np & Hnp & Hhn').
  assert (np = nt) by congruence. subst np.
  destruct (Hconn _ _ Hnt Hst) as (Unt & HUnt & Hcft & _).
  assert (Unt = utxo (mgr_coins m)) by congruence. subst Unt.
  assert (Hsame : forall Un h2, coinsFrom m h2 Un ->
            coinsFrom {| mgr_index := raiseValidity (mgr_index m) h ScriptsValid;
                         mgr_bodies := mgr_bodies m;
                         mgr_undos := <[h := us]> (mgr_undos m);
                         mgr_coins := setBestBlock c' h; mgr_tip := h;
                         mgr_events := mgr_events m ++ [BlockConnected h; TipChanged h] |}
                      h2 Un).
  { intros Un h2. apply (coinsFrom_map (raiseNode h ScriptsValid));
      [apply keepsShape_raiseNode | reflexivity..]. }
  assert (Hold : node_status n = ScriptsValid ->
                 mgr_undos m !! h = Some us /\ U h = Some (utxo c')).
  { intros Hs.
    destruct (connectTip_pre P h m n b U Hwf Hconn HU Hn Hb Hpar Hs)
      as (us' & c'' & Hcb' & Hus' & HUh).
    rewrite Hcb in Hcb'. injection Hcb' as <- <-. now split. }
  assert (Hkv : keepsValid m {| mgr_index := raiseValidity (mgr_index m) h ScriptsValid;
                                mgr_bodies := mgr_bodies m;
                                mgr_undos := <[h := us]> (mgr_undos m);
                                mgr_coins := setBestBlock c' h; mgr_tip := h;
                                mgr_events := mgr_events m ++ [BlockConnected h; TipChanged h] |}).
  { intros h2 n2 Hn2. exists (raiseNode h ScriptsValid n2). cbn [mgr_index].
    rewrite lookupNode_raise, Hn2. split; [reflexivity|].
    split; [apply keepsShape_raiseNode | apply raiseNode_valid]. }
  split; [|split; [exact Hkv | reflexivity]].
  split; [apply (index_inv_step P (mgr_index m)); [assumption | apply step_raiseValidity]|].
  split.
  { cbn [mgr_coins]. apply cache_wf_setBestBlock.
    exact (proj1 (connectBlock_wf P _ _ _ _ _ Hwf Hcb)). }
  split.
  { apply (outputs_distinct_map (raiseNode h ScriptsValid) m);
      [apply keepsShape_raiseNode | reflexivity | reflexivity | exact Hdist]. }
  exists (fun x => if (x =? h)%N then Some (utxo c') else U x).
  cbn [mgr_index mgr_tip mgr_coins mgr_bodies mgr_undos].
  split; [|split].
  - exists (raiseNode h ScriptsValid n). rewrite lookupNode_raise, Hn. split; [reflexivity|].
    unfold raiseNode. rewrite Hhn, N.eqb_refl, Hnf. reflexivity.
  - now rewrite N.eqb_refl, utxo_setBestBlock.
  - intros h2 n2' Hn2' Hs2. cbn [mgr_index mgr_bodies mgr_undos] in *.
    rewrite lookupNode_raise in Hn2'.
    destruct (lookupNode (mgr_index m) h2) as [n2|] eqn:Hn2; [|discriminate].
    injection Hn2' as <-.
    pose proof (keepsShape_raiseNode h ScriptsValid n2) as (_ & Hp2 & Hht2 & _).
    rewrite Hp2, Hht2.
    destruct (N.eqb_spec h2 h) as [->|Hne2].
    + rewrite Hn in Hn2. injection Hn2 as <-.
      exists (utxo c'). split; [reflexivity|]. split.
      { intros ref Hr.
        destruct (connectBlock_coins P _ _ _ _ _ ref Hwf Hcb Hr) as [Hbefore|Hin].
        - destruct (Hcft ref Hbefore) as (k & bk & Hup & Hbk & Hink).
          exists k, bk. cbn [mgr_index mgr_bodies].
          split; [|now split].
          apply (upto_map (raiseNode h ScriptsValid)); [apply keepsShape_raiseNode|].
          eapply upto_parent; eassumption.
        - exists h, b. split; [now left | now split]. }
      rewrite Hpar.
      exists (raiseNode h ScriptsValid nt), b, us, (mgr_coins m), c'.
      split; [now rewrite lookupNode_raise, Hnt|].
      split; [now apply raiseNode_valid|].
      split; [assumption|]. split; [apply lookup_insert_eq|].
      split; [assumption|].
      split; [destruct (N.eqb_spec (mgr_tip m) h); [contradiction | assumption]|].
      split; [assumption|]. now split.
    + pose proof (lookupNode_Some _ _ _ Hn2) as (Hh2 & _).
      rewrite raiseNode_other in Hs2 by congruence.
      destruct (Hconn h2 n2 Hn2 Hs2) as (Un & HUn & Hcf & Hrec).
      exists Un. split; [assumption|].
      split; [now apply Hsame|].
      destruct (node_parent n2) as [p2|]; [|exact I].
      destruct Hrec as (np2 & b2 & us2 & c02 & c02' & Hnp2 & Hsp2 & Hb2 & Hus2 & Hwf2
                          & HUp2 & Hnew2 & Hcb2 & HUn2).
      exists (raiseNode h ScriptsValid np2), b2, us2, c02, c02'.
      split; [now rewrite lookupNode_raise, Hnp2|].
      split; [now apply raiseNode_valid|].
      split; [assumption|].
      split; [now rewrite lookup_insert_ne|].
      split; [assumption|].
      split; [|now split].
      destruct (N.eqb_spec p2 h) as [->|_]; [|assumption].
      rewrite Hn in Hnp2. injection Hnp2 as <-.
      destruct (Hold Hsp2) as (_ & HUh). congruence.
Qed.

Lemma connectTip_Rejected (P : ConsensusParams) (h : Hash) (m m' : Manager) :
  manager_inv P m -> connectTip P h m = Rejected m' ->
  manager_inv P m' /\ keepsValid m m' /\ mgr_tip m' = mgr_tip m.
Proof.
  intros (Hidx & Hwf & Hdist & U & (nt & Hnt & Hst) & HU & Hconn) H.
  unfold connectTip in H.
  destruct (lookupNode (mgr_index m) h) as [n|] eqn:Hn; [|discriminate].
  destruct (mgr_bodies m !! h) as [b|] eqn:Hb; [|discriminate].
  destruct (negb (bool_decide (node_parent n = Some (mgr_tip m))) || isFailed (node_status n))
    eqn:Hchk; [discriminate|].
  apply orb_false_iff in Hchk as [Hpar Hnf].
  apply negb_false_iff, bool_decide_eq_true in Hpar.
  destruct (connectBlock P (mgr_coins m) b (node_height n)) as [[us|r] c'] eqn:Hcb;
    [discriminate|].
  destruct (isRejection r); [|discriminate]. injection H as <-.
  assert (Hnsv : node_status n <> ScriptsValid).
  { intros Hs.
    destruct (connectTip_pre P h m n b U Hwf Hconn HU Hn Hb Hpar Hs) as (us' & c'' & Hcb' & _).
    congruence. }
  assert (Hkeep : forall h2 n2, lookupNode (mgr_index m) h2 = Some n2 ->
            node_status n2 = ScriptsValid ->
            lookupNode (invalidate (mgr_index m) h) h2 = Some n2).
  { intros h2 n2 Hn2 Hs2. rewrite <- Hn2. apply invalidate_other.
    - intros ->. congruence.
    - intros Hd. apply Hnsv. eapply valid_ancestors; eassumption. }
  cbn [markInvalid fst].
  split; [|split; [|reflexivity]].
  - split; [apply (index_inv_step P (mgr_index m)); [assumption | apply step_markInvalid]|].
    split; [assumption|].
    split.
    { apply (outputs_distinct_map (invalidateNode (mgr_index m) h) m);
        [apply keepsShape_invalidateNode | reflexivity | reflexivity | exact Hdist]. }
    exists U. cbn [mgr_index mgr_tip mgr_coins].
    split; [exists nt; split; [now apply Hkeep | assumption]|].
    split; [assumption|].
    intros h2 n2' Hn2' Hs2. cbn [mgr_index mgr_bodies mgr_undos] in *.
    rewrite lookupNode_invalidate in Hn2'.
    destruct (lookupNode (mgr_index m) h2) as [n2|] eqn:Hn2; [|discriminate].
    injection Hn2' as <-. pose proof (invalidateNode_valid _ _ _ Hs2) as Heq.
    rewrite Heq in Hs2 |- *.
    destruct (Hconn h2 n2 Hn2 Hs2) as (Un & HUn & Hcf & Hrec).
    exists Un. split; [assumption|].
    split.
    { apply (coinsFrom_map (invalidateNode (mgr_index m) h) m);
        [apply keepsShape_invalidateNode | reflexivity | reflexivity | exact Hcf]. }
    destruct (node_parent n2) as [p2|]; [|exact I].
    destruct Hrec as (np2 & b2 & us2 & c02 & c02' & Hnp2 & Hsp2 & Hrest).
    exists np2, b2, us2, c02, c02'. split; [now apply Hkeep|]. now split.
  - intros h2 n2 Hn2. exists (invalidateNode (mgr_index m) h n2). cbn [mgr_index].
    rewrite lookupNode_invalidate, Hn2. split; [reflexivity|].
    split; [apply invalidateNode_work|].
    intros Hs2. pose proof (Hkeep h2 n2 Hn2 Hs2) as Hk.
    rewrite lookupNode_invalidate, Hn2 in Hk. injection Hk as ->. assumption.
Qed.

Lemma connectTip_Halted (P : ConsensusParams) (h : Hash) (m m' : Manager) (r : RejectReason) :
  connectTip P h m = Halted r m' -> r = InternalInvariant.
Proof.
  unfold connectTip.
  destruct (lookupNode (mgr_index m) h) as [n|]; [|congruence].
  destruct (mgr_bodies m !! h) as [b|]; [|congruence].
  destruct (_ || _); [congruence|].
  destruct (connectBlock P (mgr_coins m) b (node_height n)) as [[us|r'] c'] eqn:Hcb;
    [discriminate|].
  destruct (isRejection r') eqn:Hr; [discriminate|]. intros [= <- <-].
  destruct (connectBlock_reasons _ _ _ _ _ _ Hcb) as [->| ->]; [discriminate | reflexivity].
Qed.

Lemma last_cons_default {A : Type} (x d : A) (l : list A) :
  List.last (x :: l) d = List.last l x.
Proof.
  revert x d. induction l as [|y l IH]; intros x d; [reflexivity|].
  change (List.last (x :: y :: l) d) with (List.last (y :: l) d).
  now rewrite !IH.
Qed.

Lemma connectPath_inv (P : ConsensusParams) (path : list Hash) : forall m,
  manager_inv P m ->
  match connectPath P path m with
  | Connected m' =>
      manager_inv P m' /\ keepsValid m m' /\ mgr_tip m' = List.last path (mgr_tip m)
  | Rejected m' => manager_inv P m' /\ keepsValid m m'
  | Halted r _ => r = InternalInvariant
  end.
Proof.
  induction path as [|h rest IH]; intros m Hinv; cbn [connectPath].
  - split; [assumption|]. split; [apply keepsValid_refl | reflexivity].
  - destruct (connectTip P h m) as [m1|m1|r m1] eqn:Ht.
    + destruct (connectTip_Connected P h m m1 Hinv Ht) as (Hinv1 & Hkv1 & Htip1).
      specialize (IH m1 Hinv1).
      destruct (connectPath P rest m1) as [m2|m2|r m2].
      * destruct IH as (Hinv2 & Hkv2 & Htip2). split; [assumption|].
        split; [eapply keepsValid_trans; eassumption|].
        rewrite last_cons_default. congruence.
      * destruct IH as (Hinv2 & Hkv2). split; [assumption|].
        eapply keepsValid_trans; eassumption.
      * assumption.
    + destruct (connectTip_Rejected P h m m1 Hinv Ht) as (Hinv1 & Hkv1 & _). now split.
    + eapply connectTip_Halted; eassumption.
Qed.

(** The path computed from the fork point ends at the candidate. *)
Lemma pathUp_last (idx : BlockIndex) (fork : Hash) (fuel : nat) : forall h acc path,
  pathUp fuel idx fork h acc = Some path ->
  (h = fork /\ path = acc) \/ exists pre, path = pre ++ h :: acc.
Proof.
  induction fuel as [|fuel IH]; intros h acc path H; cbn [pathUp] in H; [discriminate|].
  destruct (N.eqb_spec h fork) as [->|Hne]; [left; split; congruence|].
  destruct (lookupNode idx h) as [n|]; [|discriminate].
  destruct (node_parent n) as [p|]; [|discriminate].
  right. destruct (IH p (h :: acc) path H) as [[_ ->]|(pre & ->)].
  - now exists [].
  - exists (pre ++ [p]). now rewrite <- List.app_assoc.
Qed.

Lemma pathUp_target (idx : BlockIndex) (fork h : Hash) (fuel : nat) (path : list Hash) :
  pathUp fuel idx fork h [] = Some path -> List.last path fork = h.
Proof.
  intros H. destruct (pathUp_last _ _ _ _ _ _ H) as [[-> ->]|(pre & ->)]; [reflexivity|].
  apply List.last_last.
Qed.

Lemma keepsValid_same_index (m m' : Manager) :
  mgr_index m' = mgr_index m -> keepsValid m m'.
Proof. intros H h n Hn. rewrite H. eauto. Qed.

(** One attempt of the algorithm. *)
Lemma activateStep_spec (P : ConsensusParams) (m : Manager) :
  manager_inv P m ->
  match activateStep P m with
  | Settled m' =>
      m' = m /\ forall c, findBestCandidate (mgr_index m) = Some c -> node_hash c = mgr_tip m
  | Switched m' =>
      manager_inv P m' /\ keepsValid m m'
      /\ exists c, findBestCandidate (mgr_index m) = Some c /\ mgr_tip m' = node_hash c
  | Retry m' => manager_inv P m' /\ keepsValid m m'
  | Failed r _ => r = InternalInvariant
  end.
Proof.
  intros Hinv. unfold activateStep.
  destruct (findBestCandidate (mgr_index m)) as [c|] eqn:Hc; [|split; [reflexivity | discriminate]].
  destruct (N.eqb_spec (node_hash c) (mgr_tip m)) as [Heq|Hne].
  { split; [reflexivity|]. now intros c' [= <-]. }
  destruct (findFork _ _ _ _) as [fork|]; [|reflexivity].
  destruct (disconnectTo _ fork m) as [m1|r] eqn:Hd;
    [|eapply disconnectTo_Err; eassumption].
  destruct (disconnectTo_inv P fork _ m m1 Hinv Hd) as (Hinv1 & Hidx1 & Htip1).
  destruct (pathUp _ _ fork (node_hash c) []) as [path|] eqn:Hp; [|reflexivity].
  pose proof (connectPath_inv P path m1 Hinv1) as Hcp.
  pose proof (keepsValid_same_index m m1 Hidx1) as Hkv1.
  destruct (connectPath P path m1) as [m2|m2|r m2].
  - destruct Hcp as (Hinv2 & Hkv2 & Htip2). split; [assumption|].
    split; [eapply keepsValid_trans; eassumption|].
    exists c. split; [reflexivity|]. rewrite Htip2, Htip1. eapply pathUp_target; eassumption.
  - destruct Hcp as (Hinv2 & Hkv2). split; [assumption|].
    eapply keepsValid_trans; eassumption.
  - assumption.
Qed.

Lemma isCandidate_valid (n : BlockIndexNode) :
  node_status n = ScriptsValid -> isCandidate (node_status n) = true.
Proof. now intros ->. Qed.

(** The loop ends, if it does not halt, on a tip with no less work than any
    node that was ScriptsValid when it started. *)
Lemma activateLoop_spec (P : ConsensusParams) (fuel : nat) : forall m h0 n0,
  manager_inv P m ->
  lookupNode (mgr_index m) h0 = Some n0 -> node_status n0 = ScriptsValid ->
  match activateLoop P fuel m with
  | (Ok _, m') => manager_inv P m' /\ node_work n0 <= chainWork m'
  | (Err r, _) => r = InternalInvariant
  end.
Proof.
  induction fuel as [|fuel IH]; intros m h0 n0 Hinv Hn0 Hs0; cbn [activateLoop];
    [reflexivity|].
  pose proof (activateStep_spec P m Hinv) as Hstep.
  destruct (activateStep P m) as [m1|m1|m1|r m1].
  - destruct Hstep as (-> & Hbest). split; [assumption|].
    destruct (findBestCandidate_exists _ _ _ Hn0 (isCandidate_valid _ Hs0)) as (c & Hc).
    destruct (findBestCandidate_lookup _ _ (proj1 (proj1 Hinv)) Hc) as (Hlc & _).
    unfold chainWork. rewrite <- (Hbest c Hc), Hlc.
    eapply findBestCandidate_max; [exact Hc | exact Hn0 | now apply isCandidate_valid].
  - destruct Hstep as (Hinv1 & Hkv & c & Hc & Htip). split; [assumption|].
    destruct (findBestCandidate_lookup _ _ (proj1 (proj1 Hinv)) Hc) as (Hlc & _).
    destruct (Hkv _ _ Hlc) as (c' & Hlc' & Hw & _).
    unfold chainWork. rewrite Htip, Hlc', Hw.
    eapply findBestCandidate_max; [exact Hc | exact Hn0 | now apply isCandidate_valid].
  - destruct Hstep as (Hinv1 & Hkv).
    destruct (Hkv _ _ Hn0) as (n1 & Hn1 & Hw1 & Hs1).
    specialize (IH m1 h0 n1 Hinv1 Hn1 (Hs1 Hs0)). rewrite Hw1 in IH. exact IH.
  - assumption.
Qed.

Lemma manager_inv_withCoinsOf (P : ConsensusParams) (m : Manager) (c : CoinsViewCache) :
  manager_inv P m -> cache_wf c -> utxo c = utxo (mgr_coins m) ->
  manager_inv P (withCoinsOf m c).
Proof.
  intros (Hidx & Hwf & Hdist & U & Htip & HU & Hconn) Hwfc Hu.
  split; [assumption|]. split; [assumption|]. split; [exact Hdist|].
  exists U. split; [assumption|]. split; [cbn; now rewrite Hu | exact Hconn].
Qed.

(** Activation keeps the invariant and never lowers the work of the tip. *)
Lemma activateBestChain_spec (P : ConsensusParams) (device_ok : bool) (m m' : Manager)
    (r : Result unit) :
  manager_inv P m -> activateBestChain P device_ok m = (r, m') ->
  r <> Err InternalInvariant ->
  manager_inv P m' /\ chainWork m <= chainWork m'.
Proof.
  intros Hinv H Hr. pose proof Hinv as (_ & _ & _ & U & (nt & Hnt & Hst) & _).
  unfold activateBestChain in H.
  pose proof (activateLoop_spec P (S (List.length (mgr_index m))) m _ nt Hinv Hnt Hst) as Hloop.
  assert (Hw : chainWork m = node_work nt) by (unfold chainWork; now rewrite Hnt).
  destruct (activateLoop P (S (List.length (mgr_index m))) m) as [[[|]|r1] m1].
  - destruct Hloop as (Hinv1 & Hwork).
    destruct (flush device_ok (mgr_coins m1)) as [r2 c2] eqn:Hf.
    injection H as <- <-.
    assert (c2 = (flush device_ok (mgr_coins m1)).2) by now rewrite Hf. subst c2.
    split; [|rewrite Hw; exact Hwork].
    apply manager_inv_withCoinsOf; [assumption | |].
    + apply flush_wf. apply Hinv1.
    + apply flush_utxo. apply Hinv1.
  - destruct Hloop as (Hinv1 & Hwork). injection H as <- <-.
    split; [assumption | now rewrite Hw].
  - injection H as <- <-. congruence.
Qed.

(** *** Progress: the algorithm comes to an end without a fatal error *)

Lemma findFork_total (idx : BlockIndex) :
  index_wf idx -> index_rooted idx ->
  forall fuel a b na nb,
    lookupNode idx a = Some na -> lookupNode idx b = Some nb ->
    (node_height na + node_height nb < fuel)%nat ->
    exists f, findFork fuel idx a b = Some f /\ upto idx f a /\ upto idx f b.
Proof.
  intros Hwf Hr. induction fuel as [|fuel IH]; intros a b na nb Ha Hb Hlt; [lia|].
  cbn [findFork]. destruct (N.eqb_spec a b) as [->|Hne].
  { exists b. split; [reflexivity|]. split; now left. }
  rewrite Ha, Hb.
  assert (Hroot : forall x nx, lookupNode idx x = Some nx -> node_parent nx = None ->
                               node_height nx = 0%nat).
  { intros x nx Hx Hp. destruct (lookupNode_Some _ _ _ Hx) as (_ & i & Hi).
    now destruct (Hr _ _ Hi Hp). }
  destruct (Nat.ltb_spec (node_height nb) (node_height na)) as [Hh|Hh].
  - destruct (node_parent na) as [pa|] eqn:Hpa;
      [|pose proof (Hroot _ _ Ha Hpa); lia].
    destruct (parent_lookup _ _ _ _ Hwf Ha Hpa) as (npa & Hnpa & Hht).
    destruct (IH pa b npa nb Hnpa Hb ltac:(lia)) as (f & Hf & Hfa & Hfb).
    exists f. split; [assumption|]. split; [eapply upto_parent; eassumption | assumption].
  - destruct (Nat.ltb_spec (node_height na) (node_height nb)) as [Hh'|Hh'].
    + destruct (node_parent nb) as [pb|] eqn:Hpb;
        [|pose proof (Hroot _ _ Hb Hpb); lia].
      destruct (parent_lookup _ _ _ _ Hwf Hb Hpb) as (npb & Hnpb & Hht).
      destruct (IH a pb na npb Ha Hnpb ltac:(lia)) as (f & Hf & Hfa & Hfb).
      exists f. split; [assumption|]. split; [assumption | eapply upto_parent; eassumption].
    + destruct (node_parent na) as [pa|] eqn:Hpa; destruct (node_parent nb) as [pb|] eqn:Hpb.
      * destruct (parent_lookup _ _ _ _ Hwf Ha Hpa) as (npa & Hnpa & Hhta).
        destruct (parent_lookup _ _ _ _ Hwf Hb Hpb) as (npb & Hnpb & Hhtb).
        destruct (IH pa pb npa npb Hnpa Hnpb ltac:(lia)) as (f & Hf & Hfa & Hfb).
        exists f. split; [assumption|]. split; eapply upto_parent; eassumption.
      * pose proof (Hroot _ _ Hb Hpb).
        destruct (parent_lookup _ _ _ _ Hwf Ha Hpa) as (? & _ & ?). lia.
      * pose proof (Hroot _ _ Ha Hpa).
        destruct (parent_lookup _ _ _ _ Hwf Hb Hpb) as (? & _ & ?). lia.
      * exfalso. apply Hne. eapply root_unique; eassumption.
Qed.

Lemma disconnectTip_total (P : ConsensusParams) (m : Manager) (nt : BlockIndexNode) (p : Hash) :
  manager_inv P m -> lookupNode (mgr_index m) (mgr_tip m) = Some nt ->
  node_parent nt = Some p ->
  exists m', disconnectTip m = Ok m' /\ mgr_tip m' = p /\ mgr_bodies m' = mgr_bodies m.
Proof.
  intros (Hidx & Hwf & Hdist & U & (nt' & Hnt' & Hst) & HU & Hconn) Hnt Hp.
  rewrite Hnt in Hnt'. injection Hnt' as <-.
  destruct (Hconn _ _ Hnt Hst) as (Un & HUn & Hcf & Hrec). rewrite Hp in Hrec.
  destruct Hrec as (np & b & us & c0 & c0' & Hnp & Hsp & Hb & Hus & Hwf0 & HUp & Hnew & Hcb
                      & HUn').
  assert (Hview : utxo (mgr_coins m) = utxo c0') by congruence.
  destruct (disconnectBlock_undoes P c0 c0' (mgr_coins m) b _ us Hwf0 Hnew Hcb Hwf Hview)
    as (d' & Hdis & _).
  unfold disconnectTip. rewrite Hnt, Hp, Hus, Hdis. eexists. split; [reflexivity|]. now split.
Qed.

Lemma disconnectTo_total (P : ConsensusParams) (fork : Hash) (fuel : nat) : forall m nt,
  manager_inv P m -> upto (mgr_index m) fork (mgr_tip m) ->
  lookupNode (mgr_index m) (mgr_tip m) = Some nt -> (node_height nt <= fuel)%nat ->
  exists m', disconnectTo fuel fork m = Ok m' /\ mgr_bodies m' = mgr_bodies m.
Proof.
  induction fuel as [|fuel IH]; intros m nt Hinv Hup Hnt Hh; cbn [disconnectTo];
    destruct (N.eqb_spec (mgr_tip m) fork) as [Heq|Hne]; try (exists m; now split);
    destruct Hup as [Heq|Hd]; try congruence;
    assert (exists n p, lookupNode (mgr_index m) (mgr_tip m) = Some n
                        /\ node_parent n = Some p /\ upto (mgr_index m) fork p)
      as (n & p & Hn & Hp & Hup)
      by (inversion Hd; do 2 eexists; (split; [eassumption|]); split;
          solve [eassumption | now left | now right]);
    rewrite Hnt in Hn; injection Hn as <-;
    destruct (parent_lookup _ _ _ _ (proj1 (proj1 Hinv)) Hnt Hp) as (np & Hnp & Hht).
  - lia.
  - destruct (disconnectTip_total P m nt p Hinv Hnt Hp) as (m1 & Hd1 & Htip1 & Hb1).
    rewrite Hd1. cbn [bind].
    destruct (disconnectTip_inv P m m1 Hinv Hd1) as (Hinv1 & Hidx1).
    destruct (IH m1 np Hinv1) as (m' & Hm' & Hb'); [| |lia|].
    + now rewrite Hidx1, Htip1.
    + now rewrite Hidx1, Htip1.
    + exists m'. split; [assumption | congruence].
Qed.

(** Above a node that is not failed no node is failed. *)
Lemma live_parent (idx : BlockIndex) (h p : Hash) (n np : BlockIndexNode) :
  failed_closed idx -> lookupNode idx h = Some n -> node_parent n = Some p ->
  lookupNode idx p = Some np -> isFailed (node_status n) = false ->
  isFailed (node_status np) = false.
Proof.
  intros Hfc Hn Hp Hnp Hlive. destruct (isFailed (node_status np)) eqn:Hf; [|reflexivity].
  rewrite (Hfc _ _ _ _ Hn Hp Hnp Hf) in Hlive. discriminate.
Qed.

(** The path from the fork point to a candidate exists and is a chain. *)
Lemma pathUp_total (idx : BlockIndex) (fork : Hash) :
  index_inv idx ->
  forall fuel h nh acc,
    upto idx fork h -> lookupNode idx h = Some nh -> (node_height nh < fuel)%nat ->
    isFailed (node_status nh) = false -> chain idx h acc ->
    exists path, pathUp fuel idx fork h acc = Some path /\ chain idx fork path.
Proof.
  intros [Hwf Hfc]. induction fuel as [|fuel IH]; intros h nh acc Hup Hnh Hlt Hlive Hch;
    [lia|].
  cbn [pathUp]. destruct (N.eqb_spec h fork) as [->|Hne]; [eauto|].
  destruct Hup as [Heq|Hd]; [congruence|].
  assert (exists n p, lookupNode idx h = Some n /\ node_parent n = Some p /\ upto idx fork p)
    as (n & p & Hn & Hp & Hup)
    by (inversion Hd; do 2 eexists; (split; [eassumption|]); split;
        solve [eassumption | now left | now right]).
  rewrite Hnh in Hn. injection Hn as <-. rewrite Hnh, Hp.
  destruct (parent_lookup _ _ _ _ Hwf Hnh Hp) as (np & Hnp & Hht).
  apply (IH p np (h :: acc) Hup Hnp); [lia | |].
  - exact (live_parent idx h p nh np Hfc Hnh Hp Hnp Hlive).
  - split; [|assumption]. exists nh. now split.
Qed.

Lemma chain_map (f : BlockIndexNode -> BlockIndexNode) (idx : BlockIndex) (path : list Hash) :
  keepsShape f ->
  (forall n, isFailed (node_status n) = false -> isFailed (node_status (f n)) = false) ->
  forall from, chain idx from path -> chain (List.map f idx) from path.
Proof.
  intros Hf Hlive. induction path as [|h rest IH]; intros from Hch; [exact I|].
  destruct Hch as ((n & Hn & Hp & Hl) & Hrest). split; [|auto].
  exists (f n). rewrite (lookupNode_map f); [|intros x; apply Hf]. rewrite Hn.
  split; [reflexivity|]. split; [now rewrite (proj1 (proj2 (Hf n)))| auto].
Qed.

Lemma sameTree_refl (m : Manager) : sameTree m m.
Proof.
  split; [reflexivity|]. exists (fun n => n). split; [now intros n|].
  now rewrite List.map_id.
Qed.

Lemma sameTree_trans (m1 m2 m3 : Manager) : sameTree m1 m2 -> sameTree m2 m3 -> sameTree m1 m3.
Proof.
  intros (Hb1 & f & Hf & Hi1) (Hb2 & g & Hg & Hi2). split; [congruence|].
  exists (fun n => g (f n)). split.
  - intros n. destruct (Hf n) as (? & ? & ? & ?). destruct (Hg (f n)) as (? & ? & ? & ?).
    repeat split; congruence.
  - now rewrite Hi2, Hi1, List.map_map.
Qed.

Lemma sameTree_live (m m' : Manager) :
  sameTree m m' -> index_rooted (mgr_index m) -> bodies_known m ->
  index_rooted (mgr_index m') /\ bodies_known m'.
Proof.
  intros (Hb & f & Hf & Hi) Hr Hk. rewrite Hi. split; [now apply index_rooted_map|].
  intros h n Hn. rewrite Hi, (lookupNode_map f) in Hn by (intros x; apply Hf).
  rewrite Hb. destruct (lookupNode (mgr_index m) h) as [n0|] eqn:Hn0; [|discriminate]. eauto.
Qed.

Lemma liveCount_map (f : BlockIndexNode -> BlockIndexNode) (idx : BlockIndex) :
  (forall n, isFailed (node_status n) = true -> isFailed (node_status (f n)) = true) ->
  (liveCount (List.map f idx) <= liveCount idx)%nat
  /\ ((exists i n, idx !! i = Some n /\ isFailed (node_status n) = false
                   /\ isFailed (node_status (f n)) = true) ->
      (liveCount (List.map f idx) < liveCount idx)%nat).
Proof.
  intros Hf. unfold liveCount. induction idx as [|x idx [IHle IHlt]].
  - split; [reflexivity|]. intros (i & n & Hi & _). destruct i; discriminate.
  - cbn [List.map List.filter].
    destruct (isFailed (node_status x)) eqn:Hx.
    + rewrite (Hf x Hx). cbn [negb]. split; [assumption|].
      intros (i & n & Hi & Hn & Hfn). destruct i as [|i].
      * cbn in Hi. injection Hi as <-. congruence.
      * apply IHlt. eauto.
    + cbn [negb]. destruct (isFailed (node_status (f x))) eqn:Hfx; cbn [negb List.length].
      * split; [lia|]. intros _. lia.
      * split; [lia|]. intros (i & n & Hi & Hn & Hfn). destruct i as [|i].
        -- cbn in Hi. injection Hi as <-. congruence.
        -- assert (List.length (List.filter (fun n => negb (isFailed (node_status n)))
                                  (List.map f idx))
                   < List.length (List.filter (fun n => negb (isFailed (node_status n))) idx))%nat
             by (apply IHlt; eauto).
           lia.
Qed.

Lemma liveCount_le_length (idx : BlockIndex) : (liveCount idx <= List.length idx)%nat.
Proof. unfold liveCount. apply List.filter_length_le. Qed.

Lemma liveCount_raiseValidity (idx : BlockIndex) (h : Hash) (st : Validity) :
  liveCount (raiseValidity idx h st) = liveCount idx.
Proof.
  unfold liveCount, raiseValidity. induction idx as [|x l IH]; [reflexivity|].
  cbn [List.map List.filter]. rewrite raiseNode_failed.
  destruct (negb (isFailed (node_status x))); cbn [List.length]; congruence.
Qed.

(** What a connect on the tip can give when the block is a live child of
    the tip with a stored body. *)
Lemma connectTip_total (P : ConsensusParams) (h : Hash) (m : Manager) (n : BlockIndexNode) :
  manager_live P m -> lookupNode (mgr_index m) h = Some n ->
  node_parent n = Some (mgr_tip m) -> isFailed (node_status n) = false ->
  match connectTip P h m with
  | Connected m' =>
      sameTree m m' /\ liveCount (mgr_index m') = liveCount (mgr_index m)
      /\ mgr_index m' = raiseValidity (mgr_index m) h ScriptsValid
  | Rejected m' => sameTree m m' /\ (liveCount (mgr_index m') < liveCount (mgr_index m))%nat
  | Halted _ _ => False
  end.
Proof.
  intros (Hinv & Hr & Hk) Hn Hp Hlive. unfold connectTip. rewrite Hn.
  destruct (Hk h n Hn) as (b & Hb). rewrite Hb, Hlive.
  rewrite (bool_decide_eq_true_2 _ Hp). cbn [negb orb].
  destruct (connectBlock P (mgr_coins m) b (node_height n)) as [[us|r] c'] eqn:Hcb.
  - split; [|split; [|reflexivity]].
    + split; [reflexivity|]. exists (raiseNode h ScriptsValid).
      split; [apply keepsShape_raiseNode | reflexivity].
    + apply liveCount_raiseValidity.
  - destruct (isRejection r) eqn:Hrej.
    + split.
      * split; [reflexivity|]. exists (invalidateNode (mgr_index m) h).
        split; [apply keepsShape_invalidateNode | reflexivity].
      * cbn [mgr_index markInvalid fst].
        apply (liveCount_map (invalidateNode (mgr_index m) h));
          [apply invalidateNode_failed|].
        destruct (lookupNode_Some _ _ _ Hn) as (Hh & i & Hi).
        exists i, n. split; [assumption|]. split; [assumption|].
        unfold invalidateNode. now rewrite Hh, N.eqb_refl.
    + destruct (child_outputs_new P m h n b Hinv Hn Hp Hb) as (Hnd & Hfresh).
      destruct (connectBlock_fresh P (mgr_coins m) b (node_height n) (proj1 (proj2 Hinv))
                  Hnd Hfresh) as (_ & Herr).
      rewrite (Herr r c' Hcb) in Hrej. discriminate.
Qed.

Lemma manager_live_sameTree (P : ConsensusParams) (m m' : Manager) :
  manager_live P m -> manager_inv P m' -> sameTree m m' -> manager_live P m'.
Proof.
  intros (_ & Hr & Hk) Hinv' Hst. split; [assumption|]. eapply sameTree_live; eassumption.
Qed.

Lemma raiseNode_live (h : Hash) (st : Validity) (n : BlockIndexNode) :
  isFailed (node_status n) = false -> isFailed (node_status (raiseNode h st n)) = false.
Proof. intros H. now rewrite raiseNode_failed. Qed.

(** Connecting a chain above the tip never halts. *)
Lemma connectPath_total (P : ConsensusParams) (path : list Hash) : forall m,
  manager_live P m -> chain (mgr_index m) (mgr_tip m) path ->
  match connectPath P path m with
  | Connected m' => sameTree m m' /\ liveCount (mgr_index m') = liveCount (mgr_index m)
  | Rejected m' => sameTree m m' /\ (liveCount (mgr_index m') < liveCount (mgr_index m))%nat
  | Halted _ _ => False
  end.
Proof.
  induction path as [|h rest IH]; intros m Hlive Hch; cbn [connectPath].
  - split; [apply sameTree_refl | reflexivity].
  - destruct Hch as ((n & Hn & Hp & Hl) & Hrest).
    pose proof (connectTip_total P h m n Hlive Hn Hp Hl) as Ht.
    destruct (connectTip P h m) as [m1|m1|r m1] eqn:Hc; [|assumption|assumption].
    destruct Ht as (Hst1 & Hc1 & Hi1).
    destruct (connectTip_Connected P h m m1 (proj1 Hlive) Hc) as (Hinv1 & _ & Htip1).
    pose proof (manager_live_sameTree P m m1 Hlive Hinv1 Hst1) as Hlive1.
    assert (Hch1 : chain (mgr_index m1) (mgr_tip m1) rest).
    { rewrite Hi1, Htip1. apply chain_map;
        [apply keepsShape_raiseNode | apply raiseNode_live | assumption]. }
    specialize (IH m1 Hlive1 Hch1).
    destruct (connectPath P rest m1) as [m2|m2|r m2]; [| |assumption].
    + destruct IH as (Hst2 & Hc2). split; [eapply sameTree_trans; eassumption | congruence].
    + destruct IH as (Hst2 & Hc2). split; [eapply sameTree_trans; eassumption | lia].
Qed.

Lemma isCandidate_live (st : Validity) : isCandidate st = true -> isFailed st = false.
Proof. now destruct st. Qed.

(** One pass of the algorithm: it does not fail, it changes statuses only,
    and an abandoned switch leaves fewer nodes that are not failed. *)
Lemma activateStep_total (P : ConsensusParams) (m : Manager) :
  manager_live P m ->
  match activateStep P m with
  | Settled m' | Switched m' => sameTree m m'
  | Retry m' => sameTree m m' /\ (liveCount (mgr_index m') < liveCount (mgr_index m))%nat
  | Failed _ _ => False
  end.
Proof.
  intros Hlive. pose proof Hlive as (Hinv & Hr & Hk).
  pose proof Hinv as ((Hwf & Hfc) & _ & _ & U & (nt & Hnt & Hst) & _).
  unfold activateStep.
  destruct (findBestCandidate (mgr_index m)) as [c|] eqn:Hc; [|apply sameTree_refl].
  destruct (N.eqb_spec (node_hash c) (mgr_tip m)) as [Heq|Hne]; [apply sameTree_refl|].
  destruct (findBestCandidate_lookup _ _ Hwf Hc) as (Hlc & Hcand).
  pose proof (height_lt_length _ _ _ Hwf Hr Hnt) as Hht.
  pose proof (height_lt_length _ _ _ Hwf Hr Hlc) as Hhc.
  destruct (findFork_total _ Hwf Hr (S (2 * List.length (mgr_index m))) _ _ nt c Hnt Hlc
              ltac:(lia)) as (fork & -> & Hupt & Hupc).
  destruct (disconnectTo_total P fork (List.length (mgr_index m)) m nt Hinv Hupt Hnt
              ltac:(lia)) as (m1 & Hd & Hb1).
  rewrite Hd.
  destruct (disconnectTo_inv P fork _ m m1 Hinv Hd) as (Hinv1 & Hidx1 & Htip1).
  destruct (pathUp_total (mgr_index m) fork (conj Hwf Hfc) (S (List.length (mgr_index m)))
              (node_hash c) c [] Hupc Hlc ltac:(lia) (isCandidate_live _ Hcand) I)
    as (path & -> & Hch).
  assert (Hst1 : sameTree m m1).
  { split; [assumption|]. exists (fun n => n). split; [now intros n|].
    now rewrite List.map_id. }
  pose proof (manager_live_sameTree P m m1 Hlive Hinv1 Hst1) as Hlive1.
  assert (Hch1 : chain (mgr_index m1) (mgr_tip m1) path) by now rewrite Hidx1, Htip1.
  pose proof (connectPath_total P path m1 Hlive1 Hch1) as Hcp.
  destruct (connectPath P path m1) as [m2|m2|r m2]; [| |assumption].
  - eapply sameTree_trans; [eassumption | apply Hcp].
  - destruct Hcp as (Hst2 & Hlt). split; [eapply sameTree_trans; eassumption|].
    now rewrite <- Hidx1.
Qed.

(** The loop, run for more rounds than the index has nodes that are not
    failed, comes to an end. *)
Lemma activateLoop_total (P : ConsensusParams) (fuel : nat) : forall m,
  manager_live P m -> (liveCount (mgr_index m) < fuel)%nat ->
  match activateLoop P fuel m with
  | (Ok _, m') => sameTree m m'
  | (Err _, _) => False
  end.
Proof.
  induction fuel as [|fuel IH]; intros m Hlive Hlt; [lia|]. cbn [activateLoop].
  pose proof (activateStep_total P m Hlive) as Hstep.
  pose proof (activateStep_spec P m (proj1 Hlive)) as Hspec.
  destruct (activateStep P m) as [m1|m1|m1|r m1]; try assumption.
  destruct Hstep as (Hst & Hlt1). destruct Hspec as (Hinv1 & _).
  pose proof (manager_live_sameTree P m m1 Hlive Hinv1 Hst) as Hlive1.
  specialize (IH m1 Hlive1 ltac:(lia)).
  destruct (activateLoop P fuel m1) as [[sw|r] m2]; [|assumption].
  eapply sameTree_trans; eassumption.
Qed.

(** [activateBestChain] reports no error but the IoError of a flush the
    device refused. *)
Lemma activateBestChain_total (P : ConsensusParams) (device_ok : bool) (m : Manager) :
  manager_live P m ->
  match activateBestChain P device_ok m with
  | (Ok _, m') => sameTree m m'
  | (Err r, m') => r = IoError /\ device_ok = false /\ sameTree m m'
  end.
Proof.
  intros Hlive. unfold activateBestChain.
  pose proof (activateLoop_total P (S (List.length (mgr_index m))) m Hlive) as Hloop.
  pose proof (liveCount_le_length (mgr_index m)) as Hle. specialize (Hloop ltac:(lia)).
  pose proof Hlive as (Hinv & _ & _).
  pose proof Hinv as (_ & _ & _ & _ & (nt & Hnt & Hst) & _).
  pose proof (activateLoop_spec P (S (List.length (mgr_index m))) m _ nt Hinv Hnt Hst) as Hs.
  destruct (activateLoop P (S (List.length (mgr_index m))) m) as [[[|]|r1] m1].
  - destruct device_ok; [rewrite flush_success | rewrite flush_failure].
    + exact Hloop.
    + split; [reflexivity|]. split; [reflexivity|]. exact Hloop.
  - exact Hloop.
  - contradiction.
Qed.

(** *** Accepting blocks, starting, and the reachable states *)

Lemma addHeader_new (P : ConsensusParams) (idx : BlockIndex) (hdr : Header) :
  lookupNode idx (hdr_hash hdr) = None ->
  addHeader P idx hdr = (idx, None)
  \/ exists n, addHeader P idx hdr = (idx ++ [n], Some n) /\ node_header n = hdr
       /\ (isFailed (node_status n) = false -> node_status n = HeaderValid).
Proof.
  intros Hl. unfold addHeader. rewrite Hl. destruct idx as [|n0 idx'].
  - right. eexists. split; [reflexivity|]. now split.
  - destruct (lookupNode (n0 :: idx') (hdr_prev hdr)) as [p|]; [|now left].
    right. eexists. split; [reflexivity|]. split; [reflexivity|]. cbn.
    now destruct (isFailed (node_status p)).
Qed.

Lemma addHeader_new_parent (P : ConsensusParams) (idx : BlockIndex) (hdr : Header)
    (n : BlockIndexNode) (p : Hash) :
  lookupNode idx (hdr_hash hdr) = None -> addHeader P idx hdr = (idx ++ [n], Some n) ->
  node_parent n = Some p -> p = hdr_prev hdr /\ is_Some (lookupNode idx p).
Proof.
  intros Hl. unfold addHeader. rewrite Hl. destruct idx as [|n0 idx'].
  - intros [= <-]. discriminate.
  - destruct (lookupNode (n0 :: idx') (hdr_prev hdr)) as [p0|] eqn:Hp0.
    + intros H. injection H as H _. apply app_inv_head in H. injection H as <-.
      cbn. intros [= <-]. destruct (lookupNode_Some _ _ _ Hp0) as (Hh & _).
      split; [exact Hh|]. rewrite Hh. eauto.
    + intros H. injection H as H _. exfalso.
      apply (f_equal (@List.length _)) in H. rewrite length_app in H. cbn in H. lia.
Qed.

Lemma descends_inv (idx : BlockIndex) (a d : Hash) :
  descends idx a d ->
  exists n p, lookupNode idx d = Some n /\ node_parent n = Some p /\ upto idx a p.
Proof.
  intros H. inversion H as [d' n Hn Hp | d' n p Hn Hp Hd]; subst.
  - exists n, a. split; [assumption|]. split; [assumption | now left].
  - exists n, p. split; [assumption|]. split; [assumption | now right].
Qed.

Lemma acceptBlock_inv (P : ConsensusParams) (b : Block) (m m' : Manager) :
  manager_inv P m -> distinctOutputs m b -> acceptBlock P b m = Ok m' -> manager_inv P m'.
Proof.
  intros Hinv (Hndb & Hdo) H. unfold acceptBlock in H.
  destruct (lookupNode (mgr_index m) (hdr_hash (header b))) as [n0|] eqn:Hl.
  { destruct (isFailed (node_status n0)); [discriminate|]. now injection H as <-. }
  destruct (checkBlock P b) as [[]|]; [|discriminate]. cbn [bind] in H.
  destruct (addHeader_new P (mgr_index m) (header b) Hl) as [Ha|(n & Ha & Hhdr & Hst)];
    rewrite Ha in H; [discriminate|].
  destruct (isFailed (node_status n)) eqn:Hf; [discriminate|]. injection H as <-.
  destruct Hinv as (Hidx & Hwf & Hdist & U & (nt & Hnt & Hstt) & HU & Hconn).
  set (h := hdr_hash (header b)) in *.
  assert (Hhn : node_hash n = h) by (unfold node_hash; now rewrite Hhdr).
  assert (Hold : forall h2 n2, lookupNode (mgr_index m) h2 = Some n2 ->
            lookupNode (raiseValidity (mgr_index m ++ [n]) h TreeValid) h2 = Some n2
            /\ h2 <> h).
  { intros h2 n2 Hn2. assert (h2 <> h) by congruence. split; [|assumption].
    rewrite lookupNode_raise, lookupNode_snoc, Hn2. cbn. f_equal.
    apply raiseNode_other. destruct (lookupNode_Some _ _ _ Hn2). congruence. }
  split.
  { cbn [mgr_index]. apply (index_inv_step P (mgr_index m ++ [n]));
      [|apply step_raiseValidity].
    replace (mgr_index m ++ [n]) with (addHeader P (mgr_index m) (header b)).1
      by now rewrite Ha.
    apply (index_inv_step P (mgr_index m)); [assumption | apply step_addHeader]. }
  split; [assumption|].
  assert (Hold' : forall x nx, lookupNode (mgr_index m) x = Some nx ->
            lookupNode (raiseValidity (mgr_index m ++ [n]) h TreeValid) x = Some nx)
    by (intros x nx Hx; now apply Hold).
  assert (Hnew : forall x nx,
            lookupNode (raiseValidity (mgr_index m ++ [n]) h TreeValid) x = Some nx ->
            lookupNode (mgr_index m) x = None -> x = h /\ node_parent nx = node_parent n).
  { intros x nx Hx Hnone. rewrite lookupNode_raise, lookupNode_snoc, Hnone in Hx.
    destruct (N.eqb_spec (node_hash n) x) as [Heq|]; [|discriminate].
    cbn in Hx. injection Hx as <-. split; [congruence|].
    apply keepsShape_raiseNode. }
  assert (Hup : forall k x, upto (mgr_index m) k x -> is_Some (lookupNode (mgr_index m) x) ->
            k <> h).
  { intros k x [->|Hd] [nx Hx]; [congruence|].
    destruct (descends_ancestor_known _ _ _ (proj1 Hidx) Hd) as (nk & Hnk). congruence. }
  split.
  { intros h' b' Hh'. cbn [mgr_bodies mgr_index] in Hh' |- *.
    apply lookup_insert_Some in Hh' as [(<- & <-)|(Hne & Hh')].
    - split; [assumption|]. intros k bk ref Hd Hk.
      destruct (descends_inv _ _ _ Hd) as (nh & p & Hnh & Hp & Hupp).
      destruct (Hnew _ _ Hnh Hl) as (_ & Hpar). rewrite Hpar in Hp.
      destruct (addHeader_new_parent P _ _ _ _ Hl Ha Hp) as (-> & Hknown).
      assert (Hupp' : upto (mgr_index m) k (hdr_prev (header b))).
      { destruct Hupp as [->|Hd']; [now left|]. right.
        eapply descends_restrict; [exact (proj1 Hidx) | exact Hold' | exact Hd' | exact Hknown]. }
      rewrite lookup_insert_ne in Hk
        by (intros Heq; exact (Hup _ _ Hupp' Hknown (eq_sym Heq))).
      exact (Hdo k bk ref Hupp' Hk).
    - destruct (Hdist h' b' Hh') as (Hnd' & Hdis'). split; [assumption|].
      intros k bk ref Hd Hk.
      destruct (lookupNode (mgr_index m) h') as [nh'|] eqn:Hnh'.
      + assert (Hd' : descends (mgr_index m) k h').
        { eapply descends_restrict; [exact (proj1 Hidx) | exact Hold' | exact Hd | eauto]. }
        rewrite lookup_insert_ne in Hk
          by (intros Heq; apply (Hup k h' (or_intror Hd')); [eauto | now symmetry]).
        exact (Hdis' k bk ref Hd' Hk).
      + destruct (descends_inv _ _ _ Hd) as (nh & p & Hnh & _).
        destruct (Hnew _ _ Hnh Hnh') as (Heq & _). congruence. }
  exists U. cbn [mgr_index mgr_tip mgr_coins].
  split; [exists nt; split; [now apply Hold | assumption]|].
  split; [assumption|].
  intros h2 n2' Hn2' Hs2. cbn [mgr_index mgr_bodies mgr_undos] in *.
  rewrite lookupNode_raise, lookupNode_snoc in Hn2'.
  destruct (lookupNode (mgr_index m) h2) as [n2|] eqn:Hn2.
  - destruct (Hold h2 n2 Hn2) as (_ & Hne2).
    cbn in Hn2'. injection Hn2' as <-.
    rewrite raiseNode_other in * by (destruct (lookupNode_Some _ _ _ Hn2); congruence).
    destruct (Hconn h2 n2 Hn2 Hs2) as (Un & HUn & Hcf & Hrec).
    exists Un. split; [assumption|].
    split.
    { intros ref Hr. destruct (Hcf ref Hr) as (k & bk & Hupk & Hbk & Hin).
      exists k, bk. cbn [mgr_index mgr_bodies].
      split; [destruct Hupk as [->|Hd]; [now left|]; right;
              eapply descends_extend; [exact Hold' | exact Hd]|].
      split; [|assumption].
      rewrite lookup_insert_ne; [assumption|].
      intros Heq. apply (Hup k h2 Hupk); [eauto | now symmetry]. }
    destruct (node_parent n2) as [p2|]; [|exact I].
    destruct Hrec as (np2 & b2 & us2 & c02 & c02' & Hnp2 & Hsp2 & Hb2 & Hrest).
    exists np2, b2, us2, c02, c02'. split; [now apply Hold|]. split; [assumption|].
    split; [now rewrite lookup_insert_ne|]. assumption.
  - destruct (node_hash n =? h2)%N; [|discriminate]. cbn in Hn2'. injection Hn2' as <-.
    exfalso. unfold raiseNode in Hs2. rewrite Hhn, N.eqb_refl, Hf in Hs2.
    cbn in Hs2. discriminate.
Qed.

Lemma index_inv_nil : index_inv [].
Proof.
  split; [apply index_wf_nil|]. intros d n p np Hd. discriminate.
Qed.

Lemma initManager_inv (P : ConsensusParams) (genesis : Block) (m : Manager) :
  NoDup (blockOutputs genesis) -> initManager P genesis = Ok m -> manager_inv P m.
Proof.
  intros Hndg. unfold initManager. set (h := hdr_hash (header genesis)).
  set (store := {| store_coins := ∅; store_best := h |}).
  destruct (connectBlock P (newCache store) genesis 0) as [[us|r] c'] eqn:Hcb;
    [|discriminate].
  intros [= <-].
  pose proof (connectBlock_wf P _ _ _ _ _ (cache_wf_newCache store) Hcb) as (Hwf & _).
  split.
  { change (index_inv (raiseValidity (addHeader P [] (header genesis)).1 h ScriptsValid)).
    apply (index_inv_step P (addHeader P [] (header genesis)).1);
      [|apply step_raiseValidity].
    apply (index_inv_step P []); [apply index_inv_nil | apply step_addHeader]. }
  split; [exact Hwf|].
  set (g0 := {| node_header := header genesis; node_parent := None; node_height := 0;
                node_work := workOf P (hdr_target (header genesis));
                node_status := HeaderValid |}).
  change (addHeader P [] (header genesis)).1 with [g0].
  assert (Hl : forall x, lookupNode (raiseValidity [g0] h ScriptsValid) x
                         = if (h =? x)%N then Some (setStatus g0 ScriptsValid) else None).
  { intros x. rewrite lookupNode_raise. unfold lookupNode. cbn [List.find].
    change (node_hash g0) with h. destruct (h =? x)%N; [|reflexivity].
    cbn. unfold raiseNode. change (node_hash g0) with h. now rewrite N.eqb_refl. }
  split.
  { intros x bx Hx. cbn [mgr_bodies mgr_index] in Hx |- *.
    apply lookup_singleton_Some in Hx as (<- & <-). split; [assumption|].
    intros k bk ref Hd. exfalso.
    destruct (descends_inv _ _ _ Hd) as (nh & p & Hnh & Hp & _).
    rewrite Hl, N.eqb_refl in Hnh. injection Hnh as <-. discriminate. }
  exists (fun _ => Some (utxo c')). cbn [mgr_index mgr_tip mgr_coins].
  split; [|split; [reflexivity|]].
  - exists (setStatus g0 ScriptsValid). rewrite Hl, N.eqb_refl. now split.
  - intros x n Hn _. exists (utxo c'). split; [reflexivity|].
    rewrite Hl in Hn. destruct (N.eqb_spec h x) as [<-|]; [|discriminate].
    injection Hn as <-. split; [|exact I].
    intros ref Hr. exists h, genesis. cbn [mgr_index mgr_bodies].
    split; [now left|]. split; [apply lookup_singleton_eq|].
    destruct (connectBlock_coins P _ _ _ _ _ ref (cache_wf_newCache store) Hcb Hr)
      as [[coin Hc]|Hin]; [|assumption].
    rewrite utxo_lookup in Hc. unfold getCoin in Hc. cbn in Hc.
    rewrite lookup_empty in Hc. cbn in Hc. rewrite lookup_empty in Hc. discriminate.
Qed.

Lemma initManager_live (P : ConsensusParams) (genesis : Block) (m : Manager) :
  NoDup (blockOutputs genesis) -> initManager P genesis = Ok m -> manager_live P m.
Proof.
  intros Hndg H. split; [eapply initManager_inv; eassumption|].
  unfold initManager in H.
  destruct (connectBlock P _ genesis 0) as [[us|r] c']; [|discriminate].
  injection H as <-. split.
  - change (index_rooted (raiseValidity (addHeader P [] (header genesis)).1
                            (hdr_hash (header genesis)) ScriptsValid)).
    apply (index_rooted_step P (addHeader P [] (header genesis)).1);
      [|apply step_raiseValidity].
    apply (index_rooted_step P []); [apply index_rooted_nil | apply step_addHeader].
  - intros h n Hn.
    change (lookupNode (raiseValidity (addHeader P [] (header genesis)).1
                          (hdr_hash (header genesis)) ScriptsValid) h = Some n) in Hn.
    change (is_Some (({[hdr_hash (header genesis) := genesis]} : gmap Hash Block) !! h)).
    rewrite lookupNode_raise in Hn.
    destruct (addHeader_cases P [] (header genesis))
      as [Ha|(n0 & Ha & _ & Hhdr & _)]; rewrite Ha in Hn; [discriminate|].
    rewrite (lookupNode_snoc [] n0 h) in Hn. cbn [lookupNode List.find] in Hn.
    destruct (N.eqb_spec (node_hash n0) h) as [Heq|Hne]; [|discriminate].
    unfold node_hash in Heq. rewrite Hhdr in Heq. rewrite <- Heq.
    rewrite lookup_singleton_eq. eauto.
Qed.

Lemma acceptBlock_live (P : ConsensusParams) (b : Block) (m m' : Manager) :
  manager_live P m -> distinctOutputs m b -> acceptBlock P b m = Ok m' -> manager_live P m'.
Proof.
  intros (Hinv & Hr & Hk) Hdo H. split; [eapply acceptBlock_inv; eassumption|].
  unfold acceptBlock in H.
  destruct (lookupNode (mgr_index m) (hdr_hash (header b))) as [n0|] eqn:Hl.
  { destruct (isFailed (node_status n0)); [discriminate|]. injection H as <-. now split. }
  destruct (checkBlock P b) as [[]|]; [|discriminate]. cbn [bind] in H.
  destruct (addHeader_new P (mgr_index m) (header b) Hl) as [Ha|(n & Ha & Hhdr & Hst)];
    rewrite Ha in H; [discriminate|].
  destruct (isFailed (node_status n)); [discriminate|]. injection H as <-.
  split; cbn [mgr_index mgr_bodies].
  - apply (index_rooted_step P (mgr_index m ++ [n])); [|apply step_raiseValidity].
    replace (mgr_index m ++ [n]) with (addHeader P (mgr_index m) (header b)).1
      by now rewrite Ha.
    apply (index_rooted_step P (mgr_index m)); [assumption | apply step_addHeader].
  - intros h2 n2 Hn2. cbn [mgr_index mgr_bodies] in *.
    rewrite lookupNode_raise, lookupNode_snoc in Hn2.
    destruct (lookupNode (mgr_index m) h2) as [n1|] eqn:Hn1.
    + apply lookup_insert_is_Some. destruct (decide (hdr_hash (header b) = h2));
        [now left | right; split; [assumption | eauto]].
    + destruct (N.eqb_spec (node_hash n) h2) as [Heq|Hne]; [|discriminate].
      unfold node_hash in Heq. rewrite Hhdr in Heq. rewrite Heq.
      rewrite lookup_insert_eq. eauto.
Qed.


(** From a state that satisfies the invariant and has one root and the
    bodies of its nodes, an activation ends in such a state, with a tip of at
    least the cumulative work it started with, and reports success or the
    IoError of a flush the device refused. *)
Lemma activateBestChain_live (P : ConsensusParams) (device_ok : bool) (m m' : Manager)
    (r : Result unit) :
  manager_live P m -> activateBestChain P device_ok m = (r, m') ->
  manager_live P m' /\ chainWork m <= chainWork m'
  /\ (r = Ok tt \/ (r = Err IoError /\ device_ok = false)).
Proof.
  intros Hlive H.
  pose proof (activateBestChain_total P device_ok m Hlive) as Ht. rewrite H in Ht.
  assert (Hr : r <> Err InternalInvariant).
  { destruct r as [[]|r]; [discriminate|]. destruct Ht as (-> & _). discriminate. }
  destruct (activateBestChain_spec P device_ok m m' r (proj1 Hlive) H Hr) as (Hinv' & Hw).
  split; [|split; [exact Hw|]].
  - apply (manager_live_sameTree P m m' Hlive Hinv').
    destruct r as [[]|r]; [assumption | apply Ht].
  - destruct r as [[]|r]; [now left|]. destruct Ht as (-> & -> & _). now right.
Qed.

(** Every state the manager reaches on blocks that create outputs of their
    own, branch by branch, satisfies the invariant, has one root and the
    bodies of all its nodes. *)
Lemma reachableDistinct_live (P : ConsensusParams) (m : Manager) :
  reachableDistinct P m -> manager_live P m.
Proof.
  induction 1 as [g m Hnd Hi | b m m' _ IH Hdo Ha | ok m r m' _ IH Ha].
  - eapply initManager_live; eassumption.
  - eapply acceptBlock_live; eassumption.
  - eapply activateBestChain_live; eassumption.
Qed.

Lemma distinctOutputsb_spec (m : Manager) (b : Block) :
  index_wf (mgr_index m) -> distinctOutputsb m b = true -> distinctOutputs m b.
Proof.
  unfold distinctOutputsb. intros Hwf H. apply andb_true_iff in H as (Hnd & Hall).
  apply bool_decide_eq_true in Hnd. split; [assumption|].
  intros k bk ref Hup Hk Hin Hin'.
  rewrite forallb_forall in Hall.
  assert (Hkb : In (k, bk) (map_to_list (mgr_bodies m))).
  { apply list_elem_of_In. now apply elem_of_map_to_list. }
  specialize (Hall (k, bk) Hkb). cbn [fst snd] in Hall.
  assert (Hon : ((k =? hdr_prev (header b))%N
                 || hasAncestor (List.length (mgr_index m)) (mgr_index m) k
                      (hdr_prev (header b))) = true).
  { destruct Hup as [->|Hd]; [now rewrite N.eqb_refl|].
    rewrite (proj2 (hasAncestor_descends _ _ _ Hwf) Hd). apply orb_true_r. }
  rewrite Hon in Hall. cbn [negb orb] in Hall. rewrite forallb_forall in Hall.
  specialize (Hall ref (proj1 (list_elem_of_In _ _) Hin)).
  apply negb_true_iff, bool_decide_eq_false in Hall. contradiction.
Qed.



Import Examples.

(** One more block on a state the manager reached: accepted, then the best
    chain activated. *)
Lemma reachableDistinct_block (P : ConsensusParams) (b : Block) (m m1 : Manager) :
  reachableDistinct P m -> distinctOutputsb m b = true -> acceptBlock P b m = Ok m1 ->
  reachableDistinct P m1
  /\ reachableDistinct P (activateBestChain P true m1).2.
Proof.
  intros Hm Hd Ha.
  assert (H1 : reachableDistinct P m1).
  { apply (distinct_accept P b m m1 Hm); [|exact Ha].
    apply distinctOutputsb_spec; [|exact Hd]. apply (reachableDistinct_live P m Hm). }
  split; [exact H1|].
  apply (distinct_activate P true m1 (activateBestChain P true m1).1 _ H1).
  apply surjective_pairing.
Qed.

Lemma exM2_reachable : reachableDistinct exParams exM2.
Proof.
  assert (H0 : reachableDistinct exParams exM0).
  { apply (distinct_init exParams exG); [constructor | vm_compute; reflexivity]. }
  assert (H1 : reachableDistinct exParams exM1).
  { apply (reachableDistinct_block exParams exC1 exM0
             (orElse (acceptBlock exParams exC1 exM0) noManager) H0);
      vm_compute; reflexivity. }
  apply (reachableDistinct_block exParams exD1 exM1
           (orElse (acceptBlock exParams exD1 exM1) noManager) H1);
    vm_compute; reflexivity.
Qed.

Lemma exM3_reachable : reachableDistinct exParams exM3.
Proof.
  apply (reachableDistinct_block exParams exD2 exM2 exM3 exM2_reachable);
    vm_compute; reflexivity.
Defined.

(** The scenario of section 8: C1 is the active tip with work 10; when D2
    arrives on D1, the activation disconnects C1 and connects D1, then D2:
    one disconnect notification and two connect notifications, in that
    order, and the tip has work 25. *)
Example scenario_reorg :
  chainWork exM3 = 10
  /\ let m := (activateBestChain exParams true exM3).2 in
     mgr_tip m = 202%N /\ chainWork m = 25
     /\ mgr_events m
        = mgr_events exM3
          ++ [BlockDisconnected 101; TipChanged 100; BlockConnected 201; TipChanged 201;
              BlockConnected 202; TipChanged 202].
Proof. vm_compute. repeat split; reflexivity. Qed.

(** When the block on top of D1 is invalid, the switch is abandoned after D1
    was connected, the block is marked Invalid, and the best candidate is
    computed again: the tip goes back to C1, the first seen of the two
    chains of work 10. *)
Example scenario_abandoned_switch :
  let m := (activateBestChain exParams true exM3bad).2 in
  mgr_tip m = 101%N /\ chainWork m = 10
  /\ (node_status <$> lookupNode (mgr_index m) 203) = Some Invalid
  /\ utxo (mgr_coins m) = utxo (mgr_coins exM3bad).
Proof. vm_compute. repeat split; reflexivity. Qed.

(** Competing blocks may hold the same transaction.  C3 is the active tip
    and holds the transaction 5000; E3, on the same parent and of more work,
    holds it too.  The activation disconnects C3 and connects E3, and the
    output of the transaction is in the UTXO set again, created by E3. *)
Example scenario_shared_transaction :
  reachableDistinct exParams exS3
  /\ mgr_tip exS3 = 103%N /\ chainWork exS3 = 30
  /\ let m := (activateBestChain exParams true exS3).2 in
     (activateBestChain exParams true exS3).1 = Ok tt
     /\ mgr_tip m = 113%N /\ chainWork m = 35
     /\ (coin_value <$> utxo (mgr_coins m) !! (5000%N, 0%nat)) = Some 49
     /\ utxo (mgr_coins m) !! (1001%N, 0%nat) = None.
Proof.
  split; [|vm_compute; repeat split; reflexivity].
  assert (H1 : reachableDistinct exParams exM1).
  { apply (reachableDistinct_block exParams exC1 exM0
             (orElse (acceptBlock exParams exC1 exM0) noManager));
      [apply (distinct_init exParams exG); [constructor | vm_compute; reflexivity]
      | vm_compute; reflexivity..]. }
  assert (HS1 : reachableDistinct exParams exS1).
  { apply (reachableDistinct_block exParams exC2 exM1
             (orElse (acceptBlock exParams exC2 exM1) noManager) H1);
      vm_compute; reflexivity. }
  assert (HS2 : reachableDistinct exParams exS2).
  { apply (reachableDistinct_block exParams exC3 exS1
             (orElse (acceptBlock exParams exC3 exS1) noManager) HS1);
      vm_compute; reflexivity. }
  apply (reachableDistinct_block exParams exE3 exS2 exS3 HS2); vm_compute; reflexivity.
Qed.

Lemma markInvalid_descendants_witness :
  (node_status <$> lookupNode (markInvalid (mgr_index exM3) 201).1 201) = Some Invalid
  /\ (node_status <$> lookupNode (markInvalid (mgr_index exM3) 201).1 202)
     = Some InvalidAncestor.
Proof.
  assert (Hn : exists n, lookupNode (mgr_index exM3) 201 = Some n)
    by (eexists; vm_compute; reflexivity).
  destruct Hn as (n & Hn).
  pose proof (markInvalid_descendants exParams (mgr_index exM3) 201 n
                (proj1 (proj1 (reachableDistinct_live _ _ exM3_reachable))) Hn) as H.
  unfold markInvalid in H |- *. cbn [fst]. destruct H as (H1 & H2 & _).
  split; [now rewrite H1|].
  destruct (H2 202%N) as (nd & _ & Hnd); [|now rewrite Hnd].
  eapply descends_child; vm_compute; reflexivity.
Defined.



(** The lost coin of a round trip, in the manager.  The coin of the genesis
    block is a fresh entry when the block that repeats the reward
    transaction of the genesis block is connected on it, so the connect
    overwrites it.  When a block of more work on the genesis block becomes
    the tip, the disconnect deletes the coin: the genesis block is on the
    active chain, no block spent its coin, and the UTXO set does not hold
    it. *)
Example scenario_lost_coin :
  is_Some (utxo (mgr_coins exN0) !! (1000%N, 0%nat))
  /\ mgr_tip exL1 = 301%N /\ mgr_tip exL2 = 401%N
  /\ utxo (mgr_coins exL2) !! (1000%N, 0%nat) = None.
Proof.
  split; [eexists; vm_compute; reflexivity|]. vm_compute. repeat split; reflexivity.
Qed.


(** The block of two transactions that names (11, 0) twice is rejected with
    ConsensusViolation by the manager on C1, which is left as it was. *)
Example scenario_double_spend :
  wellFormed exParams exTwice = true
  /\ submitBlock exParams true exTwice exM1 = (Err ConsensusViolation, exM1).
Proof. split; vm_compute; reflexivity. Qed.

(** Connected directly to a store that holds a coin where the block creates
    an output, a block that spends (11, 0) twice ends with the
    InternalInvariant of the overwrite, which comes before the second
    spend.  The context-free checks reject the block with
    ConsensusViolation. *)
Example scenario_double_spend_overwrite :
  connectBlock exParams (newCache exStore) exCollide 5
  = (Err InternalInvariant, newCache exStore)
  /\ checkBlock exParams exCollide = Err ConsensusViolation.
Proof. split; vm_compute; reflexivity. Qed.


End ChainstateFacts.
